(** * dantto4k: conditional-access core

    A shallow embedding of [src/acasCard.cpp], [src/acasHandler.cpp] and
    [src/ioThread.h], with the properties of the access-control key
    derivation, the ECM pipeline and the triple-buffered I/O pipeline.

    Conventions.  A [uint8_t] is a [Z] (the producers below keep it in
    [0, 256)); a [std::vector<uint8_t>] or [std::array<uint8_t, n>] is a
    [list Z].  An access past the end of a vector is undefined behaviour in
    C++; the embedding makes it the explicit outcome [Undefined].  Output
    to [std::cout]/[std::cerr] is kept out of the calls; what a debugging
    dump writes is given on its own, in [HexDump]. *)

From Stdlib Require Import ZArith NArith List Bool Lia Arith.
From Stdlib Require String Ascii Permutation.
Import ListNotations.
Local Open Scope Z_scope.

(** ** Byte vectors *)

Module Bytes.

Definition byte := Z.
Definition bytes := list byte.

(** [static_cast<uint8_t>(x)]. *)
Definition to_uint8 (x : Z) : byte := x mod 256.

(** [std::vector<uint8_t>(v.begin() + lo, v.begin() + hi)]: the iterators
    must lie inside [v]. *)
Definition slice (v : bytes) (lo hi : nat) : option bytes :=
  if (lo <=? hi)%nat && (hi <=? length v)%nat
  then Some (firstn (hi - lo) (skipn lo v))
  else None.

(** [std::vector<uint8_t>(v.begin() + lo, v.end())]. *)
Definition slice_from (v : bytes) (lo : nat) : option bytes :=
  if (lo <=? length v)%nat then Some (skipn lo v) else None.

(** Byte-wise exclusive or of two vectors, over their common length. *)
Fixpoint xor_bytes (a b : bytes) : bytes :=
  match a, b with
  | x :: a', y :: b' => Z.lxor x y :: xor_bytes a' b'
  | _, _ => []
  end.

(** Byte-wise equality of two vectors. *)
Fixpoint eqb (a b : bytes) : bool :=
  match a, b with
  | [], [] => true
  | x :: a', y :: b' => (x =? y) && eqb a' b'
  | _, _ => false
  end.

(** The [n] big-endian bytes of [x]. *)
Fixpoint be_bytes (n : nat) (x : Z) : bytes :=
  match n with
  | O => []
  | S n' => (Z.shiftr x (8 * Z.of_nat n')) mod 256 :: be_bytes n' x
  end.

(** The big-endian value of a byte string. *)
Definition be_value (v : bytes) : Z :=
  fold_left (fun acc b => acc * 256 + b) v 0.

(** Cuts a list into chunks of [n] elements ([fuel] chunks at most:
    the callers pass the length of the list or the known chunk count). *)
Fixpoint chunks {A : Type} (fuel n : nat) (v : list A) : list (list A) :=
  match fuel, v with
  | O, _ | _, [] => []
  | S f, _ => firstn n v :: chunks f n (skipn n v)
  end.

End Bytes.
Import Bytes.

(** ** SHA-256 *)

(** Modelled from the spec: [SHA256::hash] ([sha256.h]) is not among the
    sources.  The spec names the function SHA-256 and fixes its result at
    32 bytes; it is taken here as the function of FIPS 180-4, with the
    round constants derived from the primes as the standard defines them. *)
Module SHA256.

Definition w32 (x : Z) : Z := x mod 2 ^ 32.
Definition add32 (x y : Z) : Z := w32 (x + y).
Definition rotr (n x : Z) : Z :=
  w32 (Z.lor (Z.shiftr x n) (Z.shiftl x (32 - n))).
Definition shr (n x : Z) : Z := Z.shiftr x n.
Definition not32 (x : Z) : Z := 2 ^ 32 - 1 - x.

Definition Ch (x y z : Z) := Z.lxor (Z.land x y) (Z.land (not32 x) z).
Definition Maj (x y z : Z) :=
  Z.lxor (Z.lxor (Z.land x y) (Z.land x z)) (Z.land y z).
Definition bsig0 x := Z.lxor (Z.lxor (rotr 2 x) (rotr 13 x)) (rotr 22 x).
Definition bsig1 x := Z.lxor (Z.lxor (rotr 6 x) (rotr 11 x)) (rotr 25 x).
Definition ssig0 x := Z.lxor (Z.lxor (rotr 7 x) (rotr 18 x)) (shr 3 x).
Definition ssig1 x := Z.lxor (Z.lxor (rotr 17 x) (rotr 19 x)) (shr 10 x).

(** The first primes, by trial division. *)
Definition is_prime (p : Z) : bool :=
  (1 <? p) &&
  forallb (fun d => negb (p mod d =? 0))
          (map Z.of_nat (seq 2 (Z.to_nat (Z.sqrt p) - 1))).

Definition primes : list Z :=
  Eval vm_compute in filter is_prime (map Z.of_nat (seq 2 310)).

(** Integer cube root, one bit at a time from bit 39 down. *)
Definition icbrt (n : Z) : Z :=
  fold_left (fun r b => let c := r + 2 ^ Z.of_nat b in
                        if c * c * c <=? n then c else r)
            (rev (seq 0 40)) 0.

(** H(0): the fractional parts of the square roots of the first 8 primes. *)
Definition H0 : list Z :=
  Eval vm_compute in map (fun p => w32 (Z.sqrt (p * 2 ^ 64))) (firstn 8 primes).

(** K: the fractional parts of the cube roots of the first 64 primes. *)
Definition K : list Z :=
  Eval vm_compute in map (fun p => w32 (icbrt (p * 2 ^ 96))) (firstn 64 primes).

(** Padding: a 1 bit, zeros up to 56 mod 64 bytes, the bit length on 8 bytes. *)
Definition pad (msg : bytes) : bytes :=
  let n := Z.of_nat (length msg) in
  msg ++ [128] ++ repeat 0 (Z.to_nat ((55 - n) mod 64)) ++ be_bytes 8 (8 * n).

(** The message schedule: W(0..15) from the block, then 48 more words,
    kept most recent first. *)
Definition schedule_step (ws : list Z) : list Z :=
  match ws with
  | w1 :: w2 :: _ =>
      let w7 := nth 6 ws 0 in
      let w15 := nth 14 ws 0 in
      let w16 := nth 15 ws 0 in
      add32 (add32 (ssig1 w2) w7) (add32 (ssig0 w15) w16) :: ws
  | _ => ws
  end.

Definition schedule (block : bytes) : list Z :=
  let w0 := map be_value (chunks 16 4 block) in
  rev (Nat.iter 48 schedule_step (rev w0)).

Definition round (st : list Z) (kw : Z * Z) : list Z :=
  match st with
  | [a; b; c; d; e; f; g; h] =>
      let t1 := add32 (add32 (add32 h (bsig1 e)) (add32 (Ch e f g) (fst kw)))
                      (snd kw) in
      let t2 := add32 (bsig0 a) (Maj a b c) in
      [add32 t1 t2; a; b; c; add32 d t1; e; f; g]
  | _ => st
  end.

Definition compress (hs : list Z) (block : bytes) : list Z :=
  let st := fold_left round (combine K (schedule block)) hs in
  map (fun p => add32 (fst p) (snd p)) (combine hs st).

Definition hash (msg : bytes) : bytes :=
  let padded := pad msg in
  let blocks := chunks (length padded) 64 padded in
  flat_map (be_bytes 4) (fold_left compress blocks H0).

End SHA256.

(** ** AES-128 in counter mode *)

(** Modelled from the spec: the cipher back-ends ([aes.h], [AESCtrCipher])
    are not among the sources.  Section 4.4 of the spec fixes AES-128 in CTR
    mode, the 16-byte IV being the initial counter block, incremented as a
    big-endian number once per 16-byte block, both back-ends behaving alike.
    The block cipher is the one of FIPS 197, its S-box computed from the
    inverse in GF(2^8). *)
Module AES.

Definition xtime (x : Z) : Z :=
  Z.lxor (Z.shiftl x 1 mod 256) (if Z.testbit x 7 then 27 else 0).

(** Multiplication in GF(2^8), by shift and add over the 8 bits of [b]. *)
Definition gmul (a b : Z) : Z :=
  fst (fold_left (fun (acc : Z * Z) (i : nat) =>
                    let '(r, p) := acc in
                    (if Z.testbit b (Z.of_nat i) then Z.lxor r p else r,
                     xtime p))
                 (seq 0 8) (0, a)).

Definition ginv (a : Z) : Z := Nat.iter 254 (gmul a) 1.

Definition rotl8 (x n : Z) : Z :=
  Z.lor (Z.shiftl x n mod 256) (Z.shiftr x (8 - n)).

Definition sbox_of (x : Z) : Z :=
  let b := ginv x in
  Z.lxor (Z.lxor (Z.lxor (Z.lxor (Z.lxor b (rotl8 b 1)) (rotl8 b 2))
                         (rotl8 b 3)) (rotl8 b 4)) 99.

Definition sbox : list Z :=
  Eval vm_compute in map (fun i => sbox_of (Z.of_nat i)) (seq 0 256).

Definition sub_byte (b : Z) : Z := nth (Z.to_nat b) sbox 0.
Definition sub_bytes (st : bytes) : bytes := map sub_byte st.

(** The state holds its 4x4 bytes column by column: row [r] of column [c]
    is at index [r + 4c]. *)
Definition shift_rows (st : bytes) : bytes :=
  map (fun i => nth ((i mod 4) + 4 * ((i / 4 + i mod 4) mod 4))%nat st 0)
      (seq 0 16).

Definition mix_column (col : bytes) : bytes :=
  match col with
  | [a0; a1; a2; a3] =>
      [Z.lxor (Z.lxor (gmul 2 a0) (gmul 3 a1)) (Z.lxor a2 a3);
       Z.lxor (Z.lxor a0 (gmul 2 a1)) (Z.lxor (gmul 3 a2) a3);
       Z.lxor (Z.lxor a0 a1) (Z.lxor (gmul 2 a2) (gmul 3 a3));
       Z.lxor (Z.lxor (gmul 3 a0) a1) (Z.lxor a2 (gmul 2 a3))]
  | _ => col
  end.

Definition mix_columns (st : bytes) : bytes :=
  flat_map mix_column (chunks 4 4 st).

(** Key expansion: the words are kept most recent first while they are
    produced; [rcon] is the round constant of the word about to be made. *)
Definition expand_step (acc : list bytes * Z) (i : nat) : list bytes * Z :=
  let '(ws, rcon) := acc in
  let prev := nth 0 ws [] in
  let back := nth 3 ws [] in
  if (i mod 4 =? 0)%nat then
    match map sub_byte prev with
    | [t0; t1; t2; t3] =>
        (xor_bytes back [Z.lxor t1 rcon; t2; t3; t0] :: ws, xtime rcon)
    | _ => (ws, rcon)
    end
  else (xor_bytes back prev :: ws, rcon).

Definition key_expansion (key : bytes) : list bytes :=
  let w0 := chunks 4 4 key in
  let ws := rev (fst (fold_left expand_step (seq 4 40) (rev w0, 1))) in
  map (@concat Z) (chunks 11 4 ws).

Definition cipher_round (st : bytes) (rk : bytes) : bytes :=
  xor_bytes (mix_columns (shift_rows (sub_bytes st))) rk.

Definition encrypt_block (key block : bytes) : bytes :=
  match key_expansion key with
  | rk0 :: rks =>
      let st := fold_left cipher_round (firstn 9 rks) (xor_bytes block rk0) in
      xor_bytes (shift_rows (sub_bytes st)) (nth 9 rks [])
  | [] => block
  end.

(** The counter block of the [j]-th 16-byte block. *)
Definition counter_block (iv : bytes) (j : nat) : bytes :=
  be_bytes 16 ((be_value iv + Z.of_nat j) mod 2 ^ 128).

(** CTR encryption and decryption are the same operation. *)
Definition ctr_xcrypt (key iv buf : bytes) : bytes :=
  concat (map (fun jb => xor_bytes (snd jb)
                           (encrypt_block key (counter_block iv (fst jb))))
              (combine (seq 0 (length buf)) (chunks (length buf) 16 buf))).

End AES.

(** ** APDUs and the smart-card port *)

(** Modelled from the spec: [ApduCommand], [ApduResponse] and [ISmartCard]
    are declared in headers that are not among the sources.  Section 6 of
    the spec gives the case-4-short layout [CLA INS P1 P2 Lc <data> Le] with
    a one-byte [Lc], and a response [<data> SW1 SW2] that is a success iff
    [SW1 SW2 = 90 00]; section 4.1 lists the operations of the port. *)
Module Apdu.

Record ApduCommand := { cla : Z; ins : Z; p1 : Z; p2 : Z }.

Definition case4short (c : ApduCommand) (data : bytes) (le : Z) : bytes :=
  [cla c; ins c; p1 c; p2 c; to_uint8 (Z.of_nat (length data))] ++ data ++ [le].

Record ApduResponse := { data : bytes; sw1 : Z; sw2 : Z }.

Definition isSuccess (r : ApduResponse) : bool :=
  (sw1 r =? 0x90) && (sw2 r =? 0x00).

Definition getData (r : ApduResponse) : bytes := data r.

(** The transport status codes the callers test, with their PC/SC values. *)
Definition SCARD_S_SUCCESS : Z := 0.
Definition SCARD_W_RESET_CARD : Z := 0x80100068.
Definition SCARD_E_INVALID_HANDLE : Z := 0x80100003.

End Apdu.
Import Apdu.

(** The port: every operation acts on the state of the reader and card.  An
    operation that yields [None] has thrown [std::runtime_error] (the only
    exception [AcasCard::ecm] catches).  [endTransaction] is the release done
    by the destructor of the handle [scopedTransaction] returns. *)
Class ISmartCard (card : Type) : Type := {
  isInited : card -> bool;
  init : card -> option unit * card;
  isConnected : card -> bool;
  connect : card -> option unit * card;
  scopedTransaction : card -> option unit * card;
  endTransaction : card -> card;
  transmit : bytes -> card -> option (Z * ApduResponse) * card
}.

(** ** AcasCard *)

Module AcasCard.

(** What a call leaves in the ghost trace of the port. *)
Inductive event :=
| EvInit
| EvConnect
| EvBegin
| EvEnd
| EvTransmit (apdu : bytes) (ret : Z) (response : ApduResponse).

(** How a piece of code ends. *)
Inductive outcome (A : Type) :=
| Ret (a : A)      (** it returns [a] *)
| Throw            (** a [std::runtime_error] propagates *)
| Undefined        (** undefined behaviour: a read past the end of a vector,
                       or a call through a null [smartCard] *)
| Exhausted.       (** the model ran out of fuel (no behaviour of the code) *)
Arguments Ret {A} a.
Arguments Throw {A}.
Arguments Undefined {A}.
Arguments Exhausted {A}.

(** [struct DecryptionKey { std::array<uint8_t, 16> odd, even; }]. *)
Record DecryptionKey := { odd : bytes; even : bytes }.

Section WithCard.

Context {card : Type} `{ISmartCard card}.

(** [masterKey] comes from [config.h]. *)
Variable masterKey : bytes.

(** The object and its environment: the port it owns (null until
    [setSmartCard]), the values the random engines will draw, how many
    were drawn, and the ghost trace. *)
Record env := {
  smartCard : option card;
  random : nat -> Z;
  drawn : nat;
  trace : list event
}.

Definition M (A : Type) : Type := env -> outcome A * env.

Definition ret {A} (a : A) : M A := fun s => (Ret a, s).

Definition bind {A B} (m : M A) (k : A -> M B) : M B :=
  fun s => match m s with
           | (Ret a, s') => k a s'
           | (Throw, s') => (Throw, s')
           | (Undefined, s') => (Undefined, s')
           | (Exhausted, s') => (Exhausted, s')
           end.

Notation "x <- m ;; k" := (bind m (fun x => k))
  (at level 61, m at next level, right associativity).
Notation "' p <- m ;; k" := (bind m (fun x => let p := x in k))
  (at level 61, p pattern, m at next level, right associativity).
Notation "m ;;; k" := (bind m (fun _ => k))
  (at level 61, right associativity).

(** A checked vector access. *)
Definition vec {A} (o : option A) : M A :=
  fun s => match o with Some a => (Ret a, s) | None => (Undefined, s) end.

Definition log (e : event) (s : env) : env :=
  {| smartCard := smartCard s; random := random s; drawn := drawn s;
     trace := trace s ++ [e] |}.

Definition set_card (c : card) (s : env) : env :=
  {| smartCard := Some c; random := random s; drawn := drawn s;
     trace := trace s |}.

(** [smartCard->f()] for a query. *)
Definition query {A} (f : card -> A) : M A :=
  fun s => match smartCard s with
           | Some c => (Ret (f c), s)
           | None => (Undefined, s)
           end.

(** [smartCard->f()] for an operation that may throw. *)
Definition call {A} (f : card -> option A * card) (e : A -> event) : M A :=
  fun s => match smartCard s with
           | Some c => match f c with
                       | (Some a, c') => (Ret a, log (e a) (set_card c' s))
                       | (None, c') => (Throw, set_card c' s)
                       end
           | None => (Undefined, s)
           end.

(** [if (!smartCard->isInited()) smartCard->init();] *)
Definition ensure_inited : M unit :=
  b <- query isInited ;;
  if negb b then call init (fun _ => EvInit) else ret tt.

(** [if (!smartCard->isConnected()) smartCard->connect();] *)
Definition ensure_connected : M unit :=
  b <- query isConnected ;;
  if negb b then call connect (fun _ => EvConnect) else ret tt.

Definition do_transmit (apdu : bytes) : M (Z * ApduResponse) :=
  call (transmit apdu) (fun r => EvTransmit apdu (fst r) (snd r)).

(** [auto scope = smartCard->scopedTransaction(); body]: the handle is
    released however [body] ends. *)
Definition scoped {A} (body : M A) : M A :=
  fun s => match call scopedTransaction (fun _ => EvBegin) s with
           | (Ret _, s1) =>
               let '(r, s2) := body s1 in
               (r, match smartCard s2 with
                   | Some c => log EvEnd (set_card (endTransaction c) s2)
                   | None => s2
                   end)
           | (Throw, s1) => (Throw, s1)
           | (Undefined, s1) => (Undefined, s1)
           | (Exhausted, s1) => (Exhausted, s1)
           end.

(** [distrib(engine)] eight times, each cast to [uint8_t]. *)
Definition draw_bytes (n : nat) : M bytes :=
  fun s => (Ret (map (fun i => to_uint8 (random s (drawn s + i)%nat)) (seq 0 n)),
            {| smartCard := smartCard s; random := random s;
               drawn := (drawn s + n)%nat; trace := trace s |}).

(** [std::equal(a.begin(), a.end(), b.begin())]: [b] must hold at least
    as many elements as [a]. *)
Definition equal (a b : bytes) : option bool :=
  if (length a <=? length b)%nat
  then Some (Bytes.eqb a (firstn (length a) b))
  else None.

(** [for (i = 0; i < a.size(); i++) a[i] ^= b[i];] *)
Definition xor_in_place (a b : bytes) : option bytes :=
  if (length a <=? length b)%nat then Some (xor_bytes a b) else None.

(** [bool AcasCard::getA0AuthKcl(sha256_t& output)].  [Some kcl]: it
    returns [true] having assigned [kcl] to [output]; [None]: it returns
    [false], [output] untouched. *)
Definition getA0AuthKcl : M (option bytes) :=
  a0init <- draw_bytes 8 ;;
  let data := [0x00; 0x00; 0x00; 0x01; 0x00; 0x00; 0x8A; 0xF7] ++ a0init in
  let apdu := {| cla := 0x90; ins := 0xA0; p1 := 0x00; p2 := 0x01 |} in
  ensure_inited ;;;
  ensure_connected ;;;
  r <- do_transmit (case4short apdu data 0x00) ;;
  let response := snd r in
  if negb (fst r =? SCARD_S_SUCCESS) then ret None else
  if negb (isSuccess response) then ret None else
  let a0data := getData response in
  a0response <- vec (slice a0data 0x06 (0x06 + 0x08)) ;;
  a0hash <- vec (slice_from a0data 0x0e) ;;
  let plainKcl := masterKey ++ a0init ++ a0response in
  let kcl := SHA256.hash plainKcl in
  let plainData := kcl ++ a0init in
  let hash := SHA256.hash plainData in
  same <- vec (equal hash a0hash) ;;
  if negb same then ret None else
  ret (Some kcl).

(** How one pass through the body under the [retry:] label ends. *)
Inductive pass_exit :=
| Return (r : option DecryptionKey)   (** [return true] or [return false] *)
| GotoRetry (retryCount : Z).         (** [++retryCount; goto retry;] *)

(** [if (retryCount > 1) return false; ++retryCount; goto retry;] *)
Definition retry_or_fail (retryCount : Z) : pass_exit :=
  if retryCount >? 1 then Return None
  else GotoRetry ((retryCount + 1) mod 2 ^ 32).

(** The statements of [AcasCard::ecm] inside the scope of the
    transaction handle. *)
Definition ecm_transaction (ecm : bytes) (retryCount : Z) : M pass_exit :=
  a0 <- getA0AuthKcl ;;
  match a0 with
  | None => ret (retry_or_fail retryCount)
  | Some kcl =>
      let apdu := {| cla := 0x90; ins := 0x34; p1 := 0x00; p2 := 0x01 |} in
      r <- do_transmit (case4short apdu ecm 0x00) ;;
      let response := snd r in
      if negb (fst r =? SCARD_S_SUCCESS) then
        if (fst r =? SCARD_W_RESET_CARD) || (fst r =? SCARD_E_INVALID_HANDLE)
        then ret (retry_or_fail retryCount)
        else ret (Return None)
      else
      if negb (isSuccess response) then ret (Return None) else
      let ecmData := getData response in
      ecmResponse <- vec (slice_from ecmData 0x06) ;;
      ecmInit <- vec (slice ecm 0x04 (0x04 + 0x17)) ;;
      let plainData := kcl ++ ecmInit in
      let hash := SHA256.hash plainData in
      hash' <- vec (xor_in_place hash ecmResponse) ;;
      ret (Return (Some {| odd := firstn 0x10 hash';
                           even := firstn 0x10 (skipn 0x10 hash') |}))
  end.

(** The code from the [retry:] label on; a [goto retry] is a recursive
    call, one unit of [fuel] each. *)
Fixpoint ecm_retry (fuel : nat) (ecm : bytes) (retryCount : Z)
  : M (option DecryptionKey) :=
  match fuel with
  | O => fun s => (Exhausted, s)
  | S fuel' =>
      ensure_inited ;;;
      ensure_connected ;;;
      x <- scoped (ecm_transaction ecm retryCount) ;;
      match x with
      | Return r => ret r
      | GotoRetry retryCount' => ecm_retry fuel' ecm retryCount'
      end
  end.

(** [bool AcasCard::ecm(const std::vector<uint8_t>& ecm, DecryptionKey& output)].
    [Some k]: it returns [true] having written [k] to [output]; [None]:
    it returns [false], [output] untouched.  Three units of fuel are
    enough for every call ([ecm_retry_fuel] below). *)
Definition ecm (ecm : bytes) : M (option DecryptionKey) :=
  fun s =>
    match smartCard s with
    | None => (Ret None, s)
    | Some _ =>
        match ecm_retry 3 ecm 0 s with
        | (Throw, s') => (Ret None, s')
        | r => r
        end
    end.

(** [void AcasCard::setSmartCard(std::unique_ptr<ISmartCard> sc)]: the
    port is replaced, a null [sc] leaving the object without one; nothing
    else of the object changes. *)
Definition setSmartCard (sc : option card) (s : env) : env :=
  {| smartCard := sc; random := random s; drawn := drawn s;
     trace := trace s |}.

(** *** The retry policy in the words of the spec *)





(** The number of card transactions a trace holds: one per pass. *)
Definition is_begin (e : event) : bool :=
  match e with EvBegin => true | _ => false end.

Definition passes (t : list event) : nat := length (filter is_begin t).

(** The events of the set-up steps. *)
Definition is_setup (e : event) : Prop := e = EvInit \/ e = EvConnect.

(** The nonce the next call of [getA0AuthKcl] draws. *)
Definition next_a0init (s : env) : bytes :=
  map (fun i => to_uint8 (random s (drawn s + i)%nat)) (seq 0 8).

(** The A0 and 34 commands as they go out. *)
Definition a0_apdu (a0init : bytes) : bytes :=
  case4short {| cla := 0x90; ins := 0xA0; p1 := 0x00; p2 := 0x01 |}
             ([0x00; 0x00; 0x00; 0x01; 0x00; 0x00; 0x8A; 0xF7] ++ a0init) 0x00.

Definition ecm_apdu (ecm : bytes) : bytes :=
  case4short {| cla := 0x90; ins := 0x34; p1 := 0x00; p2 := 0x01 |} ecm 0x00.


(** *** The replies as functions *)

(** What [getA0AuthKcl] makes of the status and the response [transmit]
    gave it (the statements after the call), as a function; the lemmas on
    traces are stated with it. *)
Definition a0_verdict (a0init : bytes) (st : Z) (response : ApduResponse)
  : outcome (option bytes) :=
  if negb (st =? SCARD_S_SUCCESS) then Ret None else
  if negb (isSuccess response) then Ret None else
  match slice (getData response) 0x06 (0x06 + 0x08) with
  | None => Undefined
  | Some a0response =>
      match slice_from (getData response) 0x0e with
      | None => Undefined
      | Some a0hash =>
          let kcl := SHA256.hash (masterKey ++ a0init ++ a0response) in
          match equal (SHA256.hash (kcl ++ a0init)) a0hash with
          | None => Undefined
          | Some same => if negb same then Ret None else Ret (Some kcl)
          end
      end
  end.

(** Likewise for the 34 exchange of [ecm]. *)
Definition ecm_verdict (kcl ecm : bytes) (retryCount : Z) (st : Z)
  (response : ApduResponse) : outcome pass_exit :=
  if negb (st =? SCARD_S_SUCCESS) then
    if (st =? SCARD_W_RESET_CARD) || (st =? SCARD_E_INVALID_HANDLE)
    then Ret (retry_or_fail retryCount)
    else Ret (Return None)
  else
  if negb (isSuccess response) then Ret (Return None) else
  match slice_from (getData response) 0x06 with
  | None => Undefined
  | Some ecmResponse =>
      match slice ecm 0x04 (0x04 + 0x17) with
      | None => Undefined
      | Some ecmInit =>
          match xor_in_place (SHA256.hash (kcl ++ ecmInit)) ecmResponse with
          | None => Undefined
          | Some hash' =>
              Ret (Return (Some {| odd := firstn 0x10 hash';
                                   even := firstn 0x10 (skipn 0x10 hash') |}))
          end
      end
  end.

(** One pass of [ecm]: the code between the [retry:] label and the end of
    the scope of the transaction. *)
Definition pass (ecm : bytes) (retryCount : Z) : M pass_exit :=
  ensure_inited ;;;
  ensure_connected ;;;
  scoped (ecm_transaction ecm retryCount).

End WithCard.

End AcasCard.

(** ** A simulated card *)

(** A test double for the port (the spec's "recorded-trace replay"): a card
    that holds the master key, answers A0 and 34 as an ACAS card does, and
    departs from that as its script says, one entry per [transmit]. *)
Module SimCard.

Inductive behaviour :=
| Honest
| Status (ret : Z)          (** the transport fails with this status *)
| Reject (sw1 sw2 : Z)      (** the card answers with this status word *)
| BadTag                    (** the first byte of the authentication tag is flipped *)
| Truncated (n : nat)       (** only the first [n] data bytes come back *)
| Trailing (extra : bytes)  (** more data bytes follow *)
| Throws.                   (** the port throws [std::runtime_error] *)

Record card := {
  inited : bool;
  connected : bool;
  script : list behaviour;
  card_key : bytes;
  card_nonce : bytes;
  card_kcl : bytes;
  control_words : bytes
}.

Definition with_script (l : list behaviour) (c : card) : card :=
  {| inited := inited c; connected := connected c; script := l;
     card_key := card_key c; card_nonce := card_nonce c;
     card_kcl := card_kcl c; control_words := control_words c |}.

Definition with_kcl (k : bytes) (c : card) : card :=
  {| inited := inited c; connected := connected c; script := script c;
     card_key := card_key c; card_nonce := card_nonce c;
     card_kcl := k; control_words := control_words c |}.

(** What an honest card answers, and the session key it keeps. *)
Definition honest_reply (apdu : bytes) (c : card) : ApduResponse * card :=
  let body := firstn (length apdu - 6) (skipn 5 apdu) in
  if nth 1 apdu 0 =? 0xA0 then
    let a0init := skipn 8 body in
    let kcl := SHA256.hash (card_key c ++ a0init ++ card_nonce c) in
    ({| data := repeat 0 6 ++ card_nonce c ++ SHA256.hash (kcl ++ a0init);
        sw1 := 0x90; sw2 := 0x00 |}, with_kcl kcl c)
  else if nth 1 apdu 0 =? 0x34 then
    let ecm_init := firstn 23 (skipn 4 body) in
    ({| data := repeat 0 6 ++
                xor_bytes (SHA256.hash (card_kcl c ++ ecm_init)) (control_words c);
        sw1 := 0x90; sw2 := 0x00 |}, c)
  else ({| data := []; sw1 := 0x6D; sw2 := 0x00 |}, c).

Definition flip_tag (d : bytes) : bytes :=
  firstn 14 d ++ match skipn 14 d with
                 | b :: t => Z.lxor b 1 :: t
                 | [] => []
                 end.

Definition sim_transmit (apdu : bytes) (c : card)
  : option (Z * ApduResponse) * card :=
  let b := hd Honest (script c) in
  let c0 := with_script (tl (script c)) c in
  let '(r, c1) := honest_reply apdu c0 in
  match b with
  | Honest => (Some (SCARD_S_SUCCESS, r), c1)
  | Status st => (Some (st, {| data := []; sw1 := 0; sw2 := 0 |}), c0)
  | Reject s1 s2 =>
      (Some (SCARD_S_SUCCESS, {| data := []; sw1 := s1; sw2 := s2 |}), c0)
  | BadTag =>
      (Some (SCARD_S_SUCCESS,
             {| data := flip_tag (data r); sw1 := sw1 r; sw2 := sw2 r |}), c1)
  | Truncated n =>
      (Some (SCARD_S_SUCCESS,
             {| data := firstn n (data r); sw1 := sw1 r; sw2 := sw2 r |}), c1)
  | Trailing extra =>
      (Some (SCARD_S_SUCCESS,
             {| data := data r ++ extra; sw1 := sw1 r; sw2 := sw2 r |}), c1)
  | Throws => (None, c0)
  end.

Definition set_flags (i k : bool) (c : card) : card :=
  {| inited := i; connected := k; script := script c;
     card_key := card_key c; card_nonce := card_nonce c;
     card_kcl := card_kcl c; control_words := control_words c |}.

#[export] Instance sim_port : ISmartCard card := {|
  isInited := inited;
  init := fun c => (Some tt, set_flags true (connected c) c);
  isConnected := connected;
  connect := fun c => (Some tt, set_flags (inited c) true c);
  scopedTransaction := fun c => (Some tt, c);
  endTransaction := fun c => c;
  transmit := sim_transmit
|}.

(** The fixtures of the spec's scenarios: a master key of 32 bytes 0xAA, the
    host nonce 01..08, the card nonce 11..18, control words 00..1f. *)
Definition test_key : bytes := repeat 0xAA 32.

Definition fresh (l : list behaviour) : card :=
  {| inited := false; connected := false; script := l;
     card_key := test_key;
     card_nonce := map (fun i => 0x11 + Z.of_nat i) (seq 0 8);
     card_kcl := [];
     control_words := map Z.of_nat (seq 0 32) |}.

Definition test_env (l : list behaviour) : AcasCard.env :=
  {| AcasCard.smartCard := Some (fresh l);
     AcasCard.random := fun i => Z.of_nat i + 1;
     AcasCard.drawn := 0;
     AcasCard.trace := [] |}.

(** An ECM of 32 bytes, 40..5f. *)
Definition test_ecm : bytes := map (fun i => 0x40 + Z.of_nat i) (seq 0 32).

End SimCard.

(** ** AcasHandler *)

(** Modelled from the spec: [MmtTlv::Mmtp] and [MmtTlv::EncryptionFlag]
    ([mmtp.h]) are not among the sources.  Section 3 of the spec gives the
    packet a 16-bit packet id, a 32-bit sequence number, an encryption flag
    in {EVEN, ODD, UNSCRAMBLED} and a payload; [decrypt] reaches the flag
    through the optional scrambling extension header. *)
Module Mmtp.

Inductive EncryptionFlag := UNSCRAMBLED | EVEN | ODD.

Definition flag_eqb (a b : EncryptionFlag) : bool :=
  match a, b with
  | UNSCRAMBLED, UNSCRAMBLED | EVEN, EVEN | ODD, ODD => true
  | _, _ => false
  end.

Record ExtensionHeaderScrambling := { encryptionFlag : EncryptionFlag }.

Record Mmtp := {
  extensionHeaderScrambling : option ExtensionHeaderScrambling;
  packetId : Z;
  packetSequenceNumber : Z;
  payload : bytes
}.

Definition set_payload (p : bytes) (m : Mmtp) : Mmtp :=
  {| extensionHeaderScrambling := extensionHeaderScrambling m;
     packetId := packetId m;
     packetSequenceNumber := packetSequenceNumber m;
     payload := p |}.

End Mmtp.
Import Mmtp.

Module AcasHandler.

Import AcasCard.

Section WithCard.

Context {card : Type} `{ISmartCard card}.

Variable masterKey : bytes.

(** The members of the object ([acasHandler.h] is not among the sources, so
    their initial values are whatever a state holds).  [aesKey] is the key
    loaded in the accelerated cipher [aes]; [keyPublished] is ghost: it
    records that the worker has stored a pair in [key]. *)
Record state := {
  acasCard : @AcasCard.env card;
  lastEcm : bytes;
  queue : list bytes;
  ecmReady : bool;
  lastPayloadKeyType : EncryptionFlag;
  key : DecryptionKey;
  hasAESNI : bool;
  lastKey : bytes;
  aesKey : bytes;
  keyPublished : bool
}.

(** [bool AcasHandler::onEcm(const std::vector<uint8_t>& ecm)]. *)
Definition onEcm (ecm : bytes) (h : state) : bool * state :=
  if Bytes.eqb (lastEcm h) ecm then (true, h)
  else
    (true,
     {| acasCard := acasCard h;
        lastEcm := ecm;
        queue := queue h ++ [ecm];
        ecmReady := true;
        lastPayloadKeyType := lastPayloadKeyType h;
        key := key h;
        hasAESNI := hasAESNI h;
        lastKey := lastKey h;
        aesKey := aesKey h;
        keyPublished := keyPublished h |}).

(** One turn of the loop of [AcasHandler::worker] with [running] set, from
    the wake-up on a non-empty queue to [notify_all]: the front ECM goes to
    the card, the pair is stored on success, the ECM is popped.  The turn is
    taken as one step: between its locks the other threads only push at the
    back of the queue.  On an empty queue the worker stays blocked. *)
Definition worker_turn (h : state) : outcome state :=
  match queue h with
  | [] => Ret h
  | ecmData :: rest =>
      let '(r, c) := AcasCard.ecm masterKey ecmData (acasCard h) in
      let finish (k : DecryptionKey) (p : bool) :=
        Ret {| acasCard := c;
               lastEcm := lastEcm h;
               queue := rest;
               ecmReady := ecmReady h;
               lastPayloadKeyType := lastPayloadKeyType h;
               key := k;
               hasAESNI := hasAESNI h;
               lastKey := lastKey h;
               aesKey := aesKey h;
               keyPublished := p |} in
      match r with
      | Ret (Some k) => finish k true
      | Ret None => finish (key h) (keyPublished h)
      | Throw => Throw
      | Undefined => Undefined
      | Exhausted => Exhausted
      end
  end.

(** [queueCv.wait_for(lock, timeout, [&] { return queue.empty(); })] as the
    caller sees it: the predicate is tested on entry and after each
    notification; [notified] gives, for the turns the worker completes from
    now on, the time in milliseconds after the call at which each one
    notifies.  The call returns [true] as soon as the queue is empty, and
    [false] when the next notification would come after the deadline (or
    never). *)
Fixpoint wait_for_empty (timeout : Z) (notified : list Z) (h : state)
  : outcome bool * state :=
  match queue h with
  | [] => (Ret true, h)
  | _ :: _ =>
      match notified with
      | [] => (Ret false, h)
      | t :: later =>
          if t <=? timeout then
            match worker_turn h with
            | Ret h' => wait_for_empty timeout later h'
            | Throw => (Throw, h)
            | Undefined => (Undefined, h)
            | Exhausted => (Exhausted, h)
            end
          else (Ret false, h)
      end
  end.

Definition set_lastPayloadKeyType (f : EncryptionFlag) (h : state) : state :=
  {| acasCard := acasCard h;
     lastEcm := lastEcm h;
     queue := queue h;
     ecmReady := ecmReady h;
     lastPayloadKeyType := f;
     key := key h;
     hasAESNI := hasAESNI h;
     lastKey := lastKey h;
     aesKey := aesKey h;
     keyPublished := keyPublished h |}.

(** [std::chrono::seconds(10)], in milliseconds. *)
Definition flip_timeout : Z := 10 * 1000.

(** [std::optional<std::array<uint8_t, 16>>
     AcasHandler::getDecryptionKey(MmtTlv::EncryptionFlag keyType)]. *)
Definition getDecryptionKey (keyType : EncryptionFlag) (notified : list Z)
  (h : state) : outcome (option bytes) * state :=
  if negb (ecmReady h) then (Ret None, h) else
  let '(ready, h1) :=
    if negb (flag_eqb (lastPayloadKeyType h) keyType)
    then wait_for_empty flip_timeout notified h
    else (Ret true, h) in
  match ready with
  | Ret false => (Ret None, h1)
  | Ret true =>
      let h2 := set_lastPayloadKeyType keyType h1 in
      (Ret (Some (match keyType with
                  | EVEN => even (key h2)
                  | _ => odd (key h2)
                  end)), h2)
  | Throw => (Throw, h1)
  | Undefined => (Undefined, h1)
  | Exhausted => (Exhausted, h1)
  end.

(** The key is loaded in [aes] and remembered in [lastKey]. *)
Definition load_key (k : bytes) (h : state) : state :=
  {| acasCard := acasCard h;
     lastEcm := lastEcm h;
     queue := queue h;
     ecmReady := ecmReady h;
     lastPayloadKeyType := lastPayloadKeyType h;
     key := key h;
     hasAESNI := hasAESNI h;
     lastKey := k;
     aesKey := k;
     keyPublished := keyPublished h |}.

(** The IV: the packet id and the sequence number, byte-swapped and copied
    (on a little-endian host: big-endian), then ten zero bytes. *)
Definition make_iv (mmtp : Mmtp) : bytes :=
  be_bytes 2 (packetId mmtp) ++ be_bytes 4 (packetSequenceNumber mmtp) ++
  repeat 0 10.

(** [bool AcasHandler::decrypt(MmtTlv::Mmtp& mmtp)]: the value returned and
    the packet as the call leaves it.  The payload is addressed from its
    ninth byte on, so it must hold eight bytes. *)
Definition decrypt (mmtp : Mmtp) (notified : list Z) (h : state)
  : outcome (bool * Mmtp) * state :=
  match extensionHeaderScrambling mmtp with
  | None => (Undefined, h)
  | Some ext =>
      let '(k, h1) := getDecryptionKey (encryptionFlag ext) notified h in
      match k with
      | Ret None => (Ret (false, mmtp), h1)
      | Ret (Some key) =>
          let iv := make_iv mmtp in
          if (length (payload mmtp) <? 8)%nat then (Undefined, h1) else
          let header := firstn 8 (payload mmtp) in
          let body := skipn 8 (payload mmtp) in
          if hasAESNI h1 then
            let h2 := if negb (Bytes.eqb (lastKey h1) key)
                      then load_key key h1 else h1 in
            (Ret (true,
                  set_payload (header ++ AES.ctr_xcrypt (aesKey h2) iv body) mmtp),
             h2)
          else
            (Ret (true, set_payload (header ++ AES.ctr_xcrypt key iv body) mmtp),
             h1)
      | Throw => (Throw, h1)
      | Undefined => (Undefined, h1)
      | Exhausted => (Exhausted, h1)
      end
  end.

(** A handler as its constructor leaves it and after [setSmartCard]: no ECM
    seen, nothing queued, nothing published; the members the header
    initialises are arguments. *)
Definition new_handler (c : @AcasCard.env card) (flag0 : EncryptionFlag)
  (key0 : DecryptionKey) (aesni : bool) : state :=
  {| acasCard := c;
     lastEcm := [];
     queue := [];
     ecmReady := false;
     lastPayloadKeyType := flag0;
     key := key0;
     hasAESNI := aesni;
     lastKey := repeat 0 16;
     aesKey := repeat 0 16;
     keyPublished := false |}.

(** [void AcasHandler::setSmartCard(std::unique_ptr<ISmartCard> sc)]. *)
Definition setSmartCard (sc : option card) (h : state) : state :=
  {| acasCard := AcasCard.setSmartCard sc (acasCard h);
     lastEcm := lastEcm h;
     queue := queue h;
     ecmReady := ecmReady h;
     lastPayloadKeyType := lastPayloadKeyType h;
     key := key h;
     hasAESNI := hasAESNI h;
     lastKey := lastKey h;
     aesKey := aesKey h;
     keyPublished := keyPublished h |}.

End WithCard.

End AcasHandler.

(** ** IOThread *)

Module IOThread.

Local Open Scope N_scope.

Definition NUM_BUFFERS : nat := 3.
Definition SPILL_OVER_AREA_SIZE : N := 1024 * 1024.
Definition NEW_DATA_AREA_SIZE : N := 1024 * 1024 * 16.
Definition BUFFER_SIZE : N := SPILL_OVER_AREA_SIZE + NEW_DATA_AREA_SIZE.

(** A [std::vector<uint8_t>] of a fixed size, by index (the buffers hold
    17 MiB each, so their content is kept as a function). *)
Record vector := { size : N; byte_at : N -> Z }.

Definition zeros (n : N) : vector := {| size := n; byte_at := fun _ => 0%Z |}.

Definition indices (off len : N) : list N :=
  map (fun i => off + N.of_nat i) (seq 0 (N.to_nat len)).

(** The [len] bytes from [off] on; [None] when they are not all inside. *)
Definition read (v : vector) (off len : N) : option bytes :=
  if off + len <=? size v then Some (map (byte_at v) (indices off len)) else None.

(** [src] stored from [off] on; [None] when it does not fit. *)
Definition write (v : vector) (off : N) (src : bytes) : option vector :=
  let len := N.of_nat (length src) in
  if off + len <=? size v then
    Some {| size := size v;
            byte_at := fun i => if (off <=? i) && (i <? off + len)
                           then nth (N.to_nat (i - off)) src 0%Z
                           else byte_at v i |}
  else None.

(** The buffers live in a store, by number; a [std::unique_ptr] to one is
    its number ([None] for null), and a [BufferView] is a buffer, an offset
    and a length. *)
Definition store := nat -> vector.

Definition upd (h : store) (b : nat) (v : vector) : store :=
  fun b' => if (b' =? b)%nat then v else h b'.

Record BufferView := { vbuf : nat; voff : N; vlen : N }.

Definition empty_view : BufferView := {| vbuf := 0; voff := 0; vlen := 0 |}.

Record FilledBuffer := { buffer : option nat; view : BufferView }.

(** The [buffer] member of [ProcessedBuffer] is [returned] here. *)
Record ProcessedBuffer := { returned : option nat; remaining_view : BufferView }.

(** The input: a [std::istream] over a finite byte string, free of I/O
    errors.  [eofbit] is set by the read that finds fewer bytes than asked
    for, and a stream with [eofbit] set yields nothing. *)
Record istream := { pending : bytes; eofbit : bool }.

Fixpoint take (n : N) (l : bytes) : bytes :=
  match l with
  | [] => []
  | x :: l' => if n =? 0 then [] else x :: take (N.pred n) l'
  end.

(** [read(p, n)] then [gcount()]: the bytes extracted, and the stream. *)
Definition stream_read (n : N) (s : istream) : bytes * istream :=
  if eofbit s then ([], s)
  else
    let d := take n (pending s) in
    (d, {| pending := skipn (length d) (pending s);
           eofbit := N.of_nat (length d) <? n |}).

Record state := {
  heap : store;
  m_inputStream : istream;
  m_freeBuffersQueue : list nat;
  m_filledBuffersQueue : list FilledBuffer;
  m_processedBuffersQueue : list ProcessedBuffer
}.

Inductive result (A : Type) :=
| Ok (a : A)
| BadRead      (** a view that does not lie inside its buffer is read *)
| BadWrite     (** bytes are stored past the end of a buffer *)
| WouldBlock   (** a queue is popped that nothing will fill *)
| OutOfFuel.   (** the model ran out of fuel (no behaviour of the code) *)
Arguments Ok {A} a.
Arguments BadRead {A}.
Arguments BadWrite {A}.
Arguments WouldBlock {A}.
Arguments OutOfFuel {A}.

(** Step 4 of the loop: how many bytes of the report's view are copied. *)
Definition remainingSize (rv : BufferView) : N :=
  if vlen rv =? 0 then 0
  else if SPILL_OVER_AREA_SIZE <? vlen rv then SPILL_OVER_AREA_SIZE
  else vlen rv.

Inductive loop_exit := Continue | Break.

(** One turn of the loop of [IOThread::threadFunc], the stop flag clear. *)
Definition threadFunc_turn (t : state) : result (loop_exit * state) :=
  match m_freeBuffersQueue t with
  | [] => WouldBlock
  | workBuffer :: free1 =>
      match m_processedBuffersQueue t with
      | [] => WouldBlock
      | processed_report :: processed1 =>
          let free2 := match returned processed_report with
                       | Some b => free1 ++ [b]
                       | None => free1
                       end in
          let rv := remaining_view processed_report in
          let n := remainingSize rv in
          match (if vlen rv =? 0 then Some []
                 else read (heap t (vbuf rv)) (voff rv) n) with
          | None => BadRead
          | Some leftover =>
              match write (heap t workBuffer) 0 leftover with
              | None => BadWrite
              | Some w1 =>
                  let '(fresh, stream1) :=
                    stream_read NEW_DATA_AREA_SIZE (m_inputStream t) in
                  match write w1 n fresh with
                  | None => BadWrite
                  | Some w2 =>
                      let bytesRead := N.of_nat (length fresh) in
                      let heap2 := upd (heap t) workBuffer w2 in
                      if (bytesRead =? 0) && eofbit stream1 then
                        Ok (Break,
                            {| heap := heap2;
                               m_inputStream := stream1;
                               m_freeBuffersQueue := free2;
                               m_filledBuffersQueue :=
                                 m_filledBuffersQueue t ++
                                 [{| buffer := None; view := empty_view |}];
                               m_processedBuffersQueue := processed1 |})
                      else
                        Ok (Continue,
                            {| heap := heap2;
                               m_inputStream := stream1;
                               m_freeBuffersQueue := free2;
                               m_filledBuffersQueue :=
                                 m_filledBuffersQueue t ++
                                 [{| buffer := Some workBuffer;
                                     view := {| vbuf := workBuffer; voff := 0;
                                                vlen := n + bytesRead |} |}];
                               m_processedBuffersQueue := processed1 |})
                  end
              end
          end
      end
  end.

(** *** The consumer *)

Section Consumer.

(** Modelled from the spec: the consumer is not among the sources.  By the
    contract of section 4.5 it parses from the view and returns the buffer
    with a [remaining_view] into that same buffer, the suffix it could not
    parse.  A consumer is a state and a function that tells, for the bytes
    of a view, how many of them it parses. *)
Variable S : Type.
Variable consume : S -> bytes -> S * N.

(** What one turn of the consumer yields: its new state, the bytes it was
    shown and the prefix of them it parsed; [None] on the EOF sentinel. *)
Definition consumer_turn (cs : S) (t : state)
  : result (option (S * bytes * bytes) * state) :=
  match m_filledBuffersQueue t with
  | [] => WouldBlock
  | filled :: rest =>
      match buffer filled with
      | None =>
          Ok (None,
              {| heap := heap t;
                 m_inputStream := m_inputStream t;
                 m_freeBuffersQueue := m_freeBuffersQueue t;
                 m_filledBuffersQueue := rest;
                 m_processedBuffersQueue := m_processedBuffersQueue t |})
      | Some b =>
          let v := view filled in
          match read (heap t (vbuf v)) (voff v) (vlen v) with
          | None => BadRead
          | Some shown =>
              let '(cs', k0) := consume cs shown in
              let k := N.min k0 (vlen v) in
              let report :=
                {| returned := Some b;
                   remaining_view := {| vbuf := vbuf v; voff := voff v + k;
                                        vlen := vlen v - k |} |} in
              Ok (Some (cs', shown, firstn (N.to_nat k) shown),
                  {| heap := heap t;
                     m_inputStream := m_inputStream t;
                     m_freeBuffersQueue := m_freeBuffersQueue t;
                     m_filledBuffersQueue := rest;
                     m_processedBuffersQueue :=
                       m_processedBuffersQueue t ++ [report] |})
          end
      end
  end.

(** The two threads in lock step, as the queues make them run: a turn of
    the producer, then a turn of the consumer, until the consumer meets the
    sentinel.  The result lists, turn by turn, the bytes shown to the
    consumer and the prefix it parsed. *)
Fixpoint pipeline (fuel : nat) (cs : S) (t : state)
  (log : list (bytes * bytes)) : result (list (bytes * bytes)) :=
  match fuel with
  | O => OutOfFuel
  | Datatypes.S fuel' =>
      match threadFunc_turn t with
      | Ok (exit, t1) =>
          match consumer_turn cs t1 with
          | Ok (None, _) => Ok log
          | Ok (Some (cs', shown, parsed), t2) =>
              match exit with
              | Continue => pipeline fuel' cs' t2 (log ++ [(shown, parsed)])
              | Break => WouldBlock
              end
          | BadRead => BadRead
          | BadWrite => BadWrite
          | WouldBlock => WouldBlock
          | OutOfFuel => OutOfFuel
          end
      | BadRead => BadRead
      | BadWrite => BadWrite
      | WouldBlock => WouldBlock
      | OutOfFuel => OutOfFuel
      end
  end.

End Consumer.

(** The object as its constructor leaves it, with the empty report the
    consumer sends first. *)
Definition start (input : bytes) : state :=
  {| heap := fun _ => zeros BUFFER_SIZE;
     m_inputStream := {| pending := input; eofbit := false |};
     m_freeBuffersQueue := seq 0 NUM_BUFFERS;
     m_filledBuffersQueue := [];
     m_processedBuffersQueue :=
       [{| returned := None; remaining_view := empty_view |}] |}.

(** A whole run over [input]. *)
Definition run {S : Type} (consume : S -> bytes -> S * N) (cs : S)
  (input : bytes) : result (list (bytes * bytes)) :=
  pipeline S consume (Datatypes.S (length input)) cs (start input) [].

(** The prefixes the consumer parsed, in order, and what it left of the
    last view. *)
Definition consumed (log : list (bytes * bytes)) : bytes :=
  concat (map snd log).

Definition last_leftover (log : list (bytes * bytes)) : bytes :=
  match rev log with
  | (shown, parsed) :: _ => skipn (length parsed) shown
  | [] => []
  end.

End IOThread.

(** ** The hexadecimal dumps *)

Module HexDump.

Import Ascii String.

(** The digits [std::hex] writes. *)
Definition hex_digit (d : Z) : ascii :=
  nth (Z.to_nat d) (list_ascii_of_string "0123456789abcdef") "0"%char.

(** [std::hex << std::setw(2) << std::setfill('0') << (int)b] for a
    [uint8_t b]: two digits, the high one first. *)
Definition hex_byte (b : Z) : string :=
  String (hex_digit (b / 16)) (String (hex_digit (b mod 16)) EmptyString).

(** The loop over the bytes. *)
Definition hex_bytes (data : bytes) : string :=
  fold_right (fun b out => (hex_byte b ++ out)%string) EmptyString data.

Definition endl : string := String (ascii_of_nat 10) EmptyString.

(** [static void print_hex_simple(const std::string& label,
     const uint8_t* data, size_t len)] of [acasHandler.cpp] and its twin
    [print_hex_simple_acas] of [acasCard.cpp]: what a call writes to
    [std::cout], [data] being the [len] bytes the pointer points to. *)
Definition print_hex_simple (label : string) (data : bytes) : string :=
  (label ++ ": " ++ hex_bytes data ++ endl)%string.

End HexDump.

(** * Properties *)

(** ** Byte vectors and the primitives *)

Module BytesFacts.

Lemma eqb_eq (a b : bytes) : Bytes.eqb a b = true <-> a = b.
Proof.
revert b; induction a as [|x a IH]; intros [|y b]; simpl;
  try (split; (discriminate || reflexivity)).
rewrite andb_true_iff, Z.eqb_eq, IH.
split; [intros [-> ->]; reflexivity | intros H; inversion H; auto].
Qed.

Lemma eqb_refl (a : bytes) : Bytes.eqb a a = true.
Proof. apply eqb_eq; reflexivity. Qed.

Lemma slice_Some (v : bytes) (lo hi : nat) (r : bytes) :
slice v lo hi = Some r ->
(lo <= hi <= length v)%nat /\ r = firstn (hi - lo) (skipn lo v).
Proof.
unfold slice.
destruct (lo <=? hi)%nat eqn:E1; destruct (hi <=? length v)%nat eqn:E2;
  simpl; try discriminate.
apply Nat.leb_le in E1, E2. intros H; inversion H; auto.
Qed.

Lemma slice_length (v : bytes) (lo hi : nat) (r : bytes) :
slice v lo hi = Some r -> length r = (hi - lo)%nat.
Proof.
intros H. apply slice_Some in H as [Hr ->].
rewrite length_firstn, length_skipn. lia.
Qed.

Lemma slice_None (v : bytes) (lo hi : nat) :
slice v lo hi = None <-> (hi < lo \/ length v < hi)%nat.
Proof.
unfold slice.
destruct (lo <=? hi)%nat eqn:E1; destruct (hi <=? length v)%nat eqn:E2;
  simpl; [apply Nat.leb_le in E1, E2 | apply Nat.leb_le in E1;
  apply Nat.leb_gt in E2 | apply Nat.leb_gt in E1 | apply Nat.leb_gt in E1];
  split; intros; try discriminate; try lia; auto.
Qed.

Lemma slice_from_Some (v : bytes) (lo : nat) (r : bytes) :
slice_from v lo = Some r -> (lo <= length v)%nat /\ r = skipn lo v.
Proof.
unfold slice_from. destruct (lo <=? length v)%nat eqn:E; try discriminate.
apply Nat.leb_le in E. intros H; inversion H; auto.
Qed.

Lemma xor_bytes_length (a b : bytes) :
length (xor_bytes a b) = Nat.min (length a) (length b).
Proof.
revert b; induction a as [|x a IH]; intros [|y b]; simpl; auto.
Qed.

Lemma be_bytes_length (n : nat) (x : Z) : length (be_bytes n x) = n.
Proof. induction n; simpl; auto. Qed.


Lemma firstn_16_halves (v : bytes) :
  length v = 32%nat -> firstn 16 v ++ firstn 16 (skipn 16 v) = v.
Proof.
  intros Hl. rewrite <- (firstn_skipn 16 v) at 3. f_equal.
  apply firstn_all2. rewrite length_skipn. lia.
Qed.

End BytesFacts.
Import BytesFacts.

(** Known answers: FIPS 180-4 ("abc"), FIPS 197 appendix C.1 and the
    first two blocks of the CTR example of SP 800-38A. *)
Example sha256_abc :
  SHA256.hash [97; 98; 99] =
  be_bytes 32 0xba7816bf8f01cfea414140de5dae2223b00361a396177a9cb410ff61f20015ad.
Proof. vm_compute. reflexivity. Qed.

Example aes128_fips197 :
  AES.encrypt_block (be_bytes 16 0x000102030405060708090a0b0c0d0e0f)
                    (be_bytes 16 0x00112233445566778899aabbccddeeff) =
  be_bytes 16 0x69c4e0d86a7b0430d8cdb78070b4c55a.
Proof. vm_compute. reflexivity. Qed.

Example aes128_ctr_sp800_38a :
  AES.ctr_xcrypt (be_bytes 16 0x2b7e151628aed2a6abf7158809cf4f3c)
                 (be_bytes 16 0xf0f1f2f3f4f5f6f7f8f9fafbfcfdfeff)
                 (be_bytes 32 0x6bc1bee22e409f96e93d7e117393172aae2d8a571e03ac9c9eb76fac45af8e51) =
  be_bytes 32 0x874d6191b620e3261bef6864990db6ce9806f66b7970fdff8617187bb9fffdff.
Proof. vm_compute. reflexivity. Qed.


Module SHA256Facts.

Lemma round_length (st : list Z) (kw : Z * Z) :
  length (SHA256.round st kw) = length st.
Proof.
  unfold SHA256.round.
  do 9 (destruct st as [|? st]; try reflexivity).
Qed.

Lemma rounds_length (kws : list (Z * Z)) (st : list Z) :
  length (fold_left SHA256.round kws st) = length st.
Proof.
  revert st; induction kws as [|kw kws IH]; intros st; simpl; auto.
  rewrite IH. apply round_length.
Qed.

Lemma compress_length (hs : list Z) (block : bytes) :
  length (SHA256.compress hs block) = length hs.
Proof.
  unfold SHA256.compress.
  rewrite length_map, length_combine, rounds_length. apply Nat.min_id.
Qed.

Lemma blocks_length (blocks : list bytes) (hs : list Z) :
  length (fold_left SHA256.compress blocks hs) = length hs.
Proof.
  revert hs; induction blocks as [|b blocks IH]; intros hs; simpl; auto.
  rewrite IH. apply compress_length.
Qed.

Lemma words_length (ws : list Z) :
  length (flat_map (be_bytes 4) ws) = (4 * length ws)%nat.
Proof.
  induction ws as [|x ws IH]; [reflexivity|].
  cbn [flat_map]. rewrite length_app, be_bytes_length, IH. simpl; lia.
Qed.

(** A digest holds 32 bytes: [sha256_t] is [std::array<uint8_t, 32>]. *)
Lemma hash_length (msg : bytes) : length (SHA256.hash msg) = 32%nat.
Proof.
  unfold SHA256.hash. rewrite words_length, blocks_length. reflexivity.
Qed.

End SHA256Facts.
Import SHA256Facts.

(** ** AcasCard *)

Module AcasCardFacts.

Import AcasCard.

Ltac inv H := inversion H; subst; clear H.

Section WithCard.

Context {card : Type} `{ISmartCard card}.

Variable masterKey : bytes.

Local Abbreviation env := (@AcasCard.env card).


(** A step from [s] to [s'] that adds [new] to the trace, leaves the random
    source alone and keeps the port. *)
Definition grows (s s' : env) (new : list event) : Prop :=
  trace s' = trace s ++ new /\
  random s' = random s /\
  (smartCard s = None <-> smartCard s' = None).

Lemma grows_refl (s : env) : grows s s [].
Proof. unfold grows. rewrite app_nil_r. tauto. Qed.

Lemma grows_trans (s1 s2 s3 : env) (l1 l2 : list event) :
  grows s1 s2 l1 -> grows s2 s3 l2 -> grows s1 s3 (l1 ++ l2).
Proof.
  unfold grows. intros (-> & -> & E1) (-> & -> & E2).
  rewrite app_assoc. tauto.
Qed.

Lemma query_inv {A} (f : card -> A) (s s' : env) (r : outcome A) :
  query f s = (r, s') ->
  s' = s /\ ((smartCard s = None /\ r = Undefined) \/
             exists c, smartCard s = Some c /\ r = Ret (f c)).
Proof.
  unfold query. destruct (smartCard s) as [c|] eqn:E; intros Q; inv Q; eauto.
Qed.

Lemma call_inv {A} (f : card -> option A * card) (e : A -> event)
  (s s' : env) (r : outcome A) :
  call f e s = (r, s') ->
  drawn s' = drawn s /\
  ((smartCard s = None /\ r = Undefined /\ s' = s) \/
   (exists c c' a, smartCard s = Some c /\ f c = (Some a, c') /\
                   r = Ret a /\ grows s s' [e a]) \/
   (exists c, smartCard s = Some c /\ r = Throw /\ grows s s' [])).
Proof.
  unfold call, grows. destruct (smartCard s) as [c|] eqn:E.
  - destruct (f c) as [[a|] c'] eqn:F; intros Q; inv Q; simpl; split; auto.
    + right; left. exists c, c', a. intuition congruence.
    + right; right. exists c. rewrite app_nil_r. intuition congruence.
  - intros Q; inv Q. auto.
Qed.

(** The set-up steps add set-up events only, and end in [Ret], [Throw] or
    (on a null port) [Undefined]. *)
Definition setup_result (r : outcome unit) : Prop :=
  r = Ret tt \/ r = Throw \/ r = Undefined.

Ltac setup_done :=
  unfold setup_result, is_setup;
  repeat match goal with |- _ /\ _ => split end;
  auto using grows_refl; try discriminate; try congruence.

Lemma ensure_inited_inv (s s' : env) (r : outcome unit) :
  ensure_inited s = (r, s') ->
  exists new, grows s s' new /\ drawn s' = drawn s /\
              Forall is_setup new /\ setup_result r /\
              (r = Undefined -> smartCard s = None).
Proof.
  unfold ensure_inited, bind. destruct (query isInited s) as [q s1] eqn:Q.
  apply query_inv in Q as [-> [[E ->]|(c & E & ->)]].
  - intros Q; inv Q. exists []. setup_done.
  - destruct (isInited c); simpl.
    + intros Q; inv Q. exists []. setup_done.
    + intros Q.
      apply call_inv in Q
        as [D [(E' & _)|[(c0 & c' & [] & _ & _ & -> & G)|(c0 & _ & -> & G)]]];
        try congruence.
      * exists [EvInit]. setup_done.
      * exists []. setup_done.
Qed.

Lemma ensure_connected_inv (s s' : env) (r : outcome unit) :
  ensure_connected s = (r, s') ->
  exists new, grows s s' new /\ drawn s' = drawn s /\
              Forall is_setup new /\ setup_result r /\
              (r = Undefined -> smartCard s = None).
Proof.
  unfold ensure_connected, bind. destruct (query isConnected s) as [q s1] eqn:Q.
  apply query_inv in Q as [-> [[E ->]|(c & E & ->)]].
  - intros Q; inv Q. exists []. setup_done.
  - destruct (isConnected c); simpl.
    + intros Q; inv Q. exists []. setup_done.
    + intros Q.
      apply call_inv in Q
        as [D [(E' & _)|[(c0 & c' & [] & _ & _ & -> & G)|(c0 & _ & -> & G)]]];
        try congruence.
      * exists [EvConnect]. setup_done.
      * exists []. setup_done.
Qed.

(** [getA0AuthKcl] draws its nonce, sets the port up, and either stops
    there (an exception, or no port) or ends with the A0 exchange, its
    result being the verdict on the reply. *)
Lemma getA0AuthKcl_inv (s s' : env) (r : outcome (option bytes)) :
  getA0AuthKcl masterKey s = (r, s') ->
  drawn s' = (drawn s + 8)%nat /\
  exists pre,
    Forall is_setup pre /\
    ((grows s s' pre /\ (r = Throw \/ (r = Undefined /\ smartCard s = None))) \/
     (exists st resp,
        grows s s' (pre ++ [EvTransmit (a0_apdu (next_a0init s)) st resp]) /\
        smartCard s' <> None /\
        r = a0_verdict masterKey (next_a0init s) st resp)).
Proof.
  unfold getA0AuthKcl, bind, draw_bytes.
  set (sd := {| smartCard := smartCard s; random := random s;
                drawn := (drawn s + 8)%nat; trace := trace s |}).
  fold (next_a0init s).
  assert (G0 : grows s sd []) by (unfold grows; simpl; rewrite app_nil_r; tauto).
  destruct (ensure_inited sd) as [r1 s1] eqn:E1.
  apply ensure_inited_inv in E1 as (l1 & G1 & D1 & F1 & R1 & U1).
  destruct (ensure_connected s1) as [r2 s2] eqn:E2.
  apply ensure_connected_inv in E2 as (l2 & G2 & D2 & F2 & R2 & U2).
  pose proof (grows_trans _ _ _ _ _ G0 G1) as G01. simpl in G01.
  pose proof (grows_trans _ _ _ _ _ G01 G2) as G02.
  assert (F12 : Forall is_setup (l1 ++ l2)) by (apply Forall_app; auto).
  assert (N0 : smartCard sd = None -> smartCard s = None) by auto.
  assert (Dd1 : drawn s1 = (drawn s + 8)%nat) by (rewrite D1; reflexivity).
  assert (Dd2 : drawn s2 = (drawn s + 8)%nat) by (rewrite D2; exact Dd1).
  destruct R1 as [->|[->| ->]].
  - destruct R2 as [->|[->| ->]].
    + destruct (do_transmit _ s2) as [r3 s3] eqn:E3.
      apply call_inv in E3
        as [D3 [(E & -> & ->)|[(c & c' & a & E & _ & -> & G3)|(c & _ & -> & G3)]]].
      * intros Q; inv Q. split; [congruence|]. exists (l1 ++ l2). split; auto.
        left. split; auto. right. split; auto. apply N0, G02, E.
      * intros Q.
        assert (r = a0_verdict masterKey (next_a0init s) (fst a) (snd a) /\ s' = s3)
          as [-> ->].
        { revert Q. unfold a0_verdict, vec, ret.
          repeat match goal with
                 | |- context [if ?b then _ else _] => destruct b
                 | |- context [match ?o with Some _ => _ | None => _ end] =>
                     destruct o
                 end; intros Q; inv Q; auto. }
        split; [congruence|]. exists (l1 ++ l2). split; auto.
        right. exists (fst a), (snd a). split; [|split]; auto.
        { apply (grows_trans _ _ _ _ _ G02 G3). }
        { intros N. apply G3 in N. congruence. }
      * intros Q; inv Q. split; [congruence|]. exists (l1 ++ l2). split; auto.
        left. split; auto.
        rewrite <- (app_nil_r (l1 ++ l2)). apply (grows_trans _ _ _ _ _ G02 G3).
    + intros Q; inv Q. split; [congruence|]. exists (l1 ++ l2). auto.
    + intros Q; inv Q. split; [congruence|]. exists (l1 ++ l2). split; auto.
      left. split; auto. right. split; auto. apply N0, G01, U2; auto.
  - intros Q; inv Q. split; [congruence|]. exists l1. auto.
  - intros Q; inv Q. split; [congruence|]. exists l1. split; auto.
    left. split; auto.
Qed.

(** The events of the transaction of one pass and how the pass ends: the
    A0 exchange did not take place; it failed; it ran into undefined
    behaviour; it succeeded and the 34 command threw; or both took place. *)
Inductive transaction_shape (ecm : bytes) (retryCount : Z)
  : list event -> outcome pass_exit -> Prop :=
| TsNoExchange pre r :
    Forall is_setup pre -> r = Throw \/ r = Undefined ->
    transaction_shape ecm retryCount pre r
| TsA0 pre a0init st resp r :
    Forall is_setup pre ->
    match a0_verdict masterKey a0init st resp with
    | Ret None => r = Ret (retry_or_fail retryCount)
    | Ret (Some _) => r = Throw
    | _ => r = Undefined
    end ->
    transaction_shape ecm retryCount
      (pre ++ [EvTransmit (a0_apdu a0init) st resp]) r
| TsBoth pre a0init st resp kcl st2 resp2 :
    Forall is_setup pre ->
    a0_verdict masterKey a0init st resp = Ret (Some kcl) ->
    transaction_shape ecm retryCount
      (pre ++ [EvTransmit (a0_apdu a0init) st resp;
               EvTransmit (ecm_apdu ecm) st2 resp2])
      (ecm_verdict kcl ecm retryCount st2 resp2).

Lemma a0_verdict_cases (a0init : bytes) (st : Z) (resp : ApduResponse) :
  a0_verdict masterKey a0init st resp = Undefined \/
  exists o, a0_verdict masterKey a0init st resp = Ret o.
Proof.
  unfold a0_verdict.
  repeat match goal with
         | |- context [if ?b then _ else _] => destruct b
         | |- context [match ?o with Some _ => _ | None => _ end] => destruct o
         end; eauto.
Qed.

Lemma ecm_transaction_inv (ecm : bytes) (rc : Z) (s s' : env)
  (r : outcome pass_exit) :
  ecm_transaction masterKey ecm rc s = (r, s') ->
  exists new, grows s s' new /\ transaction_shape ecm rc new r.
Proof.
  unfold ecm_transaction, bind.
  destruct (getA0AuthKcl masterKey s) as [r0 s0] eqn:E0.
  apply getA0AuthKcl_inv in E0
    as (D0 & pre & F0 & [(G0 & R0)|(st & resp & G0 & N0 & ->)]).
  - destruct R0 as [->|[-> _]]; intros Q; inv Q;
      exists pre; split; auto; constructor; auto.
  - destruct (a0_verdict_cases (next_a0init s) st resp) as [V|([kcl|] & V)];
      rewrite V.
    + intros Q; inv Q. eexists; split; [exact G0|].
      apply TsA0; auto. rewrite V; reflexivity.
    + destruct (do_transmit _ s0) as [r3 s3] eqn:E3.
      apply call_inv in E3
        as [D3 [(E & -> & ->)|[(c & c' & a & _ & _ & -> & G3)|(c & _ & -> & G3)]]].
      * congruence.
      * intros Q.
        assert (r = ecm_verdict kcl ecm rc (fst a) (snd a) /\ s' = s3)
          as [-> ->].
        { revert Q. unfold ecm_verdict, vec, ret.
          repeat match goal with
                 | |- context [if ?b then _ else _] => destruct b
                 | |- context [match ?o with Some _ => _ | None => _ end] =>
                     destruct o
                 end; intros Q; inv Q; auto. }
        eexists; split; [exact (grows_trans _ _ _ _ _ G0 G3)|].
        rewrite <- app_assoc. simpl. apply TsBoth; auto.
      * intros Q; inv Q.
        pose proof (grows_trans _ _ _ _ _ G0 G3) as G. rewrite app_nil_r in G.
        eexists; split; [exact G|].
        apply TsA0; auto. rewrite V; reflexivity.
    + intros Q; inv Q. eexists; split; [exact G0|].
      apply TsA0; auto. rewrite V; reflexivity.
Qed.

(** The events of one pass and how it ends: the set-up or the opening of
    the transaction failed, or the transaction ran between [EvBegin] and
    [EvEnd]. *)
Inductive pass_shape (ecm : bytes) (retryCount : Z)
  : list event -> outcome pass_exit -> Prop :=
| PsSetup pre r :
    Forall is_setup pre -> r = Throw \/ r = Undefined ->
    pass_shape ecm retryCount pre r
| PsTransaction pre body r :
    Forall is_setup pre ->
    transaction_shape ecm retryCount body r ->
    pass_shape ecm retryCount (pre ++ EvBegin :: body ++ [EvEnd]) r.

Lemma pass_inv (ecm : bytes) (rc : Z) (s s' : env) (r : outcome pass_exit) :
  pass masterKey ecm rc s = (r, s') ->
  exists new, grows s s' new /\ pass_shape ecm rc new r.
Proof.
  unfold pass, bind.
  destruct (ensure_inited s) as [r1 s1] eqn:E1.
  apply ensure_inited_inv in E1 as (l1 & G1 & D1 & F1 & R1 & U1).
  destruct (ensure_connected s1) as [r2 s2] eqn:E2.
  apply ensure_connected_inv in E2 as (l2 & G2 & D2 & F2 & R2 & U2).
  pose proof (grows_trans _ _ _ _ _ G1 G2) as G12.
  assert (F12 : Forall is_setup (l1 ++ l2)) by (apply Forall_app; auto).
  destruct R1 as [->|[->| ->]];
    [|intros Q; inv Q; exists l1; split; auto; constructor; auto..].
  destruct R2 as [->|[->| ->]];
    [|intros Q; inv Q; exists (l1 ++ l2); split; auto; constructor; auto..].
  unfold scoped.
  destruct (call scopedTransaction _ s2) as [r3 s3] eqn:E3.
  apply call_inv in E3
    as [D3 [(E & -> & ->)|[(c & c' & a & Ec & _ & -> & G3)|(c & _ & -> & G3)]]].
  - intros Q; inv Q. exists (l1 ++ l2); split; auto. constructor; auto.
  - destruct (ecm_transaction masterKey ecm rc s3) as [r4 s4] eqn:E4.
    apply ecm_transaction_inv in E4 as (body & G4 & T4).
    intros Q; inv Q.
    exists ((l1 ++ l2) ++ EvBegin :: body ++ [EvEnd]). split.
    + apply (grows_trans _ _ _ _ _ G12).
      change (EvBegin :: body ++ [EvEnd]) with ([EvBegin] ++ body ++ [EvEnd]).
      apply (grows_trans _ _ _ _ _ G3).
      apply (grows_trans _ _ _ _ _ G4).
      destruct (smartCard s4) as [c4|] eqn:E4.
      * unfold grows; simpl. rewrite E4. intuition congruence.
      * exfalso. apply G4, G3 in E4. congruence.
    + apply PsTransaction; auto.
  - intros Q; inv Q. pose proof (grows_trans _ _ _ _ _ G12 G3) as G.
    rewrite app_nil_r in G. exists (l1 ++ l2); split; auto. constructor; auto.
Qed.

(** The events of the whole loop and its result: passes that end in
    [goto retry], then one that returns, throws or is undefined. *)
Inductive run_shape (ecm : bytes)
  : Z -> list event -> outcome (option DecryptionKey) -> Prop :=
| RsReturn rc new r :
    pass_shape ecm rc new (Ret (Return r)) -> run_shape ecm rc new (Ret r)
| RsThrow rc new :
    pass_shape ecm rc new Throw -> run_shape ecm rc new Throw
| RsUndefined rc new :
    pass_shape ecm rc new Undefined -> run_shape ecm rc new Undefined
| RsRetry rc rc' new new' r :
    pass_shape ecm rc new (Ret (GotoRetry rc')) ->
    run_shape ecm rc' new' r ->
    run_shape ecm rc (new ++ new') r.

(** The loop, one pass unfolded. *)
Lemma ecm_retry_unfold (fuel : nat) (ecm : bytes) (rc : Z) (s : env) :
  ecm_retry masterKey (S fuel) ecm rc s =
  match pass masterKey ecm rc s with
  | (Ret (Return r), s1) => (Ret r, s1)
  | (Ret (GotoRetry rc'), s1) => ecm_retry masterKey fuel ecm rc' s1
  | (Throw, s1) => (Throw, s1)
  | (Undefined, s1) => (Undefined, s1)
  | (Exhausted, s1) => (Exhausted, s1)
  end.
Proof.
  simpl. unfold pass, bind.
  destruct (ensure_inited s) as [[] s1]; auto.
  destruct (ensure_connected s1) as [[] s2]; auto.
  destruct (scoped _ s2) as [[[]| | |] s3]; auto.
Qed.

Lemma ecm_verdict_cases (kcl ecm : bytes) (rc st : Z) (resp : ApduResponse) :
  ecm_verdict kcl ecm rc st resp = Undefined \/
  exists x, ecm_verdict kcl ecm rc st resp = Ret x.
Proof.
  unfold ecm_verdict.
  repeat match goal with
         | |- context [if ?b then _ else _] => destruct b
         | |- context [match ?o with Some _ => _ | None => _ end] => destruct o
         end; eauto.
Qed.

Lemma retry_or_fail_goto (rc rc' : Z) :
  retry_or_fail rc = GotoRetry rc' -> rc <= 1 /\ rc' = (rc + 1) mod 2 ^ 32.
Proof.
  unfold retry_or_fail. destruct (rc >? 1) eqn:E; intros Q; inv Q.
  split; auto. rewrite Z.gtb_ltb in E. apply Z.ltb_ge in E. exact E.
Qed.


(** The two things that send a transaction back to [retry:]. *)
Lemma transaction_goto (ecm : bytes) (rc rc' : Z) (body : list event) :
  transaction_shape ecm rc body (Ret (GotoRetry rc')) ->
  retry_or_fail rc = GotoRetry rc' /\
  exists pre a0init st resp,
    Forall is_setup pre /\
    ((body = pre ++ [EvTransmit (a0_apdu a0init) st resp] /\
      a0_verdict masterKey a0init st resp = Ret None) \/
     (exists kcl st2 resp2,
        body = pre ++ [EvTransmit (a0_apdu a0init) st resp;
                       EvTransmit (ecm_apdu ecm) st2 resp2] /\
        a0_verdict masterKey a0init st resp = Ret (Some kcl) /\
        (st2 = SCARD_W_RESET_CARD \/ st2 = SCARD_E_INVALID_HANDLE))).
Proof.
  intros T. inversion T as [pre r F [R|R]|pre a0init st resp r F V|
                            pre a0init st resp kcl st2 resp2 F V]; subst;
    try discriminate.
  - destruct (a0_verdict masterKey a0init st resp) as [[k|]| | |] eqn:E;
      try discriminate.
    inv V. split; auto. exists pre, a0init, st, resp. auto.
  - revert H1. unfold ecm_verdict.
    destruct (st2 =? SCARD_S_SUCCESS) eqn:E1; simpl.
    + repeat match goal with
             | |- context [if ?b then _ else _] => destruct b
             | |- context [match ?o with Some _ => _ | None => _ end] =>
                 destruct o
             end; discriminate.
    + destruct (st2 =? SCARD_W_RESET_CARD) eqn:E2;
        [|destruct (st2 =? SCARD_E_INVALID_HANDLE) eqn:E3]; simpl;
        intros Q; inv Q.
      * split; auto. exists pre, a0init, st, resp. split; auto.
        right. exists kcl, st2, resp2. apply Z.eqb_eq in E2. auto.
      * split; auto. exists pre, a0init, st, resp. split; auto.
        right. exists kcl, st2, resp2. apply Z.eqb_eq in E3. auto.
Qed.

Lemma transaction_not_exhausted (ecm : bytes) (rc : Z) (body : list event) :
  ~ transaction_shape ecm rc body Exhausted.
Proof.
  intros T. inversion T as [pre r F [R|R]|pre a0init st resp r F V|
                            pre a0init st resp kcl st2 resp2 F V]; subst;
    try discriminate.
  - destruct (a0_verdict masterKey a0init st resp) as [[k|]| | |];
      discriminate.
  - destruct (ecm_verdict_cases kcl ecm rc st2 resp2) as [E|[x E]]; congruence.
Qed.

Lemma pass_not_exhausted (ecm : bytes) (rc : Z) (new : list event) :
  ~ pass_shape ecm rc new Exhausted.
Proof.
  intros P. inversion P as [pre r F [R|R]|pre body r F T]; subst;
    try discriminate.
  eapply transaction_not_exhausted; eauto.
Qed.

Lemma pass_goto (ecm : bytes) (rc rc' : Z) (new : list event) :
  pass_shape ecm rc new (Ret (GotoRetry rc')) ->
  rc <= 1 /\ rc' = (rc + 1) mod 2 ^ 32 /\
  exists pre body,
    Forall is_setup pre /\ new = pre ++ EvBegin :: body ++ [EvEnd] /\
    transaction_shape ecm rc body (Ret (GotoRetry rc')).
Proof.
  intros P. inversion P as [pre r F [R|R]|pre body r F T]; subst;
    try discriminate.
  destruct (transaction_goto _ _ _ _ T) as (G & _).
  apply retry_or_fail_goto in G as [L E].
  repeat split; auto. exists pre, body. auto.
Qed.

(** Every run of the loop has the shape above, unless the fuel runs out. *)
Lemma ecm_retry_inv (fuel : nat) (ecm : bytes) (rc : Z) (s s' : env)
  (r : outcome (option DecryptionKey)) :
  ecm_retry masterKey fuel ecm rc s = (r, s') ->
  exists new, grows s s' new /\ (r = Exhausted \/ run_shape ecm rc new r).
Proof.
  revert rc s. induction fuel as [|fuel IH]; intros rc s.
  - simpl. intros Q; inv Q. exists []. auto using grows_refl.
  - rewrite ecm_retry_unfold.
    destruct (pass masterKey ecm rc s) as [x s1] eqn:P.
    apply pass_inv in P as (new & G & P).
    destruct x as [[r0|rc']| | |].
    + intros Q; inv Q. exists new. split; auto. right. constructor; auto.
    + intros Q. apply IH in Q as (new' & G' & R).
      exists (new ++ new'). split; [eapply grows_trans; eauto|].
      destruct R as [->|R]; auto. right. econstructor; eauto.
    + intros Q; inv Q. exists new. split; auto. right. constructor; auto.
    + intros Q; inv Q. exists new. split; auto. right. constructor; auto.
    + exfalso. eapply pass_not_exhausted; eauto.
Qed.




Lemma ecm_retry_total (ecm : bytes) (s : env) :
  fst (ecm_retry masterKey 3 ecm 0 s) <> Exhausted.
Proof.
  destruct (ecm_retry masterKey 3 ecm 0 s) as [r s'] eqn:E. simpl.
  intros ->. revert E.
  rewrite (ecm_retry_unfold 2).
  destruct (pass masterKey ecm 0 s) as [x s1] eqn:P1.
  apply pass_inv in P1 as (new1 & G1 & P1).
  destruct x as [[r0|rc1]| | |]; try discriminate;
    [|intros _; eapply pass_not_exhausted; eauto].
  apply pass_goto in P1 as (_ & -> & _). change ((0 + 1) mod 2 ^ 32) with 1.
  rewrite (ecm_retry_unfold 1).
  destruct (pass masterKey ecm 1 s1) as [x s2] eqn:P2.
  apply pass_inv in P2 as (new2 & G2 & P2).
  destruct x as [[r0|rc2]| | |]; try discriminate;
    [|intros _; eapply pass_not_exhausted; eauto].
  apply pass_goto in P2 as (_ & -> & _). change ((1 + 1) mod 2 ^ 32) with 2.
  rewrite (ecm_retry_unfold 0).
  destruct (pass masterKey ecm 2 s2) as [x s3] eqn:P3.
  apply pass_inv in P3 as (new3 & G3 & P3).
  destruct x as [[r0|rc3]| | |]; try discriminate;
    [|intros _; eapply pass_not_exhausted; eauto].
  apply pass_goto in P3 as (L & _). lia.
Qed.


Definition map_outcome {A B} (f : A -> B) (o : outcome A) : outcome B :=
  match o with
  | Ret a => Ret (f a)
  | Throw => Throw
  | Undefined => Undefined
  | Exhausted => Exhausted
  end.


(** *** What the verdicts say *)

Lemma equal_Some (a b : bytes) (same : bool) :
  equal a b = Some same ->
  (length a <= length b)%nat /\ (same = true <-> a = firstn (length a) b).
Proof.
  unfold equal. destruct (length a <=? length b)%nat eqn:E; try discriminate.
  apply Nat.leb_le in E. intros Q; inv Q. split; auto. apply eqb_eq.
Qed.

Lemma a0_verdict_Some (a0init : bytes) (st : Z) (resp : ApduResponse)
  (kcl : bytes) :
  a0_verdict masterKey a0init st resp = Ret (Some kcl) ->
  st = SCARD_S_SUCCESS /\ isSuccess resp = true /\
  (0x0E + 32 <= length (getData resp))%nat /\
  kcl = SHA256.hash (masterKey ++ a0init ++ firstn 8 (skipn 6 (getData resp))) /\
  SHA256.hash (kcl ++ a0init) = firstn 32 (skipn 0x0E (getData resp)).
Proof.
  unfold a0_verdict.
  destruct (st =? SCARD_S_SUCCESS) eqn:E1; try discriminate.
  destruct (isSuccess resp) eqn:E2; try discriminate. cbn [negb].
  destruct (slice _ _ _) as [a0response|] eqn:E3; try discriminate.
  destruct (slice_from _ _) as [a0hash|] eqn:E4; try discriminate.
  destruct (equal _ _) as [[|]|] eqn:E5; try discriminate.
  cbn [negb]. intros Q; inv Q.
  apply Z.eqb_eq in E1. apply slice_Some in E3 as [L3 ->].
  apply slice_from_Some in E4 as [L4 ->].
  apply equal_Some in E5 as [L5 E5]. rewrite hash_length in L5, E5.
  rewrite length_skipn in L5.
  change (6 + 8 - 6)%nat with 8%nat in *.
  repeat split; auto; try lia. apply E5; reflexivity.
Qed.

(** With a response of full length the A0 verdict is a key or a plain
    failure, and a key exactly when the tag matches. *)
Lemma a0_verdict_full (a0init : bytes) (st : Z) (resp : ApduResponse) :
  (0x0E + 32 <= length (getData resp))%nat ->
  let kcl :=
    SHA256.hash (masterKey ++ a0init ++ firstn 8 (skipn 6 (getData resp))) in
  (a0_verdict masterKey a0init st resp = Ret (Some kcl) \/
   a0_verdict masterKey a0init st resp = Ret None) /\
  (a0_verdict masterKey a0init st resp = Ret (Some kcl) <->
   st = SCARD_S_SUCCESS /\ isSuccess resp = true /\
   SHA256.hash (kcl ++ a0init) = firstn 32 (skipn 0x0E (getData resp))).
Proof.
  intros L kcl. unfold a0_verdict.
  destruct (st =? SCARD_S_SUCCESS) eqn:E1; cbn [negb].
  2:{ apply Z.eqb_neq in E1. split; auto.
      split; [discriminate|tauto]. }
  apply Z.eqb_eq in E1.
  destruct (isSuccess resp) eqn:E2; cbn [negb].
  2:{ split; auto. split; [discriminate|]. intros (_ & Q & _); discriminate. }
  unfold slice, slice_from.
  replace (6 <=? 6 + 8)%nat with true by reflexivity.
  replace (6 + 8 <=? length (getData resp))%nat with true
    by (symmetry; apply Nat.leb_le; lia).
  replace (14 <=? length (getData resp))%nat with true
    by (symmetry; apply Nat.leb_le; lia).
  cbn [andb]. change (6 + 8 - 6)%nat with 8%nat. fold kcl.
  unfold equal. rewrite hash_length.
  replace (32 <=? length (skipn 14 (getData resp)))%nat with true
    by (symmetry; apply Nat.leb_le; rewrite length_skipn; lia).
  destruct (Bytes.eqb _ _) eqn:E5; cbn [negb].
  - apply eqb_eq in E5. split; auto. tauto.
  - split; auto. split; [discriminate|]. intros (_ & _ & Q).
    apply eqb_eq in Q. congruence.
Qed.

Lemma a0_verdict_rejected (a0init : bytes) (st : Z) (resp : ApduResponse) :
  isSuccess resp = false -> a0_verdict masterKey a0init st resp = Ret None.
Proof.
  intros E. unfold a0_verdict. rewrite E.
  destruct (st =? SCARD_S_SUCCESS); reflexivity.
Qed.

(** A short A0 response that reports success runs the code past the end
    of its data. *)
Lemma a0_verdict_short (a0init : bytes) (resp : ApduResponse) :
  isSuccess resp = true ->
  (length (getData resp) < 0x0E + 32)%nat ->
  a0_verdict masterKey a0init SCARD_S_SUCCESS resp = Undefined.
Proof.
  intros E L. unfold a0_verdict. rewrite E. cbn [negb Z.eqb SCARD_S_SUCCESS].
  destruct (slice _ _ _) as [a0response|] eqn:E3; auto.
  destruct (slice_from _ _) as [a0hash|] eqn:E4; auto.
  apply slice_from_Some in E4 as [L4 ->].
  unfold equal. rewrite hash_length, length_skipn.
  replace (32 <=? length (getData resp) - 14)%nat with false; auto.
  symmetry. apply Nat.leb_gt. lia.
Qed.



(** A short 34 response that reports success does the same. *)
Lemma ecm_verdict_short (kcl ecm : bytes) (rc : Z) (resp : ApduResponse) :
  isSuccess resp = true ->
  (length (getData resp) < 0x06 + 32)%nat ->
  ecm_verdict kcl ecm rc SCARD_S_SUCCESS resp = Undefined.
Proof.
  intros E L. unfold ecm_verdict. rewrite E. cbn [negb Z.eqb SCARD_S_SUCCESS].
  destruct (slice_from _ _) as [ecmResponse|] eqn:E3; auto.
  destruct (slice _ _ _) as [ecmInit|] eqn:E4; auto.
  apply slice_from_Some in E3 as [L3 ->].
  unfold xor_in_place. rewrite hash_length, length_skipn.
  replace (32 <=? length (getData resp) - 6)%nat with false; auto.
  symmetry. apply Nat.leb_gt. lia.
Qed.

(** *** Traces *)

Lemma setup_no_transmit (l : list event) (apdu : bytes) (st : Z)
  (resp : ApduResponse) :
  Forall is_setup l -> ~ In (EvTransmit apdu st resp) l.
Proof.
  intros F I. rewrite Forall_forall in F. apply F in I as [I|I]; discriminate.
Qed.


Lemma passes_app (l1 l2 : list event) :
  passes (l1 ++ l2) = (passes l1 + passes l2)%nat.
Proof. unfold passes. rewrite filter_app, length_app. reflexivity. Qed.

Lemma a0_apdu_not_ecm (a0init ecm : bytes) : a0_apdu a0init <> ecm_apdu ecm.
Proof. unfold a0_apdu, ecm_apdu, case4short. simpl. intros Q; inv Q. Qed.

(** C1, as amended.  For every A0 exchange of [getA0AuthKcl] whose
    response carries at least 0x0E + 32 data bytes: the command sent holds
    the nonce drawn, the session key is
    kcl = SHA256(MasterKey || a0init || a0response) with a0response the data
    bytes [0x06, 0x0E), and the call returns [true] with kcl in [output]
    if and only if the transport status is success, SW1 SW2 = 0x9000 and
    SHA256(kcl || a0init) equals the first 32 bytes of the data from 0x0E
    on; otherwise it returns [false] and writes no key. *)
Theorem getA0AuthKcl_authenticates
  (s s' : env) (r : outcome (option bytes)) (pre : list event)
  (apdu : bytes) (st : Z) (resp : ApduResponse) :
  getA0AuthKcl masterKey s = (r, s') ->
  trace s' = trace s ++ pre ++ [EvTransmit apdu st resp] ->
  (0x0E + 32 <= length (getData resp))%nat ->
  let a0init := next_a0init s in
  let a0response := firstn 8 (skipn 0x06 (getData resp)) in
  let a0hash := skipn 0x0E (getData resp) in
  let kcl := SHA256.hash (masterKey ++ a0init ++ a0response) in
  apdu = a0_apdu a0init /\
  (r = Ret (Some kcl) \/ r = Ret None) /\
  (r = Ret (Some kcl) <->
   st = SCARD_S_SUCCESS /\ isSuccess resp = true /\
   SHA256.hash (kcl ++ a0init) = firstn 32 a0hash).
Proof.
  intros E T L a0init a0response a0hash kcl.
  apply getA0AuthKcl_inv in E
    as (_ & pre' & F & [((T' & _) & _)|(st' & resp' & (T' & _) & _ & ->)]).
  - exfalso. rewrite T' in T. apply app_inv_head in T. subst pre'.
    eapply setup_no_transmit; [exact F|]. apply in_app_iff. right. left.
    reflexivity.
  - rewrite T' in T. apply app_inv_head in T.
    apply app_inj_tail in T as [_ T]. inv T.
    split; auto. apply a0_verdict_full; auto.
Qed.





Lemma ecm_verdict_answered (kcl ecm : bytes) (rc rc' : Z)
  (resp : ApduResponse) :
  ecm_verdict kcl ecm rc SCARD_S_SUCCESS resp <> Ret (GotoRetry rc').
Proof.
  unfold ecm_verdict. cbn [negb Z.eqb SCARD_S_SUCCESS].
  repeat match goal with
         | |- context [if ?b then _ else _] => destruct b
         | |- context [match ?o with Some _ => _ | None => _ end] => destruct o
         end; discriminate.
Qed.

(** A pass in which the 34 command was answered ends with that answer and
    the release of the transaction, its exit being the verdict on the
    answer. *)
Lemma pass_answered (ecm : bytes) (rc : Z) (new : list event)
  (x : outcome pass_exit) (st2 : Z) (resp : ApduResponse) :
  pass_shape ecm rc new x ->
  In (EvTransmit (ecm_apdu ecm) st2 resp) new ->
  exists kcl l,
    new = l ++ [EvTransmit (ecm_apdu ecm) st2 resp; EvEnd] /\
    x = ecm_verdict kcl ecm rc st2 resp.
Proof.
  intros P I.
  inversion P as [pre r0 F R|pre body r0 F T]; subst.
  - exfalso. eapply setup_no_transmit; eauto.
  - apply in_app_iff in I as [I|[I|I]];
      [exfalso; eapply setup_no_transmit; eauto|discriminate|].
    apply in_app_iff in I as [I|[I|[]]]; [|discriminate].
    inversion T as [pre' r F' R|pre' a0init st resp' r F' V|
                    pre' a0init st resp' kcl st2' resp2 F' V]; subst.
    + exfalso. eapply setup_no_transmit; eauto.
    + exfalso. apply in_app_iff in I as [I|[I|[]]].
      * eapply setup_no_transmit; eauto.
      * apply (a0_apdu_not_ecm a0init ecm). congruence.
    + apply in_app_iff in I as [I|[I|[I|[]]]].
      * exfalso. eapply setup_no_transmit; eauto.
      * exfalso. apply (a0_apdu_not_ecm a0init ecm). congruence.
      * inv I. exists kcl.
        exists (pre ++ EvBegin :: pre' ++ [EvTransmit (a0_apdu a0init) st resp']).
        split; auto.
        repeat (rewrite <- app_assoc || rewrite <- app_comm_cons). reflexivity.
Qed.

(** An answer to the 34 command with a successful transport status ends
    the run: nothing follows it but the release of the transaction, and
    the call ends as the verdict on the answer says. *)
Lemma run_answered (ecm : bytes) (rc : Z) (new : list event)
  (r : outcome (option DecryptionKey)) (resp : ApduResponse) :
  run_shape ecm rc new r ->
  In (EvTransmit (ecm_apdu ecm) SCARD_S_SUCCESS resp) new ->
  exists kcl rc' l,
    new = l ++ [EvTransmit (ecm_apdu ecm) SCARD_S_SUCCESS resp; EvEnd] /\
    ecm_verdict kcl ecm rc' SCARD_S_SUCCESS resp = map_outcome Return r.
Proof.
  intros R I.
  induction R as [rc new r P|rc new P|rc new P|rc rc' new new' r P R IH].
  - destruct (pass_answered _ _ _ _ _ _ P I) as (kcl & l & -> & Q).
    exists kcl, rc, l. auto.
  - destruct (pass_answered _ _ _ _ _ _ P I) as (kcl & l & -> & Q).
    exists kcl, rc, l. auto.
  - destruct (pass_answered _ _ _ _ _ _ P I) as (kcl & l & -> & Q).
    exists kcl, rc, l. auto.
  - apply in_app_iff in I as [I|I].
    + destruct (pass_answered _ _ _ _ _ _ P I) as (kcl & l & _ & Q).
      symmetry in Q. apply ecm_verdict_answered in Q. contradiction.
    + destruct (IH I) as (kcl & rc0 & l & -> & Q).
      exists kcl, rc0, (new ++ l). rewrite app_assoc. auto.
Qed.

(** A call of [ecm] either finds no port, or runs the loop from a retry
    counter of 0 and turns an exception into a failure. *)
Lemma ecm_inv (ecm : bytes) (s s' : env) (r : outcome (option DecryptionKey)) :
  AcasCard.ecm masterKey ecm s = (r, s') ->
  (smartCard s = None /\ r = Ret None /\ s' = s) \/
  exists new r0,
    grows s s' new /\ run_shape ecm 0 new r0 /\
    r = match r0 with Throw => Ret None | _ => r0 end.
Proof.
  unfold AcasCard.ecm. destruct (smartCard s) as [c|] eqn:E.
  - destruct (ecm_retry masterKey 3 ecm 0 s) as [r0 s0] eqn:E0.
    pose proof (ecm_retry_total ecm s) as N. rewrite E0 in N. simpl in N.
    apply ecm_retry_inv in E0 as (new & G & [->|R]); [contradiction|].
    intros Q. right. exists new, r0.
    destruct r0; inv Q; auto.
  - intros Q; inv Q. auto.
Qed.












(** C8, on the code.  A response that reports success with fewer data
    bytes than the layout needs is not refused: the A0 path reads the
    nonce and the tag past the end of the data, the 34 path reads the
    response past its end; both are undefined behaviour. *)
Theorem short_response_undefined :
  (forall s r s' pre apdu resp,
      getA0AuthKcl masterKey s = (r, s') ->
      trace s' = trace s ++ pre ++ [EvTransmit apdu SCARD_S_SUCCESS resp] ->
      isSuccess resp = true ->
      (length (getData resp) < 0x0E + 32)%nat ->
      r = Undefined) /\
  (forall ecm s r s' new resp,
      AcasCard.ecm masterKey ecm s = (r, s') ->
      trace s' = trace s ++ new ->
      In (EvTransmit (ecm_apdu ecm) SCARD_S_SUCCESS resp) new ->
      isSuccess resp = true ->
      (length (getData resp) < 0x06 + 32)%nat ->
      r = Undefined).
Proof.
  split.
  - intros s r s' pre apdu resp E T S L.
    apply getA0AuthKcl_inv in E
      as (_ & pre' & F & [((T' & _) & _)|(st' & resp' & (T' & _) & _ & ->)]).
    + exfalso. rewrite T' in T. apply app_inv_head in T. subst pre'.
      eapply setup_no_transmit; [exact F|]. apply in_app_iff. right. left.
      reflexivity.
    + rewrite T' in T. apply app_inv_head in T.
      apply app_inj_tail in T as [_ T]. inv T.
      apply a0_verdict_short; auto.
  - intros ecm s r s' new resp E T I S L.
    apply ecm_inv in E as [(_ & _ & ->)|(new' & r0 & (T' & _) & R & ->)].
    + rewrite <- (app_nil_r (trace s)) in T at 1.
      apply app_inv_head in T. subst new. contradiction.
    + rewrite T' in T. apply app_inv_head in T. subst new'.
      destruct (run_answered _ _ _ _ _ R I) as (kcl & rc' & l & -> & V).
      rewrite ecm_verdict_short in V by assumption.
      destruct r0 as [[k|]| | |]; try discriminate. reflexivity.
Qed.

End WithCard.

End AcasCardFacts.

(** ** AcasCard against the simulated card *)

Module AcasCardScenarios.

Import AcasCard AcasCardFacts SimCard.

(** The reply of the card in the last exchange of a trace. *)
Definition last_reply (t : list event) : ApduResponse :=
  match last t EvEnd with
  | EvTransmit _ _ r => r
  | _ => {| data := []; sw1 := 0; sw2 := 0 |}
  end.

(** Scenario 1 of the spec: the A0 exchange with an honest card. *)
Local Abbreviation a0_honest :=
  (getA0AuthKcl test_key (test_env [])).

Example a0_honest_key :
  fst a0_honest =
  Ret (Some (SHA256.hash (test_key ++ map Z.of_nat (seq 1 8) ++
                          map (fun i => 0x11 + Z.of_nat i) (seq 0 8)))).
Proof. vm_compute. reflexivity. Qed.

Lemma getA0AuthKcl_authenticates_witness :
  let s := test_env [] in
  let resp := last_reply (trace (snd a0_honest)) in
  let a0init := next_a0init s in
  let kcl := SHA256.hash (test_key ++ a0init ++
                          firstn 8 (skipn 0x06 (getData resp))) in
  (fst a0_honest = Ret (Some kcl) <->
   SCARD_S_SUCCESS = SCARD_S_SUCCESS /\ isSuccess resp = true /\
   SHA256.hash (kcl ++ a0init) = firstn 32 (skipn 0x0E (getData resp))).
Proof.
  cbv zeta.
  pose proof (getA0AuthKcl_authenticates test_key (test_env [])
                (snd a0_honest) (fst a0_honest) [EvInit; EvConnect]
                (a0_apdu (next_a0init (test_env [])))
                SCARD_S_SUCCESS (last_reply (trace (snd a0_honest)))) as P.
  cbv zeta in P. apply P.
  - apply surjective_pairing.
  - vm_compute. reflexivity.
  - vm_compute. lia.
Defined.

(** C1 as stated fails on a response with one more data byte after the
    tag: the call returns [true] with the key, though the card's a0hash
    (the data bytes from 0x0E to the end, 33 of them) is not the digest. *)
Local Abbreviation a0_trailing :=
  (getA0AuthKcl test_key (test_env [Trailing [0]])).

Lemma getA0AuthKcl_accepts_longer_tag :
  let s := test_env [Trailing [0]] in
  let resp := last_reply (trace (snd a0_trailing)) in
  let a0init := next_a0init s in
  let a0hash := skipn 0x0E (getData resp) in
  let kcl := SHA256.hash (test_key ++ a0init ++
                          firstn 8 (skipn 0x06 (getData resp))) in
  last (trace (snd a0_trailing)) EvEnd =
    EvTransmit (a0_apdu a0init) SCARD_S_SUCCESS resp /\
  length (getData resp) = 47%nat /\
  fst a0_trailing = Ret (Some kcl) /\
  SHA256.hash (kcl ++ a0init) <> a0hash.
Proof.
  cbv zeta.
  split; [vm_compute; reflexivity|].
  split; [vm_compute; reflexivity|].
  split; [vm_compute; reflexivity|].
  intros Q. apply (f_equal (@length Z)) in Q.
  vm_compute in Q. discriminate.
Qed.

(** Scenario 3 of the spec, with the card's own response. *)
Local Abbreviation ecm_honest :=
  (AcasCard.ecm test_key test_ecm (test_env [])).

Definition honest_key : DecryptionKey :=
  {| odd := map Z.of_nat (seq 0 16); even := map Z.of_nat (seq 16 16) |}.

Example ecm_honest_key : fst ecm_honest = Ret (Some honest_key).
Proof. vm_compute. reflexivity. Qed.



(** Scenario 2 of the spec: a wrong tag, then a correct one: one retry. *)
Example ecm_one_retry :
  let out := AcasCard.ecm test_key test_ecm (test_env [BadTag]) in
  fst out = Ret (Some honest_key) /\ passes (trace (snd out)) = 2%nat.
Proof. vm_compute. split; reflexivity. Qed.

(** Three failures exhaust the budget; a fourth attempt is not made. *)
Example ecm_budget_exhausted :
  let out := AcasCard.ecm test_key test_ecm
               (test_env [BadTag; Honest; Status SCARD_W_RESET_CARD; BadTag]) in
  fst out = Ret None /\ passes (trace (snd out)) = 3%nat /\
  script (match smartCard (snd out) with Some c => c | None => fresh [] end) = [].
Proof. vm_compute. repeat split; reflexivity. Qed.

(** C4 as stated fails on a card that answers the first A0 command with
    the status word 6A 86: the call retries, and succeeds. *)
Local Abbreviation ecm_a0_rejected :=
  (AcasCard.ecm test_key test_ecm (test_env [Reject 0x6A 0x86])).


(** A 34 command answered with 6A 86 fails the call with no retry. *)
Local Abbreviation ecm_34_rejected :=
  (AcasCard.ecm test_key test_ecm (test_env [Honest; Reject 0x6A 0x86])).


(** The failing inputs of C8: an A0 response cut to 10 data bytes, and a
    34 response cut to 20. *)
Local Abbreviation a0_short :=
  (getA0AuthKcl test_key (test_env [Truncated 10])).

Local Abbreviation ecm_short :=
  (AcasCard.ecm test_key test_ecm (test_env [Honest; Truncated 20])).

Example short_responses_on_the_code :
  fst a0_short = Undefined /\ fst ecm_short = Undefined.
Proof. vm_compute. split; reflexivity. Qed.


Lemma short_response_undefined_witness : fst a0_short = Undefined.
Proof.
  apply (proj1 (short_response_undefined test_key) (test_env [Truncated 10])
               (fst a0_short) (snd a0_short) [EvInit; EvConnect]
               (a0_apdu (map Z.of_nat (seq 1 8)))
               (last_reply (trace (snd a0_short)))).
  - apply surjective_pairing.
  - vm_compute. reflexivity.
  - reflexivity.
  - vm_compute. lia.
Defined.

End AcasCardScenarios.

(** ** AcasHandler *)

Module AcasHandlerFacts.

Import AcasCard AcasCardFacts AcasHandler.

Section WithCard.

Context {card : Type} `{ISmartCard card}.

Variable masterKey : bytes.

Local Abbreviation state := (@AcasHandler.state card).

(** [ecm] returns or is undefined: it catches the exception, and its loop
    ends. *)
Lemma ecm_outcome (ecm : bytes) (c : @AcasCard.env card) :
  (exists r, fst (AcasCard.ecm masterKey ecm c) = Ret r) \/
  fst (AcasCard.ecm masterKey ecm c) = Undefined.
Proof.
  pose proof (ecm_retry_total masterKey ecm c) as N.
  unfold AcasCard.ecm. destruct (smartCard c); cbn [fst]; eauto.
  destruct (ecm_retry masterKey 3 ecm 0 c) as [[] c']; cbn [fst] in *; eauto.
  exfalso. apply N. reflexivity.
Qed.

(** A turn of the worker on a non-empty queue pops the front ECM, and
    returns unless the card code is undefined. *)
Lemma worker_turn_pops (h : state) (e : bytes) (rest : list bytes) :
  queue h = e :: rest ->
  (exists h', worker_turn masterKey h = Ret h' /\ queue h' = rest /\
              ecmReady h' = ecmReady h /\
              lastPayloadKeyType h' = lastPayloadKeyType h) \/
  worker_turn masterKey h = Undefined.
Proof.
  intros Q. unfold worker_turn. rewrite Q.
  destruct (ecm_outcome e (acasCard h)) as [[r E]|E];
    destruct (AcasCard.ecm masterKey e (acasCard h)) as [o c];
    simpl in E; subst o; auto.
  destruct r; left; eexists; split; try reflexivity; auto.
Qed.

(** The queue is drained in time when each of the pending ECMs is done by
    a turn of the worker that notifies within the timeout. *)
Definition drained_in_time (timeout : Z) (notified : list Z) (h : state)
  : Prop :=
  (length (queue h) <= length notified)%nat /\
  Forall (fun t => t <= timeout) (firstn (length (queue h)) notified).

Lemma wait_for_empty_spec (timeout : Z) (notified : list Z) (h h' : state)
  (r : outcome bool) :
  wait_for_empty masterKey timeout notified h = (r, h') ->
  ecmReady h' = ecmReady h /\
  lastPayloadKeyType h' = lastPayloadKeyType h /\
  (r = Ret true \/ r = Ret false \/ r = Undefined) /\
  (r = Ret true -> queue h' = [] /\ drained_in_time timeout notified h) /\
  (r = Ret false -> queue h' <> [] /\ ~ drained_in_time timeout notified h).
Proof.
  revert h. induction notified as [|t later IH]; intros h; simpl.
  - destruct (queue h) as [|e rest] eqn:Q; intros W; inv W.
    + repeat split; auto; try discriminate.
      * unfold drained_in_time. rewrite Q. simpl. lia.
      * unfold drained_in_time. rewrite Q. simpl. constructor.
    + repeat split; auto; try discriminate; try congruence.
      unfold drained_in_time. rewrite Q. simpl. lia.
  - destruct (queue h) as [|e rest] eqn:Q.
    + intros W; inv W. repeat split; auto; try discriminate.
      * unfold drained_in_time. rewrite Q. simpl. lia.
      * unfold drained_in_time. rewrite Q. simpl. constructor.
    + destruct (t <=? timeout) eqn:T.
      * apply Z.leb_le in T.
        destruct (worker_turn_pops h e rest Q) as [(h1 & W1 & Q1 & R1 & L1)|W1];
          rewrite W1.
        -- intros W. apply IH in W as (R & L & C & Y & N).
           assert (D : drained_in_time timeout later h1 <->
                       drained_in_time timeout (t :: later) h).
           { unfold drained_in_time. rewrite Q, Q1. simpl.
             rewrite Forall_cons_iff. intuition lia. }
           rewrite <- D.
           split; [congruence|]. split; [congruence|]. tauto.
        -- intros W; inv W. repeat split; auto; try discriminate.
      * apply Z.leb_gt in T. intros W; inv W.
        repeat split; auto; try discriminate; try congruence.
        unfold drained_in_time. rewrite Q. simpl.
        rewrite Forall_cons_iff. lia.
Qed.

Lemma flag_eqb_eq (a b : EncryptionFlag) : flag_eqb a b = true <-> a = b.
Proof. destruct a, b; simpl; split; intros; congruence. Qed.

(** C5.  When the requested parity differs from the last served one,
    [getDecryptionKey] waits on the queue-empty condition for 10 seconds
    (10 * 1000 ms).  It serves a key only after the wait has succeeded:
    the queue is then empty and the key is the requested half of [key] as
    the worker left it.  If the queue is not drained within the 10 seconds,
    no key is returned ([nullopt], unless the worker ran into undefined
    behaviour) and the last served parity stays as it was.  If an ECM has
    been taken in and the queue is drained within the 10 seconds, the key
    is served (unless the worker ran into undefined behaviour). *)
Theorem getDecryptionKey_parity_flip
  (keyType : EncryptionFlag) (notified : list Z) (h h' : state)
  (r : outcome (option bytes)) :
  lastPayloadKeyType h <> keyType ->
  getDecryptionKey masterKey keyType notified h = (r, h') ->
  (forall k, r = Ret (Some k) ->
     drained_in_time (10 * 1000) notified h /\
     queue h' = [] /\
     lastPayloadKeyType h' = keyType /\
     k = match keyType with EVEN => even (key h') | _ => odd (key h') end) /\
  (~ drained_in_time (10 * 1000) notified h ->
     (r = Ret None \/ r = Undefined) /\
     lastPayloadKeyType h' = lastPayloadKeyType h) /\
  (ecmReady h = true ->
   drained_in_time (10 * 1000) notified h ->
     r = Undefined \/ exists k, r = Ret (Some k)).
Proof.
  intros N G. revert G. unfold getDecryptionKey.
  assert (F : flag_eqb (lastPayloadKeyType h) keyType = false).
  { destruct (flag_eqb _ _) eqn:E; auto. apply flag_eqb_eq in E. contradiction. }
  rewrite F. cbn [negb].
  destruct (ecmReady h); cbn [negb].
  2:{ intros Q; inv Q. split; [intros k Q; discriminate|].
      split; [auto|discriminate]. }
  destruct (wait_for_empty masterKey flip_timeout notified h) as [w h1] eqn:W.
  apply wait_for_empty_spec in W as (_ & L & C & Y & Z).
  change flip_timeout with (10 * 1000) in Y, Z.
  destruct C as [->|[->| ->]]; intros Q; inv Q.
  - destruct (Y eq_refl) as [Q D]. split; [|split].
    + intros k E. inv E. auto.
    + intros X. contradiction.
    + intros _ _. right. eauto.
  - destruct (Z eq_refl) as [Q D].
    split; [intros k E; discriminate|]. split; [auto|].
    intros _ X. contradiction.
  - split; [intros k Q; discriminate|]. auto.
Qed.

(** The states of a handler before [onEcm] has queued an ECM: the handler
    as constructed with [key0] in [key] ([ecmReady] unset, as [new_handler]
    has it), and what the calls of the other member functions, the turns of
    the worker and the calls of [onEcm] with the ECM it holds as the last
    one (which are not queued) make of it. *)
Inductive before_first_ecm (key0 : DecryptionKey) : state -> Prop :=
| bf_new (c : @AcasCard.env card) (flag0 : EncryptionFlag) (aesni : bool) :
    before_first_ecm key0 (new_handler c flag0 key0 aesni)
| bf_setSmartCard (sc : option card) (h : state) :
    before_first_ecm key0 h -> before_first_ecm key0 (setSmartCard sc h)
| bf_decrypt (mmtp : Mmtp) (notified : list Z) (h : state) :
    before_first_ecm key0 h ->
    before_first_ecm key0 (snd (decrypt masterKey mmtp notified h))
| bf_getDecryptionKey (keyType : EncryptionFlag) (notified : list Z)
    (h : state) :
    before_first_ecm key0 h ->
    before_first_ecm key0 (snd (getDecryptionKey masterKey keyType notified h))
| bf_worker (h h' : state) :
    before_first_ecm key0 h -> worker_turn masterKey h = Ret h' ->
    before_first_ecm key0 h'
| bf_onEcm_again (h : state) :
    before_first_ecm key0 h ->
    before_first_ecm key0 (snd (onEcm (lastEcm h) h)).

(** Nothing is queued, [ecmReady] is unset and [key] is untouched as long
    as no ECM has been queued. *)
Lemma before_first_ecm_inv (key0 : DecryptionKey) (h : state) :
  before_first_ecm key0 h ->
  ecmReady h = false /\ queue h = [] /\ key h = key0 /\
  keyPublished h = false.
Proof.
  induction 1 as [c flag0 aesni|sc h B IH|mmtp notified h B IH|
                  keyType notified h B IH|h h' B IH W|h B IH].
  - repeat split; reflexivity.
  - exact IH.
  - destruct IH as (R & IH). unfold decrypt, getDecryptionKey. rewrite R.
    cbn [negb]. destruct (extensionHeaderScrambling mmtp); cbn [snd]; auto.
  - destruct IH as (R & IH). unfold getDecryptionKey. rewrite R.
    cbn [negb snd]. auto.
  - destruct IH as (R & Q & IH). unfold worker_turn in W. rewrite Q in W.
    inv W. auto.
  - unfold onEcm. rewrite eqb_refl. exact IH.
Qed.

(** C6, as amended.  Before [onEcm] has queued any ECM - on the handler as
    constructed, and after any calls of [decrypt], [getDecryptionKey] and
    [setSmartCard], turns of the worker and calls of [onEcm] that queue
    nothing - [decrypt] returns [false] and leaves the packet, and the
    handler, as they were; no key has been stored by the worker. *)
Theorem decrypt_before_first_ecm
  (key0 : DecryptionKey) (mmtp : Mmtp) (ext : ExtensionHeaderScrambling)
  (notified : list Z) (h : state) :
  before_first_ecm key0 h ->
  extensionHeaderScrambling mmtp = Some ext ->
  decrypt masterKey mmtp notified h = (Ret (false, mmtp), h) /\
  key h = key0 /\ keyPublished h = false.
Proof.
  intros B E. apply before_first_ecm_inv in B as (R & _ & K & P).
  unfold decrypt, getDecryptionKey. rewrite E, R. auto.
Qed.

(** The accelerated cipher holds the key [lastKey] remembers. *)
Definition cache_coherent (h : state) : Prop := aesKey h = lastKey h.

Lemma worker_turn_coherent (h h' : state) :
  worker_turn masterKey h = Ret h' -> cache_coherent h -> cache_coherent h'.
Proof.
  unfold worker_turn. destruct (queue h) as [|e rest]; [intros Q; inv Q; auto|].
  destruct (AcasCard.ecm masterKey e (acasCard h)) as [[[k|]| | |] c];
    intros T; inv T; auto.
Qed.

Lemma wait_for_empty_coherent (timeout : Z) (notified : list Z)
  (h h' : state) (r : outcome bool) :
  wait_for_empty masterKey timeout notified h = (r, h') ->
  cache_coherent h -> cache_coherent h'.
Proof.
  revert h. induction notified as [|t later IH]; intros h; simpl.
  - destruct (queue h); intros W; inv W; auto.
  - destruct (queue h) as [|e rest] eqn:Q; [intros W; inv W; auto|].
    destruct (t <=? timeout); [|intros W; inv W; auto].
    destruct (worker_turn masterKey h) as [h1| | |] eqn:T;
      try (intros W; inv W; auto; fail).
    intros W C. apply (IH _ W). eapply worker_turn_coherent; eauto.
Qed.

(** C7, as amended.  [decrypt] has no case for UNSCRAMBLED: the EVEN flag
    selects the even half of the key and every other flag, UNSCRAMBLED
    included, the odd half.  Whenever [decrypt] returns [true], the first 8
    bytes of the payload are kept and the bytes from the ninth on are
    replaced by their AES-128-CTR image under the selected half. *)
Theorem decrypt_selects_odd_unless_even
  (mmtp mmtp' : Mmtp) (ext : ExtensionHeaderScrambling) (notified : list Z)
  (h h' : state) :
  cache_coherent h ->
  extensionHeaderScrambling mmtp = Some ext ->
  decrypt masterKey mmtp notified h = (Ret (true, mmtp'), h') ->
  let half := match encryptionFlag ext with
              | EVEN => even (key h')
              | ODD | UNSCRAMBLED => odd (key h')
              end in
  (8 <= length (payload mmtp))%nat /\
  payload mmtp' =
    firstn 8 (payload mmtp) ++
    AES.ctr_xcrypt half (make_iv mmtp) (skipn 8 (payload mmtp)) /\
  cache_coherent h'.
Proof.
  intros C E. unfold decrypt. rewrite E.
  destruct (getDecryptionKey masterKey (encryptionFlag ext) notified h)
    as [k h1] eqn:G.
  assert (K : forall k0, k = Ret (Some k0) ->
                k0 = match encryptionFlag ext with
                     | EVEN => even (key h1)
                     | _ => odd (key h1)
                     end /\ cache_coherent h1).
  { revert G. unfold getDecryptionKey.
    destruct (ecmReady h); cbn [negb]; [|intros Q; inv Q; discriminate].
    destruct (if negb (flag_eqb _ _) then _ else _) as [w h0] eqn:W.
    assert (C0 : cache_coherent h0).
    { destruct (flag_eqb _ _); cbn [negb] in W; [inv W; auto|].
      eapply wait_for_empty_coherent; eauto. }
    destruct w as [[|]| | |]; intros Q; inv Q; intros k0 Q; inv Q.
    split; auto; destruct (encryptionFlag ext); reflexivity. }
  destruct k as [[k0|]| | |]; try (intros Q; inv Q; fail).
  destruct (K k0 eq_refl) as [-> C1].
  destruct (length (payload mmtp) <? 8)%nat eqn:L; [intros Q; inv Q|].
  apply Nat.ltb_ge in L.
  destruct (hasAESNI h1) eqn:A.
  - destruct (Bytes.eqb (lastKey h1) _) eqn:B; cbn [negb]; intros Q; inv Q;
      cbn [payload set_payload load_key aesKey lastKey key].
    + apply eqb_eq in B. unfold cache_coherent in C1. rewrite C1, B.
      repeat split; auto; destruct (encryptionFlag ext); reflexivity.
    + repeat split; auto; destruct (encryptionFlag ext); reflexivity.
  - intros Q; inv Q. cbn [payload set_payload].
    repeat split; auto; destruct (encryptionFlag ext); reflexivity.
Qed.

End WithCard.

End AcasHandlerFacts.

(** ** AcasHandler against the simulated card *)

Module AcasHandlerScenarios.

Import AcasCard AcasHandler AcasHandlerFacts SimCard.

Definition key0 : DecryptionKey :=
  {| odd := repeat 0 16; even := repeat 0 16 |}.

(** A handler fresh from its constructor, with a card that follows [l];
    [flag0] stands for the initial [lastPayloadKeyType]. *)
Definition fresh_handler (l : list behaviour) (flag0 : EncryptionFlag)
  : AcasHandler.state :=
  new_handler (test_env l) flag0 key0 false.

(** The same after [onEcm] has taken in the test ECM. *)
Definition fed_handler (l : list behaviour) (flag0 : EncryptionFlag)
  : AcasHandler.state :=
  snd (onEcm test_ecm (fresh_handler l flag0)).

(** A packet of 30 payload bytes 00..1d. *)
Definition packet (f : EncryptionFlag) : Mmtp :=
  {| extensionHeaderScrambling := Some {| encryptionFlag := f |};
     packetId := 0x1234;
     packetSequenceNumber := 7;
     payload := map Z.of_nat (seq 0 30) |}.

Definition all_flags : list EncryptionFlag := [UNSCRAMBLED; EVEN; ODD].

(** Scenario 4 of the spec: a re-delivered ECM is not queued again. *)
Example duplicate_ecm :
  queue (snd (onEcm test_ecm (fed_handler [] EVEN))) = [test_ecm].
Proof. vm_compute. reflexivity. Qed.

(** Scenario 5 of the spec: the worker does not notify within 10 s. *)
Example parity_flip_timeout :
  fst (decrypt test_key (packet ODD) [10001] (fed_handler [] EVEN)) =
  Ret (false, packet ODD).
Proof. vm_compute. reflexivity. Qed.

Lemma getDecryptionKey_parity_flip_witness :
  let h := fed_handler [] EVEN in
  let out := getDecryptionKey test_key ODD [7000] h in
  drained_in_time (10 * 1000) [7000] h /\
  fst out = Ret (Some (map Z.of_nat (seq 0 16))) /\
  queue (snd out) = [] /\
  lastPayloadKeyType (snd out) = ODD.
Proof.
  intros h out.
  assert (D : drained_in_time (10 * 1000) [7000] h).
  { split; [vm_compute; lia|]. vm_compute. repeat constructor. discriminate. }
  split; [exact D|].
  destruct (getDecryptionKey_parity_flip test_key ODD [7000] h (snd out)
              (fst out)) as (K & _ & S).
  - vm_compute. discriminate.
  - apply surjective_pairing.
  - assert (E : fst out = Ret (Some (map Z.of_nat (seq 0 16))))
      by (vm_compute; reflexivity).
    destruct (S eq_refl D) as [U|[k E']]; [rewrite E in U; discriminate|].
    destruct (K _ E) as (_ & Q & L & _). auto.
Defined.

(** A handler that has been asked to decrypt, given a port and handed the
    empty ECM again, with nothing queued yet. *)
Definition idle_handler : AcasHandler.state :=
  snd (onEcm []
         (setSmartCard (Some (fresh []))
            (snd (decrypt test_key (packet EVEN) []
                    (fresh_handler [] EVEN))))).

Lemma decrypt_before_first_ecm_witness :
  decrypt test_key (packet ODD) [5] idle_handler =
    (Ret (false, packet ODD), idle_handler) /\
  key idle_handler = key0 /\ keyPublished idle_handler = false.
Proof.
  apply (decrypt_before_first_ecm test_key key0 (packet ODD)
           {| encryptionFlag := ODD |} [5] idle_handler); [|reflexivity].
  unfold idle_handler.
  apply (bf_onEcm_again test_key key0
           (setSmartCard (Some (fresh []))
              (snd (decrypt test_key (packet EVEN) []
                      (fresh_handler [] EVEN))))).
  apply bf_setSmartCard, bf_decrypt. unfold fresh_handler. apply bf_new.
Defined.

(** C6 as stated fails once an ECM has been queued, whatever the initial
    [lastPayloadKeyType]: the card rejects the ECM, so no key is ever
    published, and [decrypt] still returns [true] and rewrites the payload
    with the key the handler was constructed with. *)
Lemma decrypt_with_unpublished_key :
  Forall (fun flag0 =>
            let h := fed_handler [Honest; Reject 0x6A 0x86] flag0 in
            let out := decrypt test_key (packet ODD) [5] h in
            keyPublished h = false /\
            keyPublished (snd out) = false /\
            key (snd out) = key0 /\
            exists m, fst out = Ret (true, m) /\
                      payload m <> payload (packet ODD))
         all_flags.
Proof.
  unfold all_flags. repeat apply Forall_cons; [| | |apply Forall_nil];
    cbv zeta;
    (split; [vm_compute; reflexivity|]);
    (split; [vm_compute; reflexivity|]);
    (split; [vm_compute; reflexivity|]);
    eexists; (split; [vm_compute; reflexivity|]);
    vm_compute; intros Q; discriminate Q.
Qed.

(** The handler after the worker has resolved the test ECM. *)
Definition keyed_handler (flag0 : EncryptionFlag) : AcasHandler.state :=
  match worker_turn test_key (fed_handler [] flag0) with
  | Ret h => h
  | _ => fresh_handler [] flag0
  end.

Example keyed_handler_key :
  key (keyed_handler EVEN) = AcasCardScenarios.honest_key /\
  keyPublished (keyed_handler EVEN) = true /\
  queue (keyed_handler EVEN) = [].
Proof. vm_compute. repeat split; reflexivity. Qed.

(** C7 as stated fails: a packet flagged UNSCRAMBLED gets the odd half of
    the key and its payload is rewritten, whatever the initial
    [lastPayloadKeyType]. *)
Lemma decrypt_rewrites_unscrambled :
  Forall (fun flag0 =>
            let p := packet UNSCRAMBLED in
            let out := decrypt test_key p [] (keyed_handler flag0) in
            exists m,
              fst out = Ret (true, m) /\
              payload m =
                firstn 8 (payload p) ++
                AES.ctr_xcrypt (odd (key (keyed_handler flag0))) (make_iv p)
                               (skipn 8 (payload p)) /\
              payload m <> payload p)
         all_flags.
Proof.
  unfold all_flags. repeat apply Forall_cons; [| | |apply Forall_nil];
    cbv zeta;
    eexists; (split; [vm_compute; reflexivity|]);
    (split; [vm_compute; reflexivity|]);
    vm_compute; intros Q; discriminate Q.
Qed.

(** What [decrypt] makes of an UNSCRAMBLED packet, evaluated. *)
Definition unscrambled_result : outcome (bool * Mmtp) * AcasHandler.state :=
  Eval vm_compute in
    decrypt test_key (packet UNSCRAMBLED) [] (keyed_handler EVEN).

Lemma decrypt_selects_odd_unless_even_witness :
  exists m h',
    unscrambled_result = (Ret (true, m), h') /\
    payload m =
      firstn 8 (payload (packet UNSCRAMBLED)) ++
      AES.ctr_xcrypt (odd (key h')) (make_iv (packet UNSCRAMBLED))
                     (skipn 8 (payload (packet UNSCRAMBLED))).
Proof.
  eexists; eexists; split; [reflexivity|].
  refine (proj1 (proj2 (decrypt_selects_odd_unless_even test_key
                          (packet UNSCRAMBLED) _
                          {| encryptionFlag := UNSCRAMBLED |} []
                          (keyed_handler EVEN) _ _ _ _))).
  - vm_compute. reflexivity.
  - reflexivity.
  - vm_compute. reflexivity.
Defined.

End AcasHandlerScenarios.
(** ** IOThread *)

Module IOThreadFacts.

Import IOThread.

Local Open Scope N_scope.

Ltac inv H := inversion H; subst; clear H.

(** *** Vectors *)

Lemma take_firstn (n : N) (l : bytes) : take n l = firstn (N.to_nat n) l.
Proof.
  revert n; induction l as [|x l IH]; intros n; simpl.
  - rewrite firstn_nil. reflexivity.
  - destruct (N.eqb_spec n 0) as [->|E]; [reflexivity|].
    rewrite IH. replace (N.to_nat n) with (S (N.to_nat (N.pred n))) by lia.
    reflexivity.
Qed.

Lemma take_length (n : N) (l : bytes) : N.of_nat (length (take n l)) <= n.
Proof. rewrite take_firstn, length_firstn. lia. Qed.

Lemma take_skipn (n : N) (l : bytes) :
  take n l ++ skipn (length (take n l)) l = l.
Proof.
  rewrite take_firstn, length_firstn.
  destruct (Nat.le_ge_cases (N.to_nat n) (length l)) as [L|L].
  - rewrite Nat.min_l by lia. apply firstn_skipn.
  - rewrite Nat.min_r by lia. rewrite firstn_all2 by lia.
    rewrite skipn_all. apply app_nil_r.
Qed.

(** [v] holds the bytes [l] from [off] on. *)
Definition holds (v : vector) (off : N) (l : bytes) : Prop :=
  off + N.of_nat (length l) <= size v /\
  forall i, (i < length l)%nat -> byte_at v (off + N.of_nat i) = nth i l 0%Z.

Lemma indices_length (off len : N) : length (indices off len) = N.to_nat len.
Proof. unfold indices. rewrite length_map, length_seq. reflexivity. Qed.

Lemma indices_nth (off len : N) (i : nat) :
  (i < N.to_nat len)%nat -> nth i (indices off len) 0 = off + N.of_nat i.
Proof.
  intros Hi. unfold indices. set (f := fun i : nat => off + N.of_nat i).
  rewrite (nth_indep _ 0 (f 0%nat)) by
    (rewrite length_map, length_seq; exact Hi).
  rewrite map_nth, seq_nth by exact Hi. reflexivity.
Qed.

Lemma content_nth (v : vector) (off len : N) (i : nat) :
  (i < N.to_nat len)%nat ->
  nth i (map (byte_at v) (indices off len)) 0%Z = byte_at v (off + N.of_nat i).
Proof.
  intros Hi.
  rewrite (nth_indep _ 0%Z (byte_at v 0)) by
    (rewrite length_map, indices_length; exact Hi).
  rewrite map_nth, indices_nth by exact Hi. reflexivity.
Qed.

Lemma holds_read (v : vector) (off : N) (l : bytes) :
  holds v off l -> read v off (N.of_nat (length l)) = Some l.
Proof.
  intros [B Hl]. unfold read.
  replace (off + N.of_nat (length l) <=? size v) with true
    by (symmetry; apply N.leb_le; exact B).
  f_equal. apply nth_ext with (d := 0%Z) (d' := 0%Z).
  - rewrite length_map, indices_length, Nat2N.id. reflexivity.
  - intros i Hi. rewrite length_map, indices_length, Nat2N.id in Hi.
    rewrite content_nth by (rewrite Nat2N.id; exact Hi). apply Hl. exact Hi.
Qed.

Lemma read_holds (v : vector) (off len : N) (l : bytes) :
  read v off len = Some l -> holds v off l /\ N.of_nat (length l) = len.
Proof.
  unfold read. destruct (off + len <=? size v) eqn:B; [|discriminate].
  apply N.leb_le in B. intros Q; inv Q. unfold holds.
  rewrite length_map, indices_length, N2Nat.id.
  split; [split|]; auto.
  intros i Hi. rewrite content_nth by exact Hi. reflexivity.
Qed.

Lemma holds_skipn (v : vector) (off : N) (l : bytes) (k : nat) :
  holds v off l -> (k <= length l)%nat ->
  holds v (off + N.of_nat k) (skipn k l).
Proof.
  intros [B Hl] K. split.
  - rewrite length_skipn. lia.
  - intros i Hi. rewrite length_skipn in Hi.
    rewrite nth_skipn. rewrite <- Hl by lia. f_equal. lia.
Qed.

Lemma write_Some (v : vector) (off : N) (src : bytes) :
  off + N.of_nat (length src) <= size v ->
  exists v', write v off src = Some v' /\ size v' = size v /\
             holds v' off src /\
             forall i, i < off -> byte_at v' i = byte_at v i.
Proof.
  intros B. unfold write.
  replace (off + N.of_nat (length src) <=? size v) with true
    by (symmetry; apply N.leb_le; exact B).
  eexists; split; [reflexivity|]. cbn [size byte_at].
  split; [reflexivity|]. split; [split; [exact B|]|].
  - intros i Hi. cbn [byte_at].
    replace ((off <=? off + N.of_nat i) && (off + N.of_nat i <? off + N.of_nat (length src)))
      with true.
    + replace (off + N.of_nat i - off) with (N.of_nat i) by lia.
      rewrite Nat2N.id. reflexivity.
    + symmetry. apply andb_true_iff. split; [apply N.leb_le|apply N.ltb_lt]; lia.
  - intros i Hi. cbn [byte_at].
    replace (off <=? i) with false by (symmetry; apply N.leb_gt; exact Hi).
    reflexivity.
Qed.

Lemma write_None (v : vector) (off : N) (src : bytes) :
  write v off src = None -> size v < off + N.of_nat (length src).
Proof.
  unfold write. destruct (_ <=? _) eqn:B; [discriminate|].
  intros _. apply N.leb_gt. exact B.
Qed.

(** A leftover stored at the front and fresh bytes right after it read
    back as one string. *)
Lemma holds_app (v1 v2 : vector) (l1 l2 : bytes) :
  holds v1 0 l1 ->
  holds v2 (N.of_nat (length l1)) l2 ->
  (forall i, i < N.of_nat (length l1) -> byte_at v2 i = byte_at v1 i) ->
  holds v2 0 (l1 ++ l2).
Proof.
  intros [B1 H1] [B2 H2] K. split.
  - rewrite length_app. lia.
  - intros i Hi. rewrite length_app in Hi.
    destruct (Nat.lt_ge_cases i (length l1)) as [L|L].
    + rewrite app_nth1 by lia. rewrite K by lia. apply H1. exact L.
    + rewrite app_nth2 by lia. rewrite <- H2 by lia. f_equal. lia.
Qed.


(** *** The input stream *)

Definition drained (s : istream) : Prop := eofbit s = true -> pending s = [].

Lemma stream_read_spec (n : N) (s : istream) :
  0 < n -> drained s ->
  pending s = fst (stream_read n s) ++ pending (snd (stream_read n s)) /\
  N.of_nat (length (fst (stream_read n s))) <= n /\
  drained (snd (stream_read n s)) /\
  (fst (stream_read n s) = [] ->
   eofbit (snd (stream_read n s)) = true /\ pending s = []).
Proof.
  intros Hn D. unfold stream_read. destruct (eofbit s) eqn:E; cbn [fst snd].
  - split; [reflexivity|]. split; [cbn [length]; lia|]. split; [exact D|].
    intros _. split; [exact E|apply D; exact E].
  - cbn [pending eofbit]. split; [symmetry; apply take_skipn|].
    split; [apply take_length|]. split.
    + intros F. cbn [pending eofbit] in *. apply N.ltb_lt in F.
      rewrite take_firstn, length_firstn in *.
      apply skipn_all2. lia.
    + intros Q. rewrite Q. cbn [length]. split; [apply N.ltb_lt; exact Hn|].
      destruct (pending s) as [|x l]; [reflexivity|].
      simpl in Q. destruct (N.eqb_spec n 0); [lia|discriminate].
Qed.


Lemma stream_read_count (n : N) (s : istream) :
  N.of_nat (length (fst (stream_read n s))) <= n.
Proof.
  unfold stream_read. destruct (eofbit s); cbn [fst length]; [lia|].
  apply take_length.
Qed.

(** *** One turn of the producer *)

Definition sized (h : store) : Prop := forall b, size (h b) = BUFFER_SIZE.

Definition sentinel : FilledBuffer := {| buffer := None; view := empty_view |}.

Definition filled_with (w : nat) (l : bytes) : FilledBuffer :=
  {| buffer := Some w;
     view := {| vbuf := w; voff := 0; vlen := N.of_nat (length l) |} |}.

(** The state between two turns of the pipeline: the consumer has sent one
    report, whose view holds the leftover [L]. *)
Definition ready (t : state) (L : bytes) : Prop :=
  sized (heap t) /\
  m_filledBuffersQueue t = [] /\
  drained (m_inputStream t) /\
  exists p, m_processedBuffersQueue t = [p] /\
    vlen (remaining_view p) = N.of_nat (length L) /\
    N.of_nat (length L) <= SPILL_OVER_AREA_SIZE /\
    holds (heap t (vbuf (remaining_view p))) (voff (remaining_view p)) L /\
    (2 <= length (m_freeBuffersQueue t) + match returned p with Some _ => 1 | None => 0 end)%nat.

Lemma remainingSize_clamp (rv : BufferView) :
  remainingSize rv = N.min (vlen rv) SPILL_OVER_AREA_SIZE.
Proof.
  unfold remainingSize.
  destruct (N.eqb_spec (vlen rv) 0) as [->|E]; [reflexivity|].
  destruct (N.ltb_spec SPILL_OVER_AREA_SIZE (vlen rv)); lia.
Qed.

Lemma sized_upd (h : store) (b : nat) (v : vector) :
  sized h -> size v = BUFFER_SIZE -> sized (upd h b v).
Proof.
  intros Hh Hv b'. unfold upd. destruct (b' =? b)%nat; [exact Hv|apply Hh].
Qed.

Lemma upd_same (h : store) (b : nat) (v : vector) : upd h b v b = v.
Proof. unfold upd. rewrite Nat.eqb_refl. reflexivity. Qed.

Lemma sizes_fit : SPILL_OVER_AREA_SIZE + NEW_DATA_AREA_SIZE = BUFFER_SIZE /\
  0 < NEW_DATA_AREA_SIZE.
Proof. split; reflexivity. Qed.

Lemma threadFunc_turn_ready (t : state) (L : bytes) :
  ready t L ->
  exists fresh w t',
    ((fresh = [] /\ pending (m_inputStream t) = [] /\
      threadFunc_turn t = Ok (Break, t') /\
      m_filledBuffersQueue t' = [sentinel]) \/
     (fresh <> [] /\ threadFunc_turn t = Ok (Continue, t') /\
      m_filledBuffersQueue t' = [filled_with w (L ++ fresh)])) /\
    pending (m_inputStream t) = fresh ++ pending (m_inputStream t') /\
    N.of_nat (length fresh) <= NEW_DATA_AREA_SIZE /\
    drained (m_inputStream t') /\
    sized (heap t') /\
    m_processedBuffersQueue t' = [] /\
    m_freeBuffersQueue t' <> [] /\
    holds (heap t' w) 0 (L ++ fresh).
Proof.
  intros (Hs & Hf & Hd & p & Hp & Hlen & Hspill & Hh & Hq).
  destruct sizes_fit as [Hfit Hpos].
  destruct (m_freeBuffersQueue t) as [|w free1] eqn:Hfree.
  { destruct (returned p); simpl in Hq; lia. }
  assert (Hn : remainingSize (remaining_view p) = N.of_nat (length L))
    by (rewrite remainingSize_clamp, Hlen; lia).
  assert (Hread : (if vlen (remaining_view p) =? 0 then Some []
                   else read (heap t (vbuf (remaining_view p)))
                          (voff (remaining_view p))
                          (remainingSize (remaining_view p))) = Some L).
  { rewrite Hn. destruct (N.eqb_spec (vlen (remaining_view p)) 0) as [Z|Z].
    - destruct L; [reflexivity|]. rewrite Hlen in Z. simpl in Z. lia.
    - apply holds_read. exact Hh. }
  destruct (write_Some (heap t w) 0 L) as (w1 & Hw1 & Hz1 & Hh1 & _).
  { rewrite Hs. lia. }
  destruct (stream_read_spec NEW_DATA_AREA_SIZE (m_inputStream t) Hpos Hd)
    as (Hsplit & Hcount & Hd' & Hnil).
  destruct (stream_read NEW_DATA_AREA_SIZE (m_inputStream t))
    as [fresh stream1] eqn:Hsr.
  cbn [fst snd] in *.
  destruct (write_Some w1 (N.of_nat (length L)) fresh)
    as (w2 & Hw2 & Hz2 & Hh2 & Hlow).
  { rewrite Hz1, Hs. lia. }
  assert (Hall : holds w2 0 (L ++ fresh)).
  { apply (holds_app w1); auto. }
  assert (Hfree2 : match returned p with
                   | Some b => free1 ++ [b]
                   | None => free1
                   end <> []).
  { destruct (returned p); [destruct free1; discriminate|].
    destruct free1; [simpl in Hq; lia|discriminate]. }
  exists fresh, w.
  unfold threadFunc_turn. rewrite Hfree, Hp. cbv zeta.
  rewrite Hread, Hw1, Hsr, Hn, Hw2, Hf.
  destruct fresh as [|x fresh].
  - destruct (Hnil eq_refl) as [He Hnone].
    cbn [length N.of_nat N.eqb andb]. rewrite He.
    eexists. split.
    { left. split; [reflexivity|]. split; [exact Hnone|].
      split; reflexivity. }
    cbn [m_inputStream heap m_processedBuffersQueue
         m_freeBuffersQueue m_filledBuffersQueue].
    repeat match goal with |- _ /\ _ => split end; auto.
    + apply sized_upd; [exact Hs|congruence].
    + rewrite upd_same. exact Hall.
  - replace ((N.of_nat (length (x :: fresh)) =? 0) && eofbit stream1)
      with false
      by (symmetry; apply andb_false_iff; left; apply N.eqb_neq;
          simpl; lia).
    eexists. split.
    { right. split; [discriminate|]. split; [reflexivity|].
      unfold filled_with. rewrite length_app, Nat2N.inj_add. reflexivity. }
    cbn [m_inputStream heap m_processedBuffersQueue
         m_freeBuffersQueue m_filledBuffersQueue].
    repeat match goal with |- _ /\ _ => split end; auto.
    + apply sized_upd; [exact Hs|congruence].
    + rewrite upd_same. exact Hall.
Qed.


(** A store changes nothing outside the bytes it writes. *)
Lemma write_frame (v v' : vector) (off : N) (src : bytes) :
  write v off src = Some v' ->
  forall i, i < off \/ off + N.of_nat (length src) <= i ->
    byte_at v' i = byte_at v i.
Proof.
  unfold write. destruct (_ <=? _); [|discriminate].
  intros Q i Hi. inv Q. cbn [byte_at].
  replace ((off <=? i) && (i <? off + N.of_nat (length src))) with false;
    [reflexivity|].
  symmetry. apply andb_false_iff.
  destruct Hi as [Hi|Hi]; [left; apply N.leb_gt|right; apply N.ltb_ge]; exact Hi.
Qed.

(** What a turn of the producer that goes through has stored: the first
    bytes of the report's view, as many as the view is long and
    [SPILL_OVER_AREA_SIZE] at most, from the start of the work buffer on,
    the bytes read right after them, and nothing else. *)
Lemma threadFunc_turn_stores (t t' : state) (e : loop_exit) :
  sized (heap t) ->
  threadFunc_turn t = Ok (e, t') ->
  exists w free1 p ps leftover,
    m_freeBuffersQueue t = w :: free1 /\
    m_processedBuffersQueue t = p :: ps /\
    let rv := remaining_view p in
    let fresh := fst (stream_read NEW_DATA_AREA_SIZE (m_inputStream t)) in
    N.of_nat (length leftover) = N.min (vlen rv) SPILL_OVER_AREA_SIZE /\
    (forall i, (i < length leftover)%nat ->
       nth i leftover 0%Z = byte_at (heap t (vbuf rv)) (voff rv + N.of_nat i)) /\
    N.of_nat (length fresh) <= NEW_DATA_AREA_SIZE /\
    N.of_nat (length (leftover ++ fresh)) <= BUFFER_SIZE /\
    holds (heap t' w) 0 (leftover ++ fresh) /\
    (forall i, N.of_nat (length (leftover ++ fresh)) <= i ->
       byte_at (heap t' w) i = byte_at (heap t w) i) /\
    (forall b, b <> w -> heap t' b = heap t b) /\
    sized (heap t').
Proof.
  intros Hs. destruct sizes_fit as [Hfit _]. unfold threadFunc_turn.
  destruct (m_freeBuffersQueue t) as [|w free1]; [discriminate|].
  destruct (m_processedBuffersQueue t) as [|p ps]; [discriminate|].
  cbv zeta. set (rv := remaining_view p).
  pose proof (remainingSize_clamp rv) as Hclamp.
  destruct (if vlen rv =? 0 then Some []
            else read (heap t (vbuf rv)) (voff rv) (remainingSize rv))
    as [leftover|] eqn:Hread; [|discriminate].
  assert (Hlo : N.of_nat (length leftover) = remainingSize rv /\
                forall i, (i < length leftover)%nat ->
                  nth i leftover 0%Z =
                  byte_at (heap t (vbuf rv)) (voff rv + N.of_nat i)).
  { destruct (N.eqb_spec (vlen rv) 0) as [Z|Z].
    - inv Hread. split; [rewrite Hclamp, Z; reflexivity|].
      intros i Hi. cbn [length] in Hi. lia.
    - apply read_holds in Hread as [[_ Hh] Hl]. split; [exact Hl|].
      intros i Hi. symmetry. apply Hh. exact Hi. }
  destruct Hlo as [Hlen Hfrom].
  destruct (write_Some (heap t w) 0 leftover) as (w1 & Hw1 & Hz1 & Hh1 & _).
  { rewrite Hs. lia. }
  rewrite Hw1.
  pose proof (stream_read_count NEW_DATA_AREA_SIZE (m_inputStream t)) as Hc.
  destruct (stream_read NEW_DATA_AREA_SIZE (m_inputStream t))
    as [fresh stream1].
  cbn [fst] in *.
  destruct (write_Some w1 (remainingSize rv) fresh)
    as (w2 & Hw2 & Hz2 & Hh2 & Hlow).
  { rewrite Hz1, Hs. lia. }
  rewrite Hw2.
  assert (Hall : holds w2 0 (leftover ++ fresh)).
  { apply (holds_app w1); [exact Hh1|rewrite Hlen; exact Hh2|].
    intros i Hi. apply Hlow. lia. }
  assert (Hout : forall i, N.of_nat (length (leftover ++ fresh)) <= i ->
                   byte_at w2 i = byte_at (heap t w) i).
  { intros i Hi. rewrite length_app, Nat2N.inj_add in Hi.
    rewrite (write_frame _ _ _ _ Hw2) by (right; lia).
    apply (write_frame _ _ _ _ Hw1). right. lia. }
  assert (Hoth : forall b, b <> w -> upd (heap t) w w2 b = heap t b).
  { intros b Hb. unfold upd. destruct (Nat.eqb_spec b w); [contradiction|].
    reflexivity. }
  assert (Hs2 : sized (upd (heap t) w w2))
    by (apply sized_upd; [exact Hs|congruence]).
  assert (Hfit2 : N.of_nat (length (leftover ++ fresh)) <= BUFFER_SIZE)
    by (rewrite length_app, Nat2N.inj_add; lia).
  destruct ((N.of_nat (length fresh) =? 0) && eofbit stream1);
    intros Q; inv Q; exists w, free1, p, ps, leftover;
    cbv zeta; cbn [heap fst]; rewrite upd_same;
    (split; [reflexivity|]); (split; [reflexivity|]);
    (split; [exact (eq_trans Hlen Hclamp)|]);
    repeat match goal with |- _ /\ _ => split end; auto.
Qed.

(** A turn of the producer goes through when both queues hold an entry and
    the part of the report's view that is copied lies inside its buffer. *)
Lemma threadFunc_turn_goes (t : state) (w : nat) (free1 : list nat)
  (p : ProcessedBuffer) (ps : list ProcessedBuffer) :
  sized (heap t) ->
  m_freeBuffersQueue t = w :: free1 ->
  m_processedBuffersQueue t = p :: ps ->
  (vlen (remaining_view p) = 0 \/
   voff (remaining_view p) +
   N.min (vlen (remaining_view p)) SPILL_OVER_AREA_SIZE <=
   size (heap t (vbuf (remaining_view p)))) ->
  exists e t', threadFunc_turn t = Ok (e, t').
Proof.
  intros Hs Hfree Hp Hin. destruct sizes_fit as [Hfit _].
  unfold threadFunc_turn. rewrite Hfree, Hp. cbv zeta.
  set (rv := remaining_view p) in *.
  pose proof (remainingSize_clamp rv) as Hclamp.
  assert (Hread : exists leftover,
             (if vlen rv =? 0 then Some []
              else read (heap t (vbuf rv)) (voff rv) (remainingSize rv))
             = Some leftover /\
             N.of_nat (length leftover) <= remainingSize rv).
  { destruct (N.eqb_spec (vlen rv) 0) as [Z|Z].
    - exists []. split; [reflexivity|]. cbn [length]. lia.
    - destruct Hin as [Hin|Hin]; [contradiction|].
      unfold read. rewrite Hclamp.
      replace (_ <=? _) with true by (symmetry; apply N.leb_le; exact Hin).
      eexists. split; [reflexivity|].
      rewrite length_map, indices_length, N2Nat.id. lia. }
  destruct Hread as (leftover & -> & Hlen).
  destruct (write_Some (heap t w) 0 leftover) as (w1 & Hw1 & Hz1 & _).
  { rewrite Hs. lia. }
  rewrite Hw1.
  pose proof (stream_read_count NEW_DATA_AREA_SIZE (m_inputStream t)) as Hc.
  destruct (stream_read NEW_DATA_AREA_SIZE (m_inputStream t))
    as [fresh stream1].
  cbn [fst] in Hc.
  destruct (write_Some w1 (remainingSize rv) fresh) as (w2 & Hw2 & _).
  { rewrite Hz1, Hs. lia. }
  rewrite Hw2.
  destruct ((N.of_nat (length fresh) =? 0) && eofbit stream1); eauto.
Qed.

(** C10.  Whatever report the consumer has returned, a turn of the
    producer stores nothing outside the work buffer.  Of the report's
    [remaining_view] it copies the first bytes, as many as the view is long
    and [SPILL_OVER_AREA_SIZE] at most (a longer view is cut down to the
    spill-over area before the copy), to the start of the work buffer; the
    read stores at most [NEW_DATA_AREA_SIZE] bytes right after them; the two
    together are not longer than a buffer, and every byte of the work buffer
    after them, and every other buffer, is as it was.  The turn goes through
    whenever both queues hold an entry and the bytes copied lie inside the
    buffer of the view. *)
Theorem threadFunc_turn_writes_inside (t : state) :
  sized (heap t) ->
  threadFunc_turn t <> BadWrite /\
  (forall e t', threadFunc_turn t = Ok (e, t') ->
     exists w free1 p ps leftover,
       m_freeBuffersQueue t = w :: free1 /\
       m_processedBuffersQueue t = p :: ps /\
       let rv := remaining_view p in
       let fresh := fst (stream_read NEW_DATA_AREA_SIZE (m_inputStream t)) in
       N.of_nat (length leftover) = N.min (vlen rv) SPILL_OVER_AREA_SIZE /\
       (forall i, (i < length leftover)%nat ->
          nth i leftover 0%Z =
          byte_at (heap t (vbuf rv)) (voff rv + N.of_nat i)) /\
       N.of_nat (length fresh) <= NEW_DATA_AREA_SIZE /\
       N.of_nat (length (leftover ++ fresh)) <= BUFFER_SIZE /\
       holds (heap t' w) 0 (leftover ++ fresh) /\
       (forall i, N.of_nat (length (leftover ++ fresh)) <= i ->
          byte_at (heap t' w) i = byte_at (heap t w) i) /\
       (forall b, b <> w -> heap t' b = heap t b) /\
       sized (heap t')) /\
  (forall w free1 p ps,
     m_freeBuffersQueue t = w :: free1 ->
     m_processedBuffersQueue t = p :: ps ->
     (vlen (remaining_view p) = 0 \/
      voff (remaining_view p) +
      N.min (vlen (remaining_view p)) SPILL_OVER_AREA_SIZE <=
      size (heap t (vbuf (remaining_view p)))) ->
     exists e t', threadFunc_turn t = Ok (e, t')).
Proof.
  intros Hs. split; [|split].
  - destruct (m_freeBuffersQueue t) as [|w free1] eqn:Hfree;
      [unfold threadFunc_turn; rewrite Hfree; discriminate|].
    destruct (m_processedBuffersQueue t) as [|p ps] eqn:Hp;
      [unfold threadFunc_turn; rewrite Hfree, Hp; discriminate|].
    destruct sizes_fit as [Hfit _].
    unfold threadFunc_turn. rewrite Hfree, Hp. cbv zeta.
    set (rv := remaining_view p).
    pose proof (remainingSize_clamp rv) as Hclamp.
    destruct (if vlen rv =? 0 then Some []
              else read (heap t (vbuf rv)) (voff rv) (remainingSize rv))
      as [leftover|] eqn:Hread; [|discriminate].
    assert (Hlen : N.of_nat (length leftover) <= remainingSize rv).
    { destruct (vlen rv =? 0).
      - inv Hread. cbn [length]. lia.
      - apply read_holds in Hread. lia. }
    destruct (write_Some (heap t w) 0 leftover) as (w1 & Hw1 & Hz1 & _).
    { rewrite Hs. lia. }
    rewrite Hw1.
    pose proof (stream_read_count NEW_DATA_AREA_SIZE (m_inputStream t)) as Hc.
    destruct (stream_read NEW_DATA_AREA_SIZE (m_inputStream t))
      as [fresh stream1].
    cbn [fst] in Hc.
    destruct (write_Some w1 (remainingSize rv) fresh) as (w2 & Hw2 & _).
    { rewrite Hz1, Hs. lia. }
    rewrite Hw2.
    destruct ((N.of_nat (length fresh) =? 0) && eofbit stream1); discriminate.
  - intros e t'. apply threadFunc_turn_stores. exact Hs.
  - intros w free1 p ps. apply threadFunc_turn_goes. exact Hs.
Qed.

(** *** One turn of the consumer *)

Section ConsumerFacts.

Variable S : Type.
Variable consume : S -> bytes -> S * N.

(** The contract of the consumer: of the bytes of a view it leaves at most
    the spill-over area unparsed. *)
Definition obeys : Prop :=
  forall cs shown,
    N.of_nat (length shown) - snd (consume cs shown) <= SPILL_OVER_AREA_SIZE.

Lemma consumer_turn_sentinel (cs : S) (t : state) :
  m_filledBuffersQueue t = [sentinel] ->
  exists t', consumer_turn S consume cs t = Ok (None, t').
Proof.
  intros Hf. unfold consumer_turn. rewrite Hf. cbn [sentinel buffer].
  eexists; reflexivity.
Qed.

Lemma consumer_turn_filled (cs : S) (t : state) (w : nat) (shown : bytes) :
  obeys ->
  sized (heap t) -> drained (m_inputStream t) ->
  m_filledBuffersQueue t = [filled_with w shown] ->
  m_processedBuffersQueue t = [] ->
  m_freeBuffersQueue t <> [] ->
  holds (heap t w) 0 shown ->
  exists cs' k t',
    consumer_turn S consume cs t = Ok (Some (cs', shown, firstn k shown), t') /\
    (k <= length shown)%nat /\
    ready t' (skipn k shown) /\
    m_inputStream t' = m_inputStream t.
Proof.
  intros Hc Hs Hd Hf Hp Hq Hh.
  unfold consumer_turn. rewrite Hf, Hp.
  cbn [filled_with buffer view vbuf voff vlen].
  rewrite (holds_read _ _ _ Hh).
  specialize (Hc cs shown).
  destruct (consume cs shown) as [cs' k0]. cbn [snd] in Hc.
  set (k := N.min k0 (N.of_nat (length shown))).
  assert (Hk : (N.to_nat k <= length shown)%nat) by (unfold k; lia).
  exists cs', (N.to_nat k). eexists. split; [reflexivity|].
  split; [exact Hk|]. split; [|reflexivity].
  unfold ready.
  cbn [heap m_filledBuffersQueue m_inputStream m_processedBuffersQueue
       m_freeBuffersQueue].
  split; [exact Hs|]. split; [reflexivity|]. split; [exact Hd|].
  eexists. split; [reflexivity|].
  cbn [remaining_view returned vbuf voff vlen].
  rewrite length_skipn.
  split; [lia|]. split; [unfold k; lia|]. split.
  - replace (0 + k) with (0 + N.of_nat (N.to_nat k)) by lia.
    apply holds_skipn; [exact Hh|exact Hk].
  - destruct (m_freeBuffersQueue t); [congruence|simpl; lia].
Qed.

(** *** Whole runs *)

(** What the consumer left of the last view of [log], [prev] when the log
    is empty. *)
Definition left_after (prev : bytes) (log : list (bytes * bytes)) : bytes :=
  match rev log with
  | (shown, parsed) :: _ => skipn (length parsed) shown
  | [] => prev
  end.

Lemma left_after_cons (prev shown parsed : bytes) (log : list (bytes * bytes)) :
  left_after prev ((shown, parsed) :: log) =
  left_after (skipn (length parsed) shown) log.
Proof.
  unfold left_after. cbn [rev].
  destruct (rev log) as [|[s p] l]; reflexivity.
Qed.

(** Each view of [log] is what was left of the view before it, at most the
    spill-over area, followed by new bytes of the input, and the consumer
    parsed a prefix of it. *)
Fixpoint chained (prev : bytes) (log : list (bytes * bytes)) : Prop :=
  match log with
  | [] => True
  | (shown, parsed) :: log' =>
      N.of_nat (length prev) <= SPILL_OVER_AREA_SIZE /\
      (exists fresh, fresh <> [] /\ shown = prev ++ fresh) /\
      parsed = firstn (length parsed) shown /\
      chained (skipn (length parsed) shown) log'
  end.

Lemma pipeline_ready (fuel : nat) :
  obeys ->
  forall (cs : S) (t : state) (log : list (bytes * bytes)) (L : bytes),
    ready t L ->
    (length (pending (m_inputStream t)) < fuel)%nat ->
    exists log',
      pipeline S consume fuel cs t log = Ok (log ++ log') /\
      consumed log' ++ left_after L log' = L ++ pending (m_inputStream t) /\
      chained L log'.
Proof.
  intros Hc. induction fuel as [|fuel IH]; intros cs t log L Hr Hfuel; [lia|].
  assert (Hspill : N.of_nat (length L) <= SPILL_OVER_AREA_SIZE)
    by (destruct Hr as (_ & _ & _ & p & _ & _ & Q & _); exact Q).
  destruct (threadFunc_turn_ready t L Hr)
    as (fresh & w & t1 & Hturn & Hsplit & Hcount & Hd & Hs & Hp & Hq & Hh).
  cbn [pipeline].
  destruct Hturn as [(-> & Hnone & Ht & Hf)|(Hne & Ht & Hf)]; rewrite Ht.
  - destruct (consumer_turn_sentinel cs t1 Hf) as [t2 Hcons]. rewrite Hcons.
    exists []. rewrite app_nil_r, Hnone.
    split; [reflexivity|]. split; [symmetry; apply app_nil_r|exact I].
  - destruct (consumer_turn_filled cs t1 w (L ++ fresh) Hc Hs Hd Hf Hp Hq Hh)
      as (cs' & k & t2 & Hcons & Hk & Hr2 & Hin).
    rewrite Hcons. cbv beta iota.
    destruct (IH cs' t2 (log ++ [(L ++ fresh, firstn k (L ++ fresh))])
                 (skipn k (L ++ fresh)) Hr2) as (log' & Hrun & Hdata & Hch).
    { rewrite Hin. rewrite Hsplit, length_app in Hfuel.
      destruct fresh; [congruence|]. simpl in Hfuel. lia. }
    exists ((L ++ fresh, firstn k (L ++ fresh)) :: log').
    assert (Hlen : length (firstn k (L ++ fresh)) = k)
      by (rewrite length_firstn; lia).
    split; [rewrite <- app_assoc in Hrun; exact Hrun|]. split.
    + rewrite left_after_cons, Hlen. unfold consumed in *.
      cbn [map snd concat]. rewrite <- app_assoc, Hdata, Hin.
      rewrite app_assoc, firstn_skipn, Hsplit, app_assoc. reflexivity.
    + cbn [chained]. rewrite Hlen. split; [exact Hspill|].
      split; [exists fresh; auto|]. split; [reflexivity|exact Hch].
Qed.

Lemma start_ready (input : bytes) : ready (start input) [].
Proof.
  unfold ready, start.
  cbn [heap m_filledBuffersQueue m_inputStream m_processedBuffersQueue
       m_freeBuffersQueue].
  split; [intros b; reflexivity|]. split; [reflexivity|].
  split; [intros E; discriminate|].
  eexists. split; [reflexivity|].
  cbn [remaining_view returned empty_view vbuf voff vlen length].
  split; [reflexivity|]. split; [discriminate|].
  split; [split; [discriminate|intros i Hi; inversion Hi]|].
  simpl. lia.
Qed.

(** C9, as the code has it.  With a consumer that keeps its contract, a
    run over a finite input ends at the sentinel, and the prefixes the
    consumer parsed, followed by what it left of the last view, are the
    input: nothing is lost or shown out of order before that.  Each view
    starts with what was left of the one before, at most the spill-over
    area, and goes on with new bytes. *)
Theorem run_delivers_input (cs : S) (input : bytes) :
  obeys ->
  exists log,
    run consume cs input = Ok log /\
    consumed log ++ last_leftover log = input /\
    chained [] log.
Proof.
  intros Hc.
  destruct (pipeline_ready (Datatypes.S (length input)) Hc cs (start input)
              [] [] (start_ready input)) as (log & Hrun & Hdata & Hch).
  { cbn [start m_inputStream pending]. lia. }
  exists log. split; [exact Hrun|]. split; [exact Hdata|exact Hch].
Qed.

End ConsumerFacts.

End IOThreadFacts.

Module IOThreadScenarios.

Import IOThread IOThreadFacts.

Local Open Scope N_scope.

(** A consumer that parses all of a view but its last byte, as one that
    waits for the rest of a packet does. *)
Definition keeps_last_byte (cs : unit) (shown : bytes) : unit * N :=
  (cs, N.of_nat (length shown) - 1).

Lemma keeps_last_byte_obeys : obeys unit keeps_last_byte.
Proof.
  intros cs shown. unfold keeps_last_byte. cbn [snd].
  assert (1 <= SPILL_OVER_AREA_SIZE) by (vm_compute; discriminate). lia.
Qed.

(** C9, as stated, fails: the byte the consumer left of the last view is
    copied to the next buffer, but the read that follows finds the end of
    the input, and the sentinel is sent in place of that buffer. *)
Lemma run_drops_last_leftover :
  obeys unit keeps_last_byte /\
  run keeps_last_byte tt [1; 2; 3]%Z = Ok [([1; 2; 3], [1; 2])]%Z /\
  consumed [([1; 2; 3], [1; 2])]%Z <> [1; 2; 3]%Z.
Proof.
  split; [exact keeps_last_byte_obeys|].
  split; [vm_compute; reflexivity|]. vm_compute. discriminate.
Qed.

Lemma run_delivers_input_witness :
  exists log,
    run keeps_last_byte tt [1; 2; 3]%Z = Ok log /\
    consumed log ++ last_leftover log = [1; 2; 3]%Z /\
    chained [] log.
Proof.
  exact (run_delivers_input unit keeps_last_byte tt [1; 2; 3]%Z
           keeps_last_byte_obeys).
Defined.

(** A report whose view is five bytes longer than the spill-over area, on
    buffers whose byte [i] is [i mod 256], with two bytes of input left. *)
Definition oversized_report : ProcessedBuffer :=
  {| returned := Some 0%nat;
     remaining_view := {| vbuf := 0; voff := 10;
                          vlen := SPILL_OVER_AREA_SIZE + 5 |} |}.

Definition oversized : state :=
  {| heap := fun _ => {| size := BUFFER_SIZE;
                         byte_at := fun i => Z.of_N (i mod 256) |};
     m_inputStream := {| pending := [7; 8]%Z; eofbit := false |};
     m_freeBuffersQueue := [1; 2]%nat;
     m_filledBuffersQueue := [];
     m_processedBuffersQueue := [oversized_report] |}.

Lemma threadFunc_turn_writes_inside_witness :
  exists e t' leftover,
    threadFunc_turn oversized = Ok (e, t') /\
    N.of_nat (length leftover) = SPILL_OVER_AREA_SIZE /\
    nth 0 leftover 0%Z = 10%Z /\
    holds (heap t' 1%nat) 0 (leftover ++ [7; 8]%Z) /\
    (forall i, SPILL_OVER_AREA_SIZE + 2 <= i ->
       byte_at (heap t' 1%nat) i = Z.of_N (i mod 256)) /\
    heap t' 0%nat = heap oversized 0%nat /\
    sized (heap t').
Proof.
  assert (Hs : sized (heap oversized)) by (intros b; reflexivity).
  destruct (threadFunc_turn_writes_inside oversized Hs) as (_ & Hok & Hgo).
  destruct (Hgo 1%nat [2%nat] oversized_report [] eq_refl eq_refl)
    as (e & t' & E).
  { right. vm_compute. discriminate. }
  destruct (Hok e t' E)
    as (w & free1 & p & ps & leftover & Hf & Hp & Hlen & Hfrom & _ & _ &
        Hh & Hout & Hoth & Hs').
  assert (Ew : w = 1%nat) by (cbn in Hf; congruence).
  assert (Ep : p = oversized_report) by (cbn in Hp; congruence).
  subst w p.
  assert (Hfresh : fst (stream_read NEW_DATA_AREA_SIZE (m_inputStream oversized))
                   = [7; 8]%Z) by (vm_compute; reflexivity).
  rewrite Hfresh in Hh, Hout.
  assert (Hspill : N.min (vlen (remaining_view oversized_report))
                         SPILL_OVER_AREA_SIZE = SPILL_OVER_AREA_SIZE)
    by (vm_compute; reflexivity).
  rewrite Hspill in Hlen.
  assert (Hpos : 0 < SPILL_OVER_AREA_SIZE) by reflexivity.
  exists e, t', leftover.
  split; [exact E|]. split; [exact Hlen|]. split.
  { rewrite Hfrom by lia. reflexivity. }
  split; [exact Hh|]. split.
  { intros i Hi. rewrite Hout; [reflexivity|].
    rewrite length_app, Nat2N.inj_add, Hlen. exact Hi. }
  split; [apply Hoth; discriminate|exact Hs'].
Defined.

End IOThreadScenarios.

(** ** The traces of AcasCard *)

Module AcasCardTraces.

Import AcasCard AcasCardFacts.

Section WithCard.

Context {card : Type} `{ISmartCard card}.

Variable masterKey : bytes.

Local Abbreviation env := (@AcasCard.env card).

(** *** Transactions *)









(** *** The order of the exchanges *)

Lemma pass_authenticated (ecm : bytes) (rc : Z) (new : list event)
  (x : outcome pass_exit) (st2 : Z) (resp2 : ApduResponse) :
  pass_shape masterKey ecm rc new x ->
  In (EvTransmit (ecm_apdu ecm) st2 resp2) new ->
  exists l a0init st resp kcl,
    new = l ++ [EvTransmit (a0_apdu a0init) st resp;
                EvTransmit (ecm_apdu ecm) st2 resp2; EvEnd] /\
    a0_verdict masterKey a0init st resp = Ret (Some kcl).
Proof.
  intros P I.
  inversion P as [pre r0 F R|pre body r0 F T]; subst.
  - exfalso. eapply setup_no_transmit; eauto.
  - apply in_app_iff in I as [I|[I|I]];
      [exfalso; eapply setup_no_transmit; eauto|discriminate|].
    apply in_app_iff in I as [I|[I|[]]]; [|discriminate].
    inversion T as [pre' r F' R|pre' a0init st resp' r F' V|
                    pre' a0init st resp' kcl st2' resp2' F' V]; subst.
    + exfalso. eapply setup_no_transmit; eauto.
    + exfalso. apply in_app_iff in I as [I|[I|[]]].
      * eapply setup_no_transmit; eauto.
      * apply (a0_apdu_not_ecm a0init ecm). congruence.
    + apply in_app_iff in I as [I|[I|[I|[]]]].
      * exfalso. eapply setup_no_transmit; eauto.
      * exfalso. apply (a0_apdu_not_ecm a0init ecm). congruence.
      * inv I. exists (pre ++ EvBegin :: pre'), a0init, st, resp', kcl.
        split; auto.
        repeat (rewrite <- app_assoc || rewrite <- app_comm_cons). reflexivity.
Qed.

Lemma run_authenticated (ecm : bytes) (rc : Z) (new : list event)
  (r : outcome (option DecryptionKey)) (st2 : Z) (resp2 : ApduResponse) :
  run_shape masterKey ecm rc new r ->
  In (EvTransmit (ecm_apdu ecm) st2 resp2) new ->
  exists l l' a0init st resp kcl,
    new = l ++ [EvTransmit (a0_apdu a0init) st resp;
                EvTransmit (ecm_apdu ecm) st2 resp2; EvEnd] ++ l' /\
    a0_verdict masterKey a0init st resp = Ret (Some kcl).
Proof.
  intros R I.
  induction R as [rc new r P|rc new P|rc new P|rc rc' new new' r P R IH];
    try (destruct (pass_authenticated _ _ _ _ _ _ P I)
           as (l & a0init & st & resp & kcl & -> & V);
         exists l, [], a0init, st, resp, kcl; rewrite app_nil_r; auto; fail).
  apply in_app_iff in I as [I|I].
  - destruct (pass_authenticated _ _ _ _ _ _ P I)
      as (l & a0init & st & resp & kcl & -> & V).
    exists l, new', a0init, st, resp, kcl. rewrite <- app_assoc. auto.
  - destruct (IH I) as (l & l' & a0init & st & resp & kcl & -> & V).
    exists (new ++ l), l', a0init, st, resp, kcl. rewrite <- app_assoc. auto.
Qed.

(** The ECM goes to the card only after the card has proved itself: every
    34 command of a call comes right after an A0 exchange of the same
    transaction whose answer was accepted (transport success, 0x9000, and
    the tag SHA256(kcl || a0init) at 0x0E), and the transaction is closed
    right after its answer. *)
Theorem ecm_command_follows_authentication (ecm : bytes) (s s' : env)
  (r : outcome (option DecryptionKey)) (new : list event) (st2 : Z)
  (resp2 : ApduResponse) :
  AcasCard.ecm masterKey ecm s = (r, s') ->
  trace s' = trace s ++ new ->
  In (EvTransmit (ecm_apdu ecm) st2 resp2) new ->
  exists l l' a0init resp,
    new = l ++ [EvTransmit (a0_apdu a0init) SCARD_S_SUCCESS resp;
                EvTransmit (ecm_apdu ecm) st2 resp2; EvEnd] ++ l' /\
    isSuccess resp = true /\
    let kcl := SHA256.hash (masterKey ++ a0init ++
                            firstn 8 (skipn 0x06 (getData resp))) in
    SHA256.hash (kcl ++ a0init) = firstn 32 (skipn 0x0E (getData resp)).
Proof.
  intros E T I.
  apply ecm_inv in E as [(_ & _ & ->)|(new' & r0 & (T' & _) & R & _)].
  - rewrite <- (app_nil_r (trace s)) in T at 1.
    apply app_inv_head in T. subst new. contradiction.
  - rewrite T' in T. apply app_inv_head in T. subst new'.
    destruct (run_authenticated _ _ _ _ _ _ R I)
      as (l & l' & a0init & st & resp & kcl & -> & V).
    apply a0_verdict_Some in V as (-> & S1 & _ & -> & T1).
    exists l, l', a0init, resp. auto.
Qed.

(** *** Short ECMs *)

Lemma ecm_verdict_short_ecm (kcl ecm : bytes) (rc : Z) (resp : ApduResponse) :
  isSuccess resp = true ->
  (length ecm < 0x04 + 0x17)%nat ->
  ecm_verdict kcl ecm rc SCARD_S_SUCCESS resp = Undefined.
Proof.
  intros E L. unfold ecm_verdict. rewrite E. cbn [negb Z.eqb SCARD_S_SUCCESS].
  destruct (slice_from _ _) as [ecmResponse|]; auto.
  replace (slice ecm 4 (4 + 23)) with (@None bytes); [reflexivity|].
  symmetry. apply slice_None. right. exact L.
Qed.

(** The ECM itself is not checked for its length either: when the card
    answers the 34 command with 0x9000, an ECM of fewer than 0x04 + 0x17
    bytes is read past its end for [ecmInit]. *)
Theorem short_ecm_undefined (ecm : bytes) (s s' : env)
  (r : outcome (option DecryptionKey)) (new : list event)
  (resp : ApduResponse) :
  AcasCard.ecm masterKey ecm s = (r, s') ->
  trace s' = trace s ++ new ->
  In (EvTransmit (ecm_apdu ecm) SCARD_S_SUCCESS resp) new ->
  isSuccess resp = true ->
  (length ecm < 0x04 + 0x17)%nat ->
  r = Undefined.
Proof.
  intros E T I S L.
  apply ecm_inv in E as [(_ & _ & ->)|(new' & r0 & (T' & _) & R & ->)].
  - rewrite <- (app_nil_r (trace s)) in T at 1.
    apply app_inv_head in T. subst new. contradiction.
  - rewrite T' in T. apply app_inv_head in T. subst new'.
    destruct (run_answered _ _ _ _ _ _ R I) as (kcl & rc' & l & -> & V).
    rewrite ecm_verdict_short_ecm in V by assumption.
    destruct r0 as [[k|]| | |]; try discriminate. reflexivity.
Qed.


(** *** When the call is defined *)

(** A trace is flawed when it holds an answer on which the code reads past
    the end of a vector. *)
Definition flawed (ecm : bytes) (new : list event) : Prop :=
  exists apdu st resp,
    In (EvTransmit apdu st resp) new /\
    ((exists a0init, apdu = a0_apdu a0init /\
                     a0_verdict masterKey a0init st resp = Undefined) \/
     (apdu = ecm_apdu ecm /\
      exists kcl rc, ecm_verdict kcl ecm rc st resp = Undefined)).

Lemma flawed_app_l (ecm : bytes) (l1 l2 : list event) :
  flawed ecm l1 -> flawed ecm (l1 ++ l2).
Proof.
  intros (a & st & r & I & C). exists a, st, r. split; auto.
  apply in_or_app. auto.
Qed.

Lemma flawed_app_r (ecm : bytes) (l1 l2 : list event) :
  flawed ecm l2 -> flawed ecm (l1 ++ l2).
Proof.
  intros (a & st & r & I & C). exists a, st, r. split; auto.
  apply in_or_app. auto.
Qed.

Lemma transaction_undefined (ecm : bytes) (rc : Z) (s s' : env) :
  ecm_transaction masterKey ecm rc s = (Undefined, s') ->
  smartCard s <> None ->
  exists new, grows s s' new /\ flawed ecm new.
Proof.
  unfold ecm_transaction, bind. intros Q P.
  destruct (getA0AuthKcl masterKey s) as [r0 s0] eqn:E0.
  apply getA0AuthKcl_inv in E0
    as (D0 & pre & F0 & [(G0 & R0)|(st & resp & G0 & N0 & ->)]).
  - destruct R0 as [->|[-> N]]; [discriminate|contradiction].
  - destruct (a0_verdict_cases masterKey (next_a0init s) st resp)
      as [V|([kcl|] & V)]; rewrite V in Q.
    + inv Q. eexists; split; [exact G0|].
      exists (a0_apdu (next_a0init s)), st, resp. split.
      * apply in_or_app. right. left. reflexivity.
      * left. eauto.
    + destruct (do_transmit _ s0) as [r3 s3] eqn:E3.
      apply call_inv in E3
        as [D3 [(E & -> & ->)|[(c & c' & a & _ & _ & -> & G3)|(c & _ & -> & G3)]]];
        [congruence| |discriminate].
      assert (Undefined = ecm_verdict kcl ecm rc (fst a) (snd a) /\ s' = s3)
        as [V2 ->].
      { revert Q. unfold ecm_verdict, vec, ret.
        repeat match goal with
               | |- context [if ?b then _ else _] => destruct b
               | |- context [match ?o with Some _ => _ | None => _ end] =>
                   destruct o
               end; intros Q; inv Q; auto. }
      eexists; split; [exact (grows_trans _ _ _ _ _ G0 G3)|].
      exists (ecm_apdu ecm), (fst a), (snd a). split.
      * apply in_or_app. right. left. reflexivity.
      * right. split; [reflexivity|]. eauto.
    + discriminate.
Qed.

Lemma pass_undefined (ecm : bytes) (rc : Z) (s s' : env) :
  pass masterKey ecm rc s = (Undefined, s') ->
  smartCard s <> None ->
  exists new, grows s s' new /\ flawed ecm new.
Proof.
  unfold pass, bind. intros Q P.
  destruct (ensure_inited s) as [r1 s1] eqn:E1.
  apply ensure_inited_inv in E1 as (l1 & G1 & D1 & F1 & R1 & U1).
  destruct R1 as [->|[->| ->]]; [|discriminate|exfalso; auto].
  destruct (ensure_connected s1) as [r2 s2] eqn:E2.
  apply ensure_connected_inv in E2 as (l2 & G2 & D2 & F2 & R2 & U2).
  assert (P1 : smartCard s1 <> None) by (intros N; apply G1 in N; auto).
  destruct R2 as [->|[->| ->]]; [|discriminate|exfalso; auto].
  assert (P2 : smartCard s2 <> None) by (intros N; apply G2 in N; auto).
  pose proof (grows_trans _ _ _ _ _ G1 G2) as G12.
  unfold scoped in Q.
  destruct (call scopedTransaction _ s2) as [r3 s3] eqn:E3.
  apply call_inv in E3
    as [D3 [(E & -> & ->)|[(c & c' & a & Ec & _ & -> & G3)|(c & _ & -> & G3)]]];
    [contradiction| |discriminate].
  assert (P3 : smartCard s3 <> None) by (intros N; apply G3 in N; auto).
  destruct (ecm_transaction masterKey ecm rc s3) as [r4 s4] eqn:E4.
  assert (r4 = Undefined) by (inv Q; reflexivity). subst r4.
  destruct (transaction_undefined _ _ _ _ E4 P3) as (body & G4 & Fl).
  inv Q. exists ((l1 ++ l2) ++ [EvBegin] ++ body ++ [EvEnd]). split.
  - apply (grows_trans _ _ _ _ _ G12).
    apply (grows_trans _ _ _ _ _ G3).
    apply (grows_trans _ _ _ _ _ G4).
    destruct (smartCard s4) as [c4|] eqn:E5.
    + unfold grows; simpl. rewrite E5. intuition congruence.
    + exfalso. apply G4 in E5. auto.
  - apply flawed_app_r, flawed_app_r, flawed_app_l. exact Fl.
Qed.

Lemma retry_undefined (fuel : nat) (ecm : bytes) (rc : Z) (s s' : env) :
  ecm_retry masterKey fuel ecm rc s = (Undefined, s') ->
  smartCard s <> None ->
  exists new, grows s s' new /\ flawed ecm new.
Proof.
  revert rc s. induction fuel as [|fuel IH]; intros rc s; [discriminate|].
  rewrite ecm_retry_unfold.
  destruct (pass masterKey ecm rc s) as [x s1] eqn:P.
  destruct x as [[r0|rc']| | |]; try discriminate.
  - intros Q N. apply pass_inv in P as (new & G & _).
    destruct (IH _ _ Q) as (new' & G' & Fl).
    { intros E. apply G in E. auto. }
    exists (new ++ new'). split; [eapply grows_trans; eauto|].
    apply flawed_app_r. exact Fl.
  - intros Q N. inv Q. eapply pass_undefined; eauto.
Qed.

Lemma a0_verdict_undefined (a0init : bytes) (st : Z) (resp : ApduResponse) :
  a0_verdict masterKey a0init st resp = Undefined ->
  st = SCARD_S_SUCCESS /\ isSuccess resp = true /\
  (length (getData resp) < 0x0E + 32)%nat.
Proof.
  intros V.
  destruct (Z.eqb_spec st SCARD_S_SUCCESS) as [E|E].
  2:{ exfalso. revert V. unfold a0_verdict.
      replace (st =? SCARD_S_SUCCESS) with false
        by (symmetry; apply Z.eqb_neq; exact E).
      discriminate. }
  destruct (isSuccess resp) eqn:S1.
  2:{ rewrite a0_verdict_rejected in V by exact S1. discriminate. }
  split; [exact E|]. split; [reflexivity|].
  destruct (Nat.lt_ge_cases (length (getData resp)) (0x0E + 32)) as [L|L];
    [exact L|].
  destruct (a0_verdict_full masterKey a0init st resp L) as [[Q|Q] _];
    congruence.
Qed.

Lemma ecm_verdict_undefined (kcl ecm : bytes) (rc st : Z)
  (resp : ApduResponse) :
  ecm_verdict kcl ecm rc st resp = Undefined ->
  st = SCARD_S_SUCCESS /\ isSuccess resp = true /\
  ((length (getData resp) < 0x06 + 32)%nat \/ (length ecm < 0x04 + 0x17)%nat).
Proof.
  unfold ecm_verdict.
  destruct (st =? SCARD_S_SUCCESS) eqn:E1; cbn [negb].
  2:{ destruct (_ || _); discriminate. }
  destruct (isSuccess resp) eqn:E2; cbn [negb]; [|discriminate].
  apply Z.eqb_eq in E1. intros V. split; [exact E1|]. split; [reflexivity|].
  destruct (slice_from (getData resp) 6) as [ecmResponse|] eqn:E3.
  2:{ left. unfold slice_from in E3.
      destruct (6 <=? length (getData resp))%nat eqn:L1; [discriminate|].
      apply Nat.leb_gt in L1. lia. }
  apply slice_from_Some in E3 as [L3 ->].
  destruct (slice ecm 4 (4 + 23)) as [ecmInit|] eqn:E4.
  2:{ right. apply slice_None in E4 as [E4|E4]; lia. }
  left. unfold xor_in_place in V. rewrite hash_length, length_skipn in V.
  destruct (32 <=? length (getData resp) - 6)%nat eqn:L5; [discriminate|].
  apply Nat.leb_gt in L5. lia.
Qed.

(** What the code needs to be defined.  With a port, an ECM of at least
    0x04 + 0x17 bytes and answers that, when they report success, carry
    at least 0x0E + 32 data bytes (A0) and 0x06 + 32 data bytes (34), a
    call of [AcasCard::ecm] returns [true] or [false]: it reads nothing
    past the end of a vector, whatever else the card and the port do. *)
Theorem ecm_defined_on_full_responses (ecm : bytes) (s s' : env)
  (r : outcome (option DecryptionKey)) (new : list event) :
  AcasCard.ecm masterKey ecm s = (r, s') ->
  trace s' = trace s ++ new ->
  (0x04 + 0x17 <= length ecm)%nat ->
  (forall a0init resp,
      In (EvTransmit (a0_apdu a0init) SCARD_S_SUCCESS resp) new ->
      isSuccess resp = true ->
      (0x0E + 32 <= length (getData resp))%nat) ->
  (forall resp,
      In (EvTransmit (ecm_apdu ecm) SCARD_S_SUCCESS resp) new ->
      isSuccess resp = true ->
      (0x06 + 32 <= length (getData resp))%nat) ->
  exists b, r = Ret b.
Proof.
  intros E T L A0 A34.
  destruct (AcasHandlerFacts.ecm_outcome masterKey ecm s) as [[b Q]|Q];
    rewrite E in Q; cbn [fst] in Q; [eauto|].
  subst r. exfalso. revert E. unfold AcasCard.ecm.
  destruct (smartCard s) as [c|] eqn:P; [|discriminate].
  destruct (ecm_retry masterKey 3 ecm 0 s) as [r0 s0] eqn:R.
  intros Q. assert (r0 = Undefined /\ s0 = s') as [-> ->]
    by (destruct r0; inv Q; auto).
  destruct (retry_undefined _ _ _ _ _ R) as (new' & (T' & _) & Fl);
    [congruence|].
  rewrite T' in T. apply app_inv_head in T. subst new'.
  destruct Fl as (apdu & st & resp & I & [(a0init & -> & V)|(-> & kcl & rc & V)]).
  - apply a0_verdict_undefined in V as (-> & S1 & L1).
    specialize (A0 _ _ I S1). lia.
  - apply ecm_verdict_undefined in V as (-> & S1 & [L1|L1]); [|lia].
    specialize (A34 _ I S1). lia.
Qed.


(** *** The A0 command *)

Lemma next_a0init_bytes (s : env) :
  length (next_a0init s) = 8%nat /\
  Forall (fun b => 0 <= b < 256) (next_a0init s).
Proof.
  unfold next_a0init. split.
  - rewrite length_map, length_seq. reflexivity.
  - apply Forall_forall. intros b I. apply in_map_iff in I as (i & <- & _).
    unfold to_uint8. apply Z.mod_pos_bound. lia.
Qed.

(** The A0 command as it goes out: the header 90 A0 00 01, the length 0x10,
    the eight fixed bytes, the eight bytes just drawn (each cut to a byte)
    and a closing 00, 22 bytes in all; every call draws eight values, also
    when it sends nothing. *)
Theorem a0_command_on_the_wire (s s' : env) (r : outcome (option bytes))
  (pre : list event) (apdu : bytes) (st : Z) (resp : ApduResponse) :
  getA0AuthKcl masterKey s = (r, s') ->
  trace s' = trace s ++ pre ++ [EvTransmit apdu st resp] ->
  apdu = [0x90; 0xA0; 0x00; 0x01; 0x10;
          0x00; 0x00; 0x00; 0x01; 0x00; 0x00; 0x8A; 0xF7] ++
         next_a0init s ++ [0x00] /\
  length apdu = 22%nat /\
  Forall (fun b => 0 <= b < 256) apdu /\
  drawn s' = (drawn s + 8)%nat.
Proof.
  intros E T.
  destruct (next_a0init_bytes s) as [L B].
  apply getA0AuthKcl_inv in E
    as (D & pre' & F & [((T' & _) & _)|(st' & resp' & (T' & _) & _ & _)]).
  - exfalso. rewrite T' in T. apply app_inv_head in T. subst pre'.
    eapply setup_no_transmit; [exact F|]. apply in_app_iff. right. left.
    reflexivity.
  - rewrite T' in T. apply app_inv_head in T.
    apply app_inj_tail in T as [_ T].
    assert (A : apdu = a0_apdu (next_a0init s)) by congruence. subst apdu.
    unfold a0_apdu, case4short. cbn [cla ins p1 p2].
    unfold bytes, byte in *.
    replace (to_uint8 (Z.of_nat (length ([0; 0; 0; 1; 0; 0; 138; 247] ++
                                         next_a0init s)))) with 0x10
      by (rewrite length_app, L; reflexivity).
    split; [reflexivity|]. split.
    + rewrite !length_app, L. reflexivity.
    + split; [|exact D]. cbn [app].
      repeat (apply Forall_cons; [lia|]).
      apply Forall_app. split; [exact B|].
      apply Forall_cons; [lia|apply Forall_nil].
Qed.

End WithCard.

End AcasCardTraces.

(** ** The traces of AcasCard against the simulated card *)

Module AcasCardTracesScenarios.

Import AcasCard AcasCardFacts AcasCardTraces SimCard.
Import AcasCardScenarios.

(** The reply of the card in the [n]-th event of a trace. *)
Definition reply_at (n : nat) (t : list event) : ApduResponse :=
  match nth n t EvEnd with
  | EvTransmit _ _ r => r
  | _ => {| data := []; sw1 := 0; sw2 := 0 |}
  end.

(** A port that throws when the 34 command is sent. *)
Local Abbreviation ecm_thrown :=
  (AcasCard.ecm test_key test_ecm (test_env [Honest; Throws])).

Example ecm_thrown_trace :
  fst ecm_thrown = Ret None /\
  map is_begin (trace (snd ecm_thrown)) =
    [false; false; true; false; false].
Proof. vm_compute. split; reflexivity. Qed.


(** The honest card, and one that refuses the first A0 command. *)
Local Abbreviation ecm_honest :=
  (AcasCard.ecm test_key test_ecm (test_env [])).

Local Abbreviation ecm_a0_rejected :=
  (AcasCard.ecm test_key test_ecm (test_env [Reject 0x6A 0x86])).

Lemma ecm_command_follows_authentication_witness :
  exists l l' a0init resp,
    trace (snd ecm_honest) =
      l ++ [EvTransmit (a0_apdu a0init) SCARD_S_SUCCESS resp;
            EvTransmit (ecm_apdu test_ecm) SCARD_S_SUCCESS
                       (reply_at 4 (trace (snd ecm_honest)));
            EvEnd] ++ l' /\
    isSuccess resp = true /\
    let kcl := SHA256.hash (test_key ++ a0init ++
                            firstn 8 (skipn 0x06 (getData resp))) in
    SHA256.hash (kcl ++ a0init) = firstn 32 (skipn 0x0E (getData resp)).
Proof.
  apply (ecm_command_follows_authentication test_key test_ecm (test_env [])
           (snd ecm_honest) (fst ecm_honest) (trace (snd ecm_honest))
           SCARD_S_SUCCESS (reply_at 4 (trace (snd ecm_honest)))).
  - apply surjective_pairing.
  - symmetry. apply app_nil_l.
  - vm_compute. tauto.
Defined.

(** An ECM of ten bytes, which an honest card answers all the same. *)
Local Abbreviation ecm_ten :=
  (AcasCard.ecm test_key (repeat 0x40 10) (test_env [])).

Lemma short_ecm_undefined_witness : fst ecm_ten = Undefined.
Proof.
  apply (short_ecm_undefined test_key (repeat 0x40 10) (test_env [])
           (snd ecm_ten) (fst ecm_ten) (trace (snd ecm_ten))
           (reply_at 4 (trace (snd ecm_ten)))).
  - apply surjective_pairing.
  - symmetry. apply app_nil_l.
  - vm_compute. tauto.
  - vm_compute. reflexivity.
  - vm_compute. lia.
Defined.

(** What that call exchanges: a refused A0 command, then a whole
    transaction. *)
Definition rejected_trace : list event :=
  Eval vm_compute in trace (snd ecm_a0_rejected).

Lemma ecm_defined_on_full_responses_witness :
  exists b, fst ecm_a0_rejected = Ret b.
Proof.
  apply (ecm_defined_on_full_responses test_key test_ecm
           (test_env [Reject 0x6A 0x86]) (snd ecm_a0_rejected)
           (fst ecm_a0_rejected) rejected_trace).
  - apply surjective_pairing.
  - vm_compute. reflexivity.
  - vm_compute. lia.
  - intros a0init resp I S. unfold rejected_trace in I. cbn [In] in I.
    repeat (destruct I as [I|I]; [try discriminate I|]);
      try contradiction;
      injection I; intros; subst resp; try discriminate S; vm_compute; lia.
  - intros resp I S. unfold rejected_trace in I. cbn [In] in I.
    repeat (destruct I as [I|I]; [try discriminate I|]);
      try contradiction;
      injection I; intros; subst resp; try discriminate S; vm_compute; lia.
Defined.

Local Abbreviation a0_honest :=
  (getA0AuthKcl test_key (test_env [])).

Lemma a0_command_on_the_wire_witness :
  a0_apdu (map Z.of_nat (seq 1 8)) =
    [0x90; 0xA0; 0x00; 0x01; 0x10;
     0x00; 0x00; 0x00; 0x01; 0x00; 0x00; 0x8A; 0xF7] ++
    next_a0init (test_env []) ++ [0x00] /\
  length (a0_apdu (map Z.of_nat (seq 1 8))) = 22%nat /\
  Forall (fun b => 0 <= b < 256) (a0_apdu (map Z.of_nat (seq 1 8))) /\
  drawn (snd a0_honest) = (drawn (test_env []) + 8)%nat.
Proof.
  apply (a0_command_on_the_wire test_key (test_env []) (snd a0_honest)
           (fst a0_honest) [EvInit; EvConnect]
           (a0_apdu (map Z.of_nat (seq 1 8))) SCARD_S_SUCCESS
           (reply_at 2 (trace (snd a0_honest)))).
  - apply surjective_pairing.
  - vm_compute. reflexivity.
Defined.

End AcasCardTracesScenarios.

(** ** AcasCard and an honest card *)

Module AcasCardHonest.

Import AcasCard AcasCardFacts SimCard.

Lemma equal_self (a : bytes) : equal a a = Some true.
Proof.
  unfold equal. rewrite Nat.leb_refl, firstn_all, eqb_refl. reflexivity.
Qed.

Lemma xor_bytes_involutive (a b : bytes) :
  length a = length b -> xor_bytes a (xor_bytes a b) = b.
Proof.
  revert b. induction a as [|x a IH]; intros [|y b] L; try discriminate;
    [reflexivity|].
  cbn [xor_bytes]. rewrite IH by (simpl in L; lia).
  rewrite <- Z.lxor_assoc, Z.lxor_nilpotent, Z.lxor_0_l. reflexivity.
Qed.

Lemma unmask (x cw : bytes) :
  length cw = 32%nat ->
  xor_in_place (SHA256.hash x) (xor_bytes (SHA256.hash x) cw) = Some cw.
Proof.
  intros L. unfold xor_in_place.
  rewrite xor_bytes_length, hash_length, L. cbn [Nat.min Nat.leb].
  rewrite xor_bytes_involutive by (rewrite hash_length; auto). reflexivity.
Qed.

Lemma body_of_command (x1 x2 x3 x4 x5 : Z) (e : bytes) :
  firstn (length (x1 :: x2 :: x3 :: x4 :: x5 :: e ++ [0]) - 6)
         (skipn 5 (x1 :: x2 :: x3 :: x4 :: x5 :: e ++ [0])) = e.
Proof.
  cbn [skipn length]. rewrite length_app. cbn [length].
  replace (S (S (S (S (S (length e + 1))))) - 6)%nat with (length e) by lia.
  rewrite firstn_app, Nat.sub_diag, firstn_all. cbn [firstn].
  apply app_nil_r.
Qed.

Lemma slice_from_padded (a b c d f g : Z) (l : bytes) :
  slice_from (a :: b :: c :: d :: f :: g :: l) 6 = Some l.
Proof. reflexivity. Qed.

Lemma slice_ecm_init (e : bytes) :
  (27 <= length e)%nat -> slice e 4 27 = Some (firstn 23 (skipn 4 e)).
Proof.
  intros L. unfold slice.
  replace (27 <=? length e)%nat with true by (symmetry; apply Nat.leb_le; exact L).
  reflexivity.
Qed.

Section Honest.

Variable masterKey : bytes.

(** The A0 exchange with such a card. *)
Lemma honest_a0 (rnd : nat -> Z) (d : nat) (t : list event) (i k : bool)
  (n kc cw : bytes) :
  length n = 8%nat ->
  let a0init := map (fun j => to_uint8 (rnd (d + j)%nat)) (seq 0 8) in
  let kcl := SHA256.hash (masterKey ++ a0init ++ n) in
  exists t',
    getA0AuthKcl masterKey
      {| smartCard := Some {| inited := i; connected := k; script := [];
                              card_key := masterKey; card_nonce := n;
                              card_kcl := kc; control_words := cw |};
         random := rnd; drawn := d; trace := t |} =
    (Ret (Some kcl),
     {| smartCard := Some {| inited := true; connected := true; script := [];
                             card_key := masterKey; card_nonce := n;
                             card_kcl := kcl; control_words := cw |};
        random := rnd; drawn := (d + 8)%nat; trace := t' |}) /\
    passes t' = passes t.
Proof.
  intros Hn.
  do 9 (destruct n as [|? n]; try discriminate). clear Hn.
  cbv zeta.
  unfold getA0AuthKcl, bind, draw_bytes, ensure_inited, ensure_connected,
    query, call, do_transmit, vec, ret.
  destruct i, k;
    cbn -[SHA256.hash equal]; rewrite equal_self; cbn -[SHA256.hash];
    (eexists; split; [reflexivity|]);
    unfold log, set_card; cbn [trace];
    rewrite !passes_app; cbn [passes filter is_begin length]; lia.
Qed.

(** With a card that holds the master key and answers as the host expects
    (the tag SHA256(kcl || a0init) after its own eight nonce bytes, the
    control words masked with SHA256(kcl || ecm_init)), a call of
    [AcasCard::ecm] returns the control words of the card, the first 16
    bytes as the odd key and the last 16 as the even key, in one
    transaction and with eight values drawn: whatever the master key, the
    nonces of both sides, the ECM (27 bytes at least) and the state the
    port is in. *)
Theorem honest_card_round_trip (e : bytes) (s : @AcasCard.env card)
  (c : card) :
  smartCard s = Some c ->
  script c = [] ->
  card_key c = masterKey ->
  length (card_nonce c) = 8%nat ->
  length (control_words c) = 32%nat ->
  (0x04 + 0x17 <= length e)%nat ->
  exists s',
    AcasCard.ecm masterKey e s =
      (Ret (Some {| odd := firstn 16 (control_words c);
                    even := skipn 16 (control_words c) |}), s') /\
    drawn s' = (drawn s + 8)%nat /\
    passes (trace s') = (passes (trace s) + 1)%nat.
Proof.
  destruct s as [sc rnd d t]. destruct c as [i k scr ck n kc cw].
  cbn [smartCard script card_key card_nonce control_words drawn trace].
  intros -> -> -> Hn Hcw He.
  assert (Hev : firstn 16 (skipn 16 cw) = skipn 16 cw)
    by (apply firstn_all2; rewrite length_skipn; lia).
  rewrite <- Hev.
  unfold AcasCard.ecm, ecm_retry, ecm_transaction, scoped,
    bind, ensure_inited, ensure_connected, query, do_transmit, call, log,
    set_card.
  destruct i, k;
    cbn -[getA0AuthKcl firstn skipn length slice slice_from xor_in_place
          SHA256.hash];
    unfold set_flags;
    cbn [inited connected script card_key card_nonce card_kcl control_words];
    match goal with
    | |- context [getA0AuthKcl masterKey ?s0] =>
        destruct (honest_a0 rnd d (trace s0) true true n kc cw Hn)
          as (t' & A & P); cbn [trace] in A, P
    end;
    cbv zeta in A; rewrite A;
    cbn -[firstn skipn length slice slice_from xor_in_place SHA256.hash
          xor_bytes];
    rewrite body_of_command, slice_from_padded, slice_ecm_init by exact He;
    cbn -[firstn skipn length slice slice_from xor_in_place SHA256.hash
          xor_bytes];
    rewrite unmask by exact Hcw;
    cbn -[firstn skipn length SHA256.hash xor_bytes];
    (eexists; split; [reflexivity|]);
    cbn [drawn trace]; (split; [reflexivity|]);
    rewrite !passes_app, P, !passes_app;
    cbn [passes filter is_begin length]; lia.
Qed.

End Honest.

Lemma honest_card_round_trip_witness :
  exists s',
    AcasCard.ecm test_key test_ecm (test_env []) =
      (Ret (Some {| odd := firstn 16 (control_words (fresh []));
                    even := skipn 16 (control_words (fresh [])) |}), s') /\
    drawn s' = (drawn (test_env []) + 8)%nat /\
    passes (trace s') = (passes (trace (test_env [])) + 1)%nat.
Proof.
  apply (honest_card_round_trip test_key test_ecm (test_env []) (fresh []));
    try reflexivity.
  vm_compute. lia.
Defined.

End AcasCardHonest.

(** ** The ECM queue and the key of AcasHandler *)

Module AcasHandlerQueue.

Import AcasCard AcasCardFacts AcasHandler AcasHandlerFacts.

Section WithCard.

Context {card : Type} `{ISmartCard card}.

Variable masterKey : bytes.

Local Abbreviation state := (@AcasHandler.state card).

(** The ECMs of a stream handed to [onEcm] one after the other. *)
Definition feed (es : list bytes) (h : state) : state :=
  fold_left (fun h e => snd (onEcm e h)) es h.

(** A list without the elements that repeat the one before them, [last]
    being the one before the first. *)
Fixpoint squeeze (last : bytes) (es : list bytes) : list bytes :=
  match es with
  | [] => []
  | e :: es' =>
      if Bytes.eqb last e then squeeze last es' else e :: squeeze e es'
  end.

Lemma last_cons {A} (e d : A) (es : list A) : last (e :: es) d = last es e.
Proof.
  revert e d. induction es as [|b es IH]; intros e d; [reflexivity|].
  change (last (e :: b :: es) d) with (last (b :: es) d).
  rewrite !IH. reflexivity.
Qed.

Lemma onEcm_true (e : bytes) (h : state) : fst (onEcm e h) = true.
Proof. unfold onEcm. destruct (Bytes.eqb (lastEcm h) e); reflexivity. Qed.

Lemma onEcm_lastEcm (e : bytes) (h : state) : lastEcm (snd (onEcm e h)) = e.
Proof.
  unfold onEcm. destruct (Bytes.eqb (lastEcm h) e) eqn:E; [|reflexivity].
  apply eqb_eq in E. exact E.
Qed.

(** A stream of ECMs leaves in the queue, in order, the ECMs that differ
    from the one delivered before them: a run of equal ECMs is queued once,
    an ECM that comes back after another one is queued again.  Nothing
    else of the handler changes but [lastEcm] and [ecmReady]. *)
Theorem onEcm_feed (es : list bytes) (h : state) :
  queue (feed es h) = queue h ++ squeeze (lastEcm h) es /\
  lastEcm (feed es h) = last es (lastEcm h) /\
  ecmReady (feed es h) =
    (ecmReady h || negb (length (squeeze (lastEcm h) es) =? 0)%nat) /\
  key (feed es h) = key h /\
  acasCard (feed es h) = acasCard h /\
  lastPayloadKeyType (feed es h) = lastPayloadKeyType h.
Proof.
  revert h. induction es as [|e es IH]; intros h.
  - cbn [feed fold_left squeeze last length Nat.eqb negb].
    rewrite app_nil_r, orb_false_r. auto 10.
  - change (feed (e :: es) h) with (feed es (snd (onEcm e h))).
    destruct (IH (snd (onEcm e h))) as (Q & L & R & K & C & P).
    rewrite Q, L, R, K, C, P, onEcm_lastEcm. clear Q L R K C P IH.
    rewrite last_cons. cbn [squeeze]. unfold onEcm.
    destruct (Bytes.eqb (lastEcm h) e) eqn:E; cbn [snd].
    + apply eqb_eq in E. subst e. auto 10.
    + cbn [queue ecmReady key acasCard lastPayloadKeyType length Nat.eqb negb].
      rewrite <- app_assoc, orb_true_r. auto 10.
Qed.


Lemma worker_turn_keeps (h h' : state) :
  worker_turn masterKey h = Ret h' ->
  lastEcm h' = lastEcm h /\ ecmReady h' = ecmReady h /\
  lastPayloadKeyType h' = lastPayloadKeyType h /\ hasAESNI h' = hasAESNI h.
Proof.
  unfold worker_turn. destruct (queue h) as [|e rest]; [intros Q; inv Q; auto|].
  destruct (AcasCard.ecm masterKey e (acasCard h)) as [[[k|]| | |] c];
    intros T; inv T; auto.
Qed.

(** An ECM is handed to the card at most once, however the card answers.
    If [AcasCard::ecm] fails on it, the worker pops it all the same and
    leaves the key as it was; and since [lastEcm] remembers it, presenting
    the same ECM again queues nothing: the key of that ECM is not asked for
    again until another ECM has come in between. *)
Theorem failed_ecm_is_dropped (e : bytes) (h h2 : state) :
  queue h = [] ->
  Bytes.eqb (lastEcm h) e = false ->
  fst (AcasCard.ecm masterKey e (acasCard h)) = Ret None ->
  worker_turn masterKey (snd (onEcm e h)) = Ret h2 ->
  queue (snd (onEcm e h)) = [e] /\
  queue h2 = [] /\
  key h2 = key h /\
  onEcm e h2 = (true, h2).
Proof.
  intros Q E F W. unfold onEcm in *. rewrite E in *. cbn [snd] in *.
  unfold worker_turn in W. cbn [queue acasCard] in W. rewrite Q in *.
  cbn [app] in *.
  destruct (AcasCard.ecm masterKey e (acasCard h)) as [r c].
  cbn [fst] in F. subst r. inv W. cbn [queue key lastEcm].
  rewrite eqb_refl. auto.
Qed.

(** The pair in [key] changes only when the card has resolved an ECM:
    [onEcm] leaves it alone, and a turn of the worker either leaves it
    alone or stores the pair [AcasCard::ecm] returned for the ECM at the
    front of the queue. *)
Theorem key_comes_from_the_card (h h' : state) :
  worker_turn masterKey h = Ret h' ->
  (forall e, key (snd (onEcm e h)) = key h) /\
  ((key h' = key h /\ keyPublished h' = keyPublished h) \/
   exists e rest,
     queue h = e :: rest /\
     fst (AcasCard.ecm masterKey e (acasCard h)) = Ret (Some (key h')) /\
     keyPublished h' = true).
Proof.
  intros W. split.
  - intros e. unfold onEcm. destruct (Bytes.eqb (lastEcm h) e); reflexivity.
  - revert W. unfold worker_turn.
    destruct (queue h) as [|e rest]; [intros Q; inv Q; auto|].
    destruct (AcasCard.ecm masterKey e (acasCard h)) as [[[k|]| | |] c] eqn:E;
      intros T; inv T; auto.
    right. exists e, rest. rewrite E. auto.
Qed.

(** While the parity asked for is the one served last, [getDecryptionKey]
    does not wait: it returns the half of [key] at once and changes
    nothing, also with ECMs still in the queue. *)
Theorem getDecryptionKey_same_parity (keyType : EncryptionFlag)
  (notified : list Z) (h : state) :
  ecmReady h = true ->
  lastPayloadKeyType h = keyType ->
  getDecryptionKey masterKey keyType notified h =
  (Ret (Some (match keyType with
              | EVEN => even (key h)
              | ODD | UNSCRAMBLED => odd (key h)
              end)), h).
Proof.
  intros R L. unfold getDecryptionKey. rewrite R. cbn [negb].
  replace (flag_eqb (lastPayloadKeyType h) keyType) with true
    by (symmetry; apply flag_eqb_eq; exact L).
  cbn [negb]. subst keyType. destruct h as [c l q r f k a lk ak kp].
  cbn [lastPayloadKeyType key set_lastPayloadKeyType acasCard lastEcm queue
       ecmReady hasAESNI lastKey aesKey keyPublished].
  destruct f; reflexivity.
Qed.

(** When the parity changes and the worker empties the queue within the
    10 seconds, the key is served (unless the card code is undefined on
    one of the ECMs): the wait is not a refusal. *)
Theorem getDecryptionKey_served_when_drained (keyType : EncryptionFlag)
  (notified : list Z) (h : state) :
  ecmReady h = true ->
  lastPayloadKeyType h <> keyType ->
  drained_in_time flip_timeout notified h ->
  let out := getDecryptionKey masterKey keyType notified h in
  fst out = Undefined \/
  (fst out = Ret (Some (match keyType with
                        | EVEN => even (key (snd out))
                        | ODD | UNSCRAMBLED => odd (key (snd out))
                        end)) /\
   queue (snd out) = [] /\
   lastPayloadKeyType (snd out) = keyType).
Proof.
  intros R N D. cbv zeta. unfold getDecryptionKey. rewrite R. cbn [negb].
  replace (flag_eqb (lastPayloadKeyType h) keyType) with false.
  2:{ symmetry. destruct (flag_eqb _ _) eqn:E; [|reflexivity].
      apply flag_eqb_eq in E. contradiction. }
  cbn [negb].
  destruct (wait_for_empty masterKey flip_timeout notified h) as [w h1] eqn:W.
  apply wait_for_empty_spec in W as (_ & _ & C & Y & Z).
  destruct C as [->|[->| ->]].
  - right. destruct (Y eq_refl) as [Q _]. cbn [fst snd].
    cbn [set_lastPayloadKeyType key queue lastPayloadKeyType].
    split; [destruct keyType; reflexivity|]. split; [exact Q|reflexivity].
  - exfalso. destruct (Z eq_refl) as [_ X]. contradiction.
  - left. reflexivity.
Qed.


(** An ECM that arrives before [setSmartCard] is lost: the worker hands it
    to an [AcasCard] without a port, which fails at once, and pops it; once
    the card is set, the same ECM coming again is taken for a repetition
    and is not queued. *)
Theorem ecm_before_setSmartCard (e : bytes) (c : card) (h : state) :
  smartCard (acasCard h) = None ->
  queue h = [] ->
  Bytes.eqb (lastEcm h) e = false ->
  exists h2,
    worker_turn masterKey (snd (onEcm e h)) = Ret h2 /\
    key h2 = key h /\
    acasCard h2 = acasCard h /\
    let h3 := setSmartCard (Some c) h2 in
    smartCard (acasCard h3) = Some c /\
    queue h3 = [] /\
    onEcm e h3 = (true, h3).
Proof.
  intros N Q E. unfold onEcm at 1. rewrite E. cbn [snd].
  unfold worker_turn. cbn [queue acasCard]. rewrite Q. cbn [app].
  unfold AcasCard.ecm. rewrite N.
  eexists. split; [reflexivity|].
  cbn [key acasCard setSmartCard AcasCard.setSmartCard smartCard queue].
  repeat match goal with |- _ /\ _ => split end; auto.
  unfold onEcm. cbn [lastEcm]. rewrite eqb_refl. reflexivity.
Qed.

End WithCard.

(** *** The counter block *)

Lemma be_value_from (v : bytes) (acc : Z) :
  fold_left (fun a b => a * 256 + b) v acc =
  acc * 256 ^ Z.of_nat (length v) + be_value v.
Proof.
  unfold be_value. revert acc.
  induction v as [|b v IH]; intros acc.
  - cbn [fold_left length Z.of_nat]. lia.
  - cbn [fold_left]. rewrite IH, (IH (0 * 256 + b)).
    rewrite length_cons, Nat2Z.inj_succ, Z.pow_succ_r by lia. ring.
Qed.

Lemma be_value_cons (b : Z) (v : bytes) :
  be_value (b :: v) = b * 256 ^ Z.of_nat (length v) + be_value v.
Proof.
  unfold be_value at 1. cbn [fold_left]. rewrite be_value_from. ring.
Qed.

(** The bytes of [be_bytes] read back as the number they were made of,
    cut to their width. *)
Lemma be_value_be_bytes (n : nat) (x : Z) :
  be_value (be_bytes n x) = x mod 256 ^ Z.of_nat n.
Proof.
  induction n as [|n IH].
  - cbn [be_bytes]. change (256 ^ Z.of_nat 0) with 1. rewrite Z.mod_1_r.
    reflexivity.
  - cbn [be_bytes]. rewrite be_value_cons, be_bytes_length, IH.
    rewrite Z.shiftr_div_pow2 by lia.
    replace (2 ^ (8 * Z.of_nat n)) with (256 ^ Z.of_nat n)
      by (change 256 with (2 ^ 8); rewrite <- Z.pow_mul_r by lia;
          reflexivity).
    rewrite Nat2Z.inj_succ, Z.pow_succ_r by lia.
    assert (P : 0 < 256 ^ Z.of_nat n) by (apply Z.pow_pos_nonneg; lia).
    rewrite (Z.mul_comm 256), Z.rem_mul_r by lia. ring.
Qed.

Lemma be_bytes_mod (n : nat) (x y : Z) :
  x mod 256 ^ Z.of_nat n = y mod 256 ^ Z.of_nat n ->
  be_bytes n x = be_bytes n y.
Proof.
  induction n as [|n IH]; [reflexivity|].
  intros E. cbn [be_bytes].
  assert (P : 0 < 256 ^ Z.of_nat n) by (apply Z.pow_pos_nonneg; lia).
  rewrite Nat2Z.inj_succ, Z.pow_succ_r, (Z.mul_comm 256) in E by lia.
  rewrite !Z.rem_mul_r in E by lia.
  rewrite !Z.shiftr_div_pow2 by lia.
  replace (2 ^ (8 * Z.of_nat n)) with (256 ^ Z.of_nat n)
    by (change 256 with (2 ^ 8); rewrite <- Z.pow_mul_r by lia; reflexivity).
  pose proof (Z.mod_pos_bound x (256 ^ Z.of_nat n) P) as Bx.
  pose proof (Z.mod_pos_bound y (256 ^ Z.of_nat n) P) as By.
  pose proof (Z.mod_pos_bound (x / 256 ^ Z.of_nat n) 256 ltac:(lia)) as Cx.
  pose proof (Z.mod_pos_bound (y / 256 ^ Z.of_nat n) 256 ltac:(lia)) as Cy.
  assert (D : (x / 256 ^ Z.of_nat n) mod 256 = (y / 256 ^ Z.of_nat n) mod 256)
    by nia.
  rewrite D. f_equal. apply IH. nia.
Qed.

Lemma app_same_length {A} (a b x y : list A) :
  length a = length b -> a ++ x = b ++ y -> a = b /\ x = y.
Proof.
  revert b. induction a as [|u a IH]; intros [|v b] L E;
    try discriminate; [auto|].
  cbn [app] in E. inversion E; subst.
  destruct (IH b) as [-> ->]; auto.
Qed.

(** The IV [decrypt] builds tells the packets apart by their packet id and
    sequence number, and by nothing else: two packets get the same counter
    block exactly when they agree on the 16 bits of the one and the 32 bits
    of the other.  It is 16 bytes long, the last ten of them zero. *)
Theorem make_iv_injective (m1 m2 : Mmtp) :
  length (make_iv m1) = 16%nat /\
  skipn 6 (make_iv m1) = repeat 0 10 /\
  (make_iv m1 = make_iv m2 <->
   packetId m1 mod 2 ^ 16 = packetId m2 mod 2 ^ 16 /\
   packetSequenceNumber m1 mod 2 ^ 32 = packetSequenceNumber m2 mod 2 ^ 32).
Proof.
  unfold make_iv. split; [|split].
  - rewrite !length_app, !be_bytes_length, repeat_length. reflexivity.
  - rewrite app_assoc, skipn_app, length_app, !be_bytes_length.
    rewrite skipn_all2 by (rewrite length_app, !be_bytes_length; lia).
    reflexivity.
  - split.
    + intros E.
      apply app_same_length in E as [E1 E];
        [|rewrite !be_bytes_length; reflexivity].
      apply app_same_length in E as [E2 _];
        [|rewrite !be_bytes_length; reflexivity].
      apply (f_equal be_value) in E1, E2.
      rewrite !be_value_be_bytes in E1, E2.
      split; [exact E1|exact E2].
    + intros [E1 E2].
      rewrite (be_bytes_mod 2 _ _ E1), (be_bytes_mod 4 _ _ E2). reflexivity.
Qed.

End AcasHandlerQueue.

(** ** The ECM queue against the simulated card *)

Module AcasHandlerQueueScenarios.

Import AcasCard AcasHandler AcasHandlerFacts AcasHandlerQueue SimCard.
Import AcasHandlerScenarios.

(** Scenario 4 of the spec at length: the ECM A three times, B, then A
    again are queued as A, B, A. *)
Example feed_squeezes :
  let a := test_ecm in
  let b := repeat 0x55 32 in
  queue (feed [a; a; a; b; a] (fresh_handler [] EVEN)) = [a; b; a].
Proof. vm_compute. reflexivity. Qed.

(** A card that authenticates and then refuses the ECM. *)
Definition refusing : AcasHandler.state :=
  fresh_handler [Honest; Reject 0x6A 0x86] EVEN.

Definition refused : AcasHandler.state :=
  Eval vm_compute in
    match worker_turn test_key (snd (onEcm test_ecm refusing)) with
    | Ret h => h
    | _ => refusing
    end.

Lemma failed_ecm_is_dropped_witness :
  queue (snd (onEcm test_ecm refusing)) = [test_ecm] /\
  queue refused = [] /\
  key refused = key refusing /\
  onEcm test_ecm refused = (true, refused).
Proof.
  apply (failed_ecm_is_dropped test_key test_ecm refusing refused).
  - reflexivity.
  - vm_compute. reflexivity.
  - vm_compute. reflexivity.
  - vm_compute. reflexivity.
Defined.

Lemma key_comes_from_the_card_witness :
  (forall e, key (snd (onEcm e (fed_handler [] EVEN))) =
             key (fed_handler [] EVEN)) /\
  ((key (keyed_handler EVEN) = key (fed_handler [] EVEN) /\
    keyPublished (keyed_handler EVEN) = keyPublished (fed_handler [] EVEN)) \/
   exists e rest,
     queue (fed_handler [] EVEN) = e :: rest /\
     fst (AcasCard.ecm test_key e (acasCard (fed_handler [] EVEN))) =
       Ret (Some (key (keyed_handler EVEN))) /\
     keyPublished (keyed_handler EVEN) = true).
Proof.
  apply (key_comes_from_the_card test_key (fed_handler [] EVEN)
           (keyed_handler EVEN)).
  vm_compute. reflexivity.
Defined.

Lemma getDecryptionKey_same_parity_witness :
  queue (fed_handler [] EVEN) = [test_ecm] /\
  getDecryptionKey test_key EVEN [] (fed_handler [] EVEN) =
  (Ret (Some (even (key (fed_handler [] EVEN)))), fed_handler [] EVEN).
Proof.
  split; [reflexivity|].
  apply (getDecryptionKey_same_parity test_key EVEN [] (fed_handler [] EVEN));
    reflexivity.
Defined.

Lemma getDecryptionKey_served_when_drained_witness :
  let out := getDecryptionKey test_key ODD [5] (fed_handler [] EVEN) in
  fst out = Undefined \/
  (fst out = Ret (Some (odd (key (snd out)))) /\
   queue (snd out) = [] /\
   lastPayloadKeyType (snd out) = ODD).
Proof.
  apply (getDecryptionKey_served_when_drained test_key ODD [5]
           (fed_handler [] EVEN)).
  - reflexivity.
  - discriminate.
  - split; [vm_compute; apply le_n|].
    vm_compute. constructor; [discriminate|constructor].
Defined.

(** A handler whose [AcasCard] has no port yet. *)
Definition cardless : AcasHandler.state :=
  new_handler (AcasCard.setSmartCard None (test_env [])) EVEN key0 false.

Lemma ecm_before_setSmartCard_witness :
  exists h2,
    worker_turn test_key (snd (onEcm test_ecm cardless)) = Ret h2 /\
    key h2 = key cardless /\
    acasCard h2 = acasCard cardless /\
    let h3 := setSmartCard (Some (fresh [])) h2 in
    smartCard (acasCard h3) = Some (fresh []) /\
    queue h3 = [] /\
    onEcm test_ecm h3 = (true, h3).
Proof.
  apply (ecm_before_setSmartCard test_key test_ecm (fresh []) cardless).
  - reflexivity.
  - reflexivity.
  - vm_compute. reflexivity.
Defined.

End AcasHandlerQueueScenarios.

(** ** The buffers and the views of IOThread *)

Module IOThreadBuffers.

Import IOThread IOThreadFacts.
Import Permutation.

Local Open Scope N_scope.

Definition opt_list {A} (o : option A) : list A :=
  match o with Some a => [a] | None => [] end.

(** What a turn of the producer that goes through does to the queues, the
    stream and the buffers. *)
Lemma threadFunc_turn_Ok (t t' : state) (e : loop_exit) :
  threadFunc_turn t = Ok (e, t') ->
  exists w free1 p ps leftover w2,
    m_freeBuffersQueue t = w :: free1 /\
    m_processedBuffersQueue t = p :: ps /\
    m_freeBuffersQueue t' = free1 ++ opt_list (returned p) /\
    m_processedBuffersQueue t' = ps /\
    m_inputStream t' = snd (stream_read NEW_DATA_AREA_SIZE (m_inputStream t)) /\
    (if vlen (remaining_view p) =? 0 then Some []
     else read (heap t (vbuf (remaining_view p))) (voff (remaining_view p))
            (remainingSize (remaining_view p))) = Some leftover /\
    heap t' = upd (heap t) w w2 /\
    let fresh := fst (stream_read NEW_DATA_AREA_SIZE (m_inputStream t)) in
    (forall i, i < N.of_nat (length leftover) ->
       byte_at w2 i = nth (N.to_nat i) leftover 0%Z) /\
    holds w2 (remainingSize (remaining_view p)) fresh /\
    size w2 = size (heap t w) /\
    m_filledBuffersQueue t' =
      m_filledBuffersQueue t ++
      [match e with
       | Break => sentinel
       | Continue =>
           {| buffer := Some w;
              view := {| vbuf := w; voff := 0;
                         vlen := remainingSize (remaining_view p) +
                                 N.of_nat (length fresh) |} |}
       end] /\
    (e = Break <-> fresh = [] /\ eofbit (m_inputStream t') = true).
Proof.
  unfold threadFunc_turn.
  destruct (m_freeBuffersQueue t) as [|w free1]; [discriminate|].
  destruct (m_processedBuffersQueue t) as [|p ps]; [discriminate|].
  cbv zeta.
  destruct (if vlen (remaining_view p) =? 0 then Some [] else _)
    as [leftover|] eqn:Hread; [|discriminate].
  destruct (write (heap t w) 0 leftover) as [w1|] eqn:Hw1; [|discriminate].
  destruct (stream_read NEW_DATA_AREA_SIZE (m_inputStream t))
    as [fresh stream1] eqn:Hsr.
  destruct (write w1 (remainingSize (remaining_view p)) fresh)
    as [w2|] eqn:Hw2; [|discriminate].
  assert (B1 : 0 + N.of_nat (length leftover) <= size (heap t w)).
  { destruct (N.le_gt_cases (0 + N.of_nat (length leftover)) (size (heap t w)))
      as [B|B]; [exact B|].
    unfold write in Hw1. apply N.leb_gt in B. rewrite B in Hw1. discriminate. }
  destruct (write_Some (heap t w) 0 leftover B1) as (w1' & Q1 & Z1 & H1 & _).
  rewrite Hw1 in Q1. inv Q1.
  assert (B2 : remainingSize (remaining_view p) + N.of_nat (length fresh)
               <= size w1').
  { destruct (N.le_gt_cases
                (remainingSize (remaining_view p) + N.of_nat (length fresh))
                (size w1')) as [B|B]; [exact B|].
    unfold write in Hw2. apply N.leb_gt in B. rewrite B in Hw2. discriminate. }
  destruct (write_Some w1' _ fresh B2) as (w2' & Q2 & Z2 & H2 & L2).
  rewrite Hw2 in Q2. inv Q2.
  assert (Hlow : forall i, i < N.of_nat (length leftover) ->
                   byte_at w2' i = nth (N.to_nat i) leftover 0%Z).
  { intros i Hi.
    assert (Hn : N.of_nat (length leftover) <= remainingSize (remaining_view p)).
    { destruct (vlen (remaining_view p) =? 0).
      - inv Hread. cbn [length]. lia.
      - apply read_holds in Hread. lia. }
    rewrite L2 by lia. destruct H1 as [_ H1].
    specialize (H1 (N.to_nat i) ltac:(lia)).
    rewrite N2Nat.id in H1. exact H1. }
  destruct ((N.of_nat (length fresh) =? 0) && eofbit stream1) eqn:C;
    intros Q; inv Q;
    exists w, free1, p, ps, leftover, w2';
    cbn [m_freeBuffersQueue m_processedBuffersQueue m_inputStream heap
         m_filledBuffersQueue fst snd];
    (assert (F : match returned p with
                 | Some b => free1 ++ [b]
                 | None => free1
                 end = free1 ++ opt_list (returned p))
       by (destruct (returned p); cbn [opt_list];
           [reflexivity|symmetry; apply app_nil_r]));
    repeat match goal with |- _ /\ _ => split end; auto; try congruence.
  - split; [intros _|reflexivity].
    apply andb_true_iff in C as [C1 C2]. apply N.eqb_eq in C1.
    split; [|exact C2]. destruct fresh; [reflexivity|discriminate].
  - split; [discriminate|]. intros [-> E]. rewrite E in C. discriminate.
Qed.


Lemma holds_firstn (v : vector) (off : N) (l : bytes) (k : nat) :
  holds v off l -> holds v off (firstn k l).
Proof.
  intros [B Hl]. split.
  - rewrite length_firstn. lia.
  - intros i Hi. rewrite length_firstn in Hi.
    rewrite Hl by lia. rewrite nth_firstn.
    replace (i <? k)%nat with true by (symmetry; apply Nat.ltb_lt; lia).
    reflexivity.
Qed.

(** The safeguard of step 4.  Whatever the length of the view the consumer
    reports, the producer goes on; the next view starts with the first
    [SPILL_OVER_AREA_SIZE] bytes of the leftover at most, the new bytes
    following at once: what the leftover holds beyond the spill-over area
    is not shown again. *)
Theorem threadFunc_turn_clamps (t : state) (L : bytes) (w : nat)
  (free1 : list nat) (p : ProcessedBuffer) (ps : list ProcessedBuffer) :
  sized (heap t) ->
  m_freeBuffersQueue t = w :: free1 ->
  m_processedBuffersQueue t = p :: ps ->
  vlen (remaining_view p) = N.of_nat (length L) ->
  holds (heap t (vbuf (remaining_view p))) (voff (remaining_view p)) L ->
  let kept := firstn (N.to_nat SPILL_OVER_AREA_SIZE) L in
  let fresh := fst (stream_read NEW_DATA_AREA_SIZE (m_inputStream t)) in
  exists e t',
    threadFunc_turn t = Ok (e, t') /\
    holds (heap t' w) 0 (kept ++ fresh) /\
    (e = Continue ->
     m_filledBuffersQueue t' =
       m_filledBuffersQueue t ++ [filled_with w (kept ++ fresh)]).
Proof.
  intros Hs Hfree Hp Hlen Hh. cbv zeta.
  set (kept := firstn (N.to_nat SPILL_OVER_AREA_SIZE) L).
  destruct sizes_fit as [Hfit _].
  assert (Hk : N.of_nat (length kept) = remainingSize (remaining_view p)).
  { unfold kept. rewrite remainingSize_clamp, Hlen, length_firstn. lia. }
  assert (Hread : (if vlen (remaining_view p) =? 0 then Some []
                   else read (heap t (vbuf (remaining_view p)))
                          (voff (remaining_view p))
                          (remainingSize (remaining_view p))) = Some kept).
  { destruct (N.eqb_spec (vlen (remaining_view p)) 0) as [Z|Z].
    - destruct L; [unfold kept; rewrite firstn_nil; reflexivity|].
      rewrite Hlen in Z. simpl in Z. lia.
    - rewrite <- Hk. apply holds_read, holds_firstn, Hh. }
  assert (Hspill : remainingSize (remaining_view p) <= SPILL_OVER_AREA_SIZE)
    by (rewrite remainingSize_clamp; lia).
  destruct (write_Some (heap t w) 0 kept) as (w1 & Hw1 & Hz1 & Hh1 & _).
  { rewrite Hs. lia. }
  pose proof (stream_read_count NEW_DATA_AREA_SIZE (m_inputStream t)) as Hc.
  unfold threadFunc_turn. rewrite Hfree, Hp. cbv zeta.
  rewrite Hread, Hw1.
  destruct (stream_read NEW_DATA_AREA_SIZE (m_inputStream t))
    as [fresh stream1] eqn:Hsr.
  cbn [fst] in *.
  destruct (write_Some w1 (N.of_nat (length kept)) fresh)
    as (w2 & Hw2 & Hz2 & Hh2 & Hlow).
  { rewrite Hz1, Hs. lia. }
  assert (Hall : holds w2 0 (kept ++ fresh)) by (apply (holds_app w1); auto).
  rewrite <- Hk, Hw2.
  destruct ((N.of_nat (length fresh) =? 0) && eofbit stream1);
    eexists; eexists; (split; [reflexivity|]);
    cbn [heap m_filledBuffersQueue]; rewrite upd_same;
    (split; [exact Hall|]); intros E; [discriminate|].
  unfold filled_with. rewrite length_app, Nat2N.inj_add. reflexivity.
Qed.

Section Circulation.

Variable S : Type.
Variable consume : S -> bytes -> S * N.

Lemma consumer_turn_Ok (cs : S) (t t' : state)
  (x : option (S * bytes * bytes)) :
  consumer_turn S consume cs t = Ok (x, t') ->
  exists filled rest,
    m_filledBuffersQueue t = filled :: rest /\
    m_filledBuffersQueue t' = rest /\
    m_freeBuffersQueue t' = m_freeBuffersQueue t /\
    heap t' = heap t /\
    m_inputStream t' = m_inputStream t /\
    match x with
    | None =>
        buffer filled = None /\
        m_processedBuffersQueue t' = m_processedBuffersQueue t
    | Some (cs', shown, parsed) =>
        exists b k,
          buffer filled = Some b /\
          read (heap t (vbuf (view filled))) (voff (view filled))
               (vlen (view filled)) = Some shown /\
          k <= vlen (view filled) /\
          parsed = firstn (N.to_nat k) shown /\
          m_processedBuffersQueue t' =
            m_processedBuffersQueue t ++
            [{| returned := Some b;
                remaining_view :=
                  {| vbuf := vbuf (view filled);
                     voff := voff (view filled) + k;
                     vlen := vlen (view filled) - k |} |}]
    end.
Proof.
  unfold consumer_turn.
  destruct (m_filledBuffersQueue t) as [|filled rest]; [discriminate|].
  destruct (buffer filled) as [b|] eqn:B.
  - cbv zeta.
    destruct (read _ _ _) as [shown|] eqn:R; [|discriminate].
    destruct (consume cs shown) as [cs' k0].
    intros Q; inv Q. exists filled, rest.
    cbn [m_freeBuffersQueue m_processedBuffersQueue m_inputStream heap
         m_filledBuffersQueue].
    repeat match goal with |- _ /\ _ => split end; auto.
    exists b, (N.min k0 (vlen (view filled))).
    repeat match goal with |- _ /\ _ => split end; auto. lia.
  - intros Q; inv Q. exists filled, rest.
    cbn [m_freeBuffersQueue m_processedBuffersQueue m_inputStream heap
         m_filledBuffersQueue]. auto 10.
Qed.

(** The buffers the queues hold: free ones, filled ones on their way to the
    consumer, processed ones on their way back. *)
Definition owned (t : state) : list nat :=
  m_freeBuffersQueue t ++
  flat_map (fun f => opt_list (buffer f)) (m_filledBuffersQueue t) ++
  flat_map (fun p => opt_list (returned p)) (m_processedBuffersQueue t).

(** The states between two turns of the pipeline. *)
Inductive reachable : state -> Prop :=
| reach_start input : reachable (start input)
| reach_turn t t1 t2 cs x :
    reachable t ->
    threadFunc_turn t = Ok (Continue, t1) ->
    consumer_turn S consume cs t1 = Ok (Some x, t2) ->
    reachable t2.

Definition one_report (t : state) : Prop :=
  m_filledBuffersQueue t = [] /\
  exists p,
    m_processedBuffersQueue t = [p] /\
    Permutation (m_freeBuffersQueue t ++ opt_list (returned p))
                (seq 0 NUM_BUFFERS) /\
    (vlen (remaining_view p) <> 0 ->
     returned p = Some (vbuf (remaining_view p))).

Lemma reachable_one_report (t : state) : reachable t -> one_report t.
Proof.
  induction 1 as [input|t t1 t2 cs x R IH T C].
  - split; [reflexivity|]. eexists. split; [reflexivity|].
    cbn [returned opt_list start m_freeBuffersQueue remaining_view
         empty_view vlen].
    rewrite app_nil_r. split; [apply Permutation_refl|]. congruence.
  - destruct IH as (F & p & P & Perm & V).
    apply threadFunc_turn_Ok in T
      as (w & free1 & p0 & ps & leftover & w2 & Hf & Hp & Hf1 & Hp1 & _ & _ &
          _ & T).
    cbv zeta in T. destruct T as (_ & _ & _ & Hfill & _).
    rewrite P in Hp. assert (p0 = p /\ ps = []) as [-> ->] by (inv Hp; auto).
    clear Hp. rewrite F in Hfill. cbn [app] in Hfill.
    apply consumer_turn_Ok in C
      as (filled & rest & Cf & Cr & Cfree & _ & _ & C).
    rewrite Hfill in Cf.
    assert (Ef : filled = {| buffer := Some w;
                             view := {| vbuf := w; voff := 0;
                                        vlen := remainingSize (remaining_view p) +
                                                N.of_nat (length (fst (stream_read NEW_DATA_AREA_SIZE (m_inputStream t)))) |} |}
                 /\ rest = []) by (inv Cf; auto).
    destruct Ef as [-> ->]. clear Cf.
    destruct x as [[cs' shown] parsed].
    destruct C as (b & k & B & _ & _ & _ & Cp).
    cbn [buffer view vbuf voff vlen] in *. inv B.
    split; [congruence|]. eexists.
    split; [rewrite Cp, Hp1; reflexivity|].
    cbn [returned remaining_view vbuf vlen opt_list].
    split; [|reflexivity].
    rewrite Cfree, Hf1. rewrite Hf in Perm.
    eapply Permutation_trans; [|exact Perm].
    rewrite <- app_comm_cons. apply Permutation_sym, Permutation_cons_append.
Qed.

(** The three buffers circulate: between two turns every one of them is in
    exactly one place, the free queue or the report of the consumer; and the
    buffer the producer takes next is not the one the leftover is copied
    from. *)
Theorem buffers_circulate (t : state) :
  reachable t ->
  Permutation (owned t) (seq 0 NUM_BUFFERS) /\
  forall w free1 p ps,
    m_freeBuffersQueue t = w :: free1 ->
    m_processedBuffersQueue t = p :: ps ->
    vlen (remaining_view p) <> 0 ->
    vbuf (remaining_view p) <> w.
Proof.
  intros R. apply reachable_one_report in R as (F & p & P & Perm & V).
  split.
  - unfold owned. rewrite F, P. cbn [flat_map app]. rewrite app_nil_r.
    exact Perm.
  - intros w free1 p0 ps Hf Hp Hv. rewrite P in Hp. inv Hp.
    rewrite Hf, (V Hv) in Perm. cbn [opt_list] in Perm.
    assert (N : NoDup (w :: free1 ++ [vbuf (remaining_view p0)])).
    { apply (Permutation_NoDup (Permutation_sym Perm)). apply seq_NoDup. }
    inversion N as [|? ? Hin _]; subst. intros E. apply Hin.
    apply in_or_app. right. left. exact E.
Qed.

End Circulation.


(** *** How the input is cut into views *)

Lemma stream_read_take (n : N) (s : istream) :
  drained s -> fst (stream_read n s) = take n (pending s).
Proof.
  intros D. unfold stream_read. destruct (eofbit s) eqn:E; [|reflexivity].
  rewrite (D E). reflexivity.
Qed.

Lemma chunks_fuel (n : nat) (f1 f2 : nat) (v : bytes) :
  (0 < n)%nat -> (length v <= f1)%nat -> (length v <= f2)%nat ->
  chunks f1 n v = chunks f2 n v.
Proof.
  intros Hn. revert f2 v.
  induction f1 as [|f1 IH]; intros f2 v L1 L2.
  - destruct v; [|simpl in L1; lia]. destruct f2; reflexivity.
  - destruct v as [|x v]; [destruct f2; reflexivity|].
    destruct f2 as [|f2]; [simpl in L2; lia|].
    cbn [chunks]. f_equal.
    assert (length (skipn n (x :: v)) <= length v)%nat
      by (rewrite length_skipn; cbn [length]; lia).
    cbn [length] in L1, L2. apply IH; lia.
Qed.

Lemma concat_chunks (n : nat) (f : nat) (v : bytes) :
  (0 < n)%nat -> (length v <= f)%nat -> concat (chunks f n v) = v.
Proof.
  intros Hn. revert v. induction f as [|f IH]; intros v L.
  - destruct v; [reflexivity|simpl in L; lia].
  - destruct v as [|x v]; [reflexivity|].
    cbn [chunks concat]. rewrite IH; [apply firstn_skipn|].
    rewrite length_skipn. cbn [length] in *. lia.
Qed.

Lemma chunks_sizes (n : nat) (f : nat) (v : bytes) :
  (0 < n)%nat ->
  Forall (fun c => 0 < length c <= n)%nat (chunks f n v).
Proof.
  intros Hn. revert v. induction f as [|f IH]; intros v.
  - destruct v; constructor.
  - destruct v as [|x v]; [constructor|].
    cbn [chunks]. constructor; [|apply IH].
    rewrite length_firstn. cbn [length]. lia.
Qed.

(** The new bytes of each view of a log: what follows the leftover. *)
Fixpoint fresh_parts (prev : bytes) (log : list (bytes * bytes))
  : list bytes :=
  match log with
  | [] => []
  | (shown, parsed) :: log' =>
      skipn (length prev) shown ::
      fresh_parts (skipn (length parsed) shown) log'
  end.

Section Views.

Variable S : Type.
Variable consume : S -> bytes -> S * N.

Lemma pipeline_chunks (fuel : nat) :
  obeys S consume ->
  forall (cs : S) (t : state) (log : list (bytes * bytes)) (L : bytes),
    ready t L ->
    (length (pending (m_inputStream t)) < fuel)%nat ->
    exists log',
      pipeline S consume fuel cs t log = Ok (log ++ log') /\
      fresh_parts L log' =
        chunks fuel (N.to_nat NEW_DATA_AREA_SIZE) (pending (m_inputStream t)).
Proof.
  intros Hc. induction fuel as [|fuel IH]; intros cs t log L Hr Hfuel; [lia|].
  assert (Hd0 : drained (m_inputStream t))
    by (destruct Hr as (_ & _ & D & _); exact D).
  destruct (threadFunc_turn_ready t L Hr)
    as (fresh & w & t1 & Hturn & Hsplit & Hcount & Hd & Hs & Hp & Hq & Hh).
  cbn [pipeline].
  destruct Hturn as [(-> & Hnone & Ht & Hf)|(Hne & Ht & Hf)]; rewrite Ht.
  - destruct (consumer_turn_sentinel S consume cs t1 Hf) as [t2 Hcons].
    rewrite Hcons. exists []. rewrite app_nil_r, Hnone.
    split; reflexivity.
  - assert (Hfresh : fresh = firstn (N.to_nat NEW_DATA_AREA_SIZE)
                               (pending (m_inputStream t)) /\
                     pending (m_inputStream t1) =
                       skipn (N.to_nat NEW_DATA_AREA_SIZE)
                             (pending (m_inputStream t))).
    { apply threadFunc_turn_Ok in Ht
        as (w' & free1 & p & ps & leftover & w2 & _ & _ & _ & _ & Hst & _).
      destruct sizes_fit as [_ Hpos].
      destruct (stream_read_spec NEW_DATA_AREA_SIZE (m_inputStream t) Hpos Hd0)
        as (Hsp & _).
      rewrite <- Hst in Hsp. rewrite Hsplit in Hsp at 1.
      apply app_inv_tail in Hsp.
      rewrite stream_read_take, take_firstn in Hsp by exact Hd0.
      split; [exact Hsp|].
      rewrite Hsp in Hsplit.
      rewrite <- (firstn_skipn (N.to_nat NEW_DATA_AREA_SIZE)
                               (pending (m_inputStream t))) in Hsplit at 1.
      apply app_inv_head in Hsplit. symmetry. exact Hsplit. }
    destruct Hfresh as [Hfr Hrest].
    destruct (consumer_turn_filled S consume cs t1 w (L ++ fresh)
                Hc Hs Hd Hf Hp Hq Hh)
      as (cs' & k & t2 & Hcons & Hk & Hr2 & Hin).
    rewrite Hcons. cbv beta iota.
    destruct (IH cs' t2 (log ++ [(L ++ fresh, firstn k (L ++ fresh))])
                 (skipn k (L ++ fresh)) Hr2) as (log' & Hrun & Hparts).
    { rewrite Hin. rewrite Hsplit, length_app in Hfuel.
      destruct fresh; [congruence|]. simpl in Hfuel. lia. }
    exists ((L ++ fresh, firstn k (L ++ fresh)) :: log').
    split; [rewrite <- app_assoc in Hrun; exact Hrun|].
    cbn [fresh_parts].
    rewrite length_firstn, Nat.min_l by exact Hk.
    rewrite Hparts, Hin, Hrest, skipn_app, skipn_all, Nat.sub_diag.
    cbn [skipn app].
    destruct (pending (m_inputStream t)) as [|x rest] eqn:Hpend.
    { rewrite firstn_nil in Hfr. congruence. }
    cbn [chunks]. rewrite <- Hfr. reflexivity.
Qed.

(** Each view carries, after the leftover, the next
    [NEW_DATA_AREA_SIZE] bytes of the input, the last view what is left of
    it: the run ends, it shows one view per 16 MiB begun, and every byte of
    the input is new in exactly one view, in the order of the input. *)
Theorem views_cut_input (cs : S) (input : bytes) :
  obeys S consume ->
  exists log,
    run consume cs input = Ok log /\
    fresh_parts [] log =
      chunks (length input) (N.to_nat NEW_DATA_AREA_SIZE) input /\
    concat (fresh_parts [] log) = input /\
    Forall (fun part => (0 < length part)%nat /\
                        N.of_nat (length part) <= NEW_DATA_AREA_SIZE)
           (fresh_parts [] log).
Proof.
  intros Hc.
  destruct (pipeline_chunks (Datatypes.S (length input)) Hc cs (start input)
              [] [] (start_ready input)) as (log & Hrun & Hparts).
  { cbn [start m_inputStream pending]. lia. }
  destruct sizes_fit as [_ Hpos].
  assert (Hn : (0 < N.to_nat NEW_DATA_AREA_SIZE)%nat) by lia.
  cbn [start m_inputStream pending] in Hparts.
  rewrite (chunks_fuel _ _ (length input) _ Hn) in Hparts by lia.
  exists log. split; [exact Hrun|]. split; [exact Hparts|].
  rewrite Hparts. split; [apply concat_chunks; [exact Hn|lia]|].
  eapply Forall_impl; [|apply chunks_sizes; exact Hn].
  intros part P. cbv beta in P. split; lia.
Qed.

(** The consumer is shown no view exactly when the input is empty. *)
Theorem run_shows_nothing_iff_empty (cs : S) (input : bytes) :
  obeys S consume ->
  (run consume cs input = Ok [] <-> input = []).
Proof.
  intros Hc. split.
  - intros E.
    destruct (pipeline_ready S consume (Datatypes.S (length input)) Hc cs
                (start input) [] [] (start_ready input))
      as (log & Hrun & Hdata & _).
    { cbn [start m_inputStream pending]. lia. }
    unfold run in E. rewrite Hrun in E.
    cbn [app] in E. assert (log = []) by congruence. subst log.
    cbn [start m_inputStream pending app] in Hdata.
    symmetry. exact Hdata.
  - intros ->. reflexivity.
Qed.

End Views.

End IOThreadBuffers.

(** ** The buffers and the views on small inputs *)

Module IOThreadBuffersScenarios.

Import IOThread IOThreadFacts IOThreadBuffers IOThreadScenarios.
Import Permutation.

Local Open Scope N_scope.

(** The state after the first view of the input 1 2 3 has been shown to a
    consumer that leaves its last byte. *)
Definition after_first_view : state :=
  match threadFunc_turn (start [1; 2; 3]%Z) with
  | Ok (_, t1) =>
      match consumer_turn unit keeps_last_byte tt t1 with
      | Ok (_, t2) => t2
      | _ => t1
      end
  | _ => start []
  end.

Lemma after_first_view_reachable :
  reachable unit keeps_last_byte after_first_view.
Proof.
  assert (T : exists t1 x t2,
             threadFunc_turn (start [1; 2; 3]%Z) = Ok (Continue, t1) /\
             consumer_turn unit keeps_last_byte tt t1 = Ok (Some x, t2)).
  { eexists; eexists; eexists. split; vm_compute; reflexivity. }
  destruct T as (t1 & x & t2 & T & C).
  unfold after_first_view. rewrite T, C.
  eapply reach_turn; [apply reach_start|exact T|exact C].
Qed.

Example after_first_view_report :
  m_freeBuffersQueue after_first_view = [1; 2]%nat /\
  map returned (m_processedBuffersQueue after_first_view) = [Some 0%nat] /\
  map remaining_view (m_processedBuffersQueue after_first_view) =
    [{| vbuf := 0; voff := 2; vlen := 1 |}].
Proof. vm_compute. repeat split; reflexivity. Qed.

Lemma buffers_circulate_witness :
  Permutation (owned after_first_view) (seq 0 NUM_BUFFERS) /\
  forall w free1 p ps,
    m_freeBuffersQueue after_first_view = w :: free1 ->
    m_processedBuffersQueue after_first_view = p :: ps ->
    vlen (remaining_view p) <> 0 ->
    vbuf (remaining_view p) <> w.
Proof.
  exact (buffers_circulate unit keeps_last_byte after_first_view
           after_first_view_reachable).
Defined.

(** A report whose view holds two bytes of buffer 0, two buffers free and
    the bytes 7 8 still to be read. *)
Definition two_left : state :=
  {| heap := fun _ => zeros BUFFER_SIZE;
     m_inputStream := {| pending := [7; 8]%Z; eofbit := false |};
     m_freeBuffersQueue := [1; 2]%nat;
     m_filledBuffersQueue := [];
     m_processedBuffersQueue :=
       [{| returned := Some 0%nat;
           remaining_view := {| vbuf := 0; voff := 1; vlen := 2 |} |}] |}.

Lemma threadFunc_turn_clamps_witness :
  exists e t',
    threadFunc_turn two_left = Ok (e, t') /\
    holds (heap t' 1%nat) 0
          (firstn (N.to_nat SPILL_OVER_AREA_SIZE) [0; 0]%Z ++
           fst (stream_read NEW_DATA_AREA_SIZE (m_inputStream two_left))) /\
    (e = Continue ->
     m_filledBuffersQueue t' =
       m_filledBuffersQueue two_left ++
       [filled_with 1
          (firstn (N.to_nat SPILL_OVER_AREA_SIZE) [0; 0]%Z ++
           fst (stream_read NEW_DATA_AREA_SIZE (m_inputStream two_left)))]).
Proof.
  apply (threadFunc_turn_clamps two_left [0; 0]%Z 1%nat [2%nat]
           {| returned := Some 0%nat;
              remaining_view := {| vbuf := 0; voff := 1; vlen := 2 |} |} []).
  - intros b. reflexivity.
  - reflexivity.
  - reflexivity.
  - reflexivity.
  - split; [vm_compute; discriminate|].
    intros [|[|i]] Hi; [reflexivity|reflexivity|simpl in Hi; lia].
Defined.

Lemma views_cut_input_witness :
  exists log,
    run keeps_last_byte tt [1; 2; 3]%Z = Ok log /\
    fresh_parts [] log =
      chunks (length [1; 2; 3]%Z) (N.to_nat NEW_DATA_AREA_SIZE) [1; 2; 3]%Z /\
    concat (fresh_parts [] log) = [1; 2; 3]%Z /\
    Forall (fun part => (0 < length part)%nat /\
                        N.of_nat (length part) <= NEW_DATA_AREA_SIZE)
           (fresh_parts [] log).
Proof.
  exact (views_cut_input unit keeps_last_byte tt [1; 2; 3]%Z
           keeps_last_byte_obeys).
Defined.

Lemma run_shows_nothing_iff_empty_witness :
  run keeps_last_byte tt [] = Ok [] <-> @nil Z = [].
Proof.
  exact (run_shows_nothing_iff_empty unit keeps_last_byte tt []
           keeps_last_byte_obeys).
Defined.

End IOThreadBuffersScenarios.

(** ** Reading a dump back *)

Module HexDumpFacts.

Import HexDump.
Import Ascii String.

(** The value of a digit, and the bytes a string of digits stands for. *)
Definition digit_value (c : Ascii.ascii) : option Z :=
  let n := Z.of_nat (Ascii.nat_of_ascii c) in
  if (48 <=? n) && (n <=? 57) then Some (n - 48)
  else if (97 <=? n) && (n <=? 102) then Some (n - 87)
  else None.

Fixpoint unhex (s : String.string) : option bytes :=
  match s with
  | String.EmptyString => Some []
  | String.String hi (String.String lo rest) =>
      match digit_value hi, digit_value lo, unhex rest with
      | Some h, Some l, Some r => Some (16 * h + l :: r)
      | _, _, _ => None
      end
  | String.String _ String.EmptyString => None
  end.

Example print_hex_simple_key :
  print_hex_simple "  Key"%string [0; 10; 255] =
  String.append "  Key: 000aff"%string endl.
Proof. reflexivity. Qed.

Lemma digit_value_hex_digit (d : Z) :
  0 <= d < 16 -> digit_value (hex_digit d) = Some d.
Proof.
  intros D.
  assert (C : d = 0 \/ d = 1 \/ d = 2 \/ d = 3 \/ d = 4 \/ d = 5 \/ d = 6 \/
              d = 7 \/ d = 8 \/ d = 9 \/ d = 10 \/ d = 11 \/ d = 12 \/
              d = 13 \/ d = 14 \/ d = 15) by lia.
  repeat (destruct C as [->|C]; [reflexivity|]). subst d. reflexivity.
Qed.

Lemma unhex_hex_byte (b : Z) (rest : String.string) :
  0 <= b < 256 ->
  unhex (String.append (hex_byte b) rest) =
  match unhex rest with Some r => Some (b :: r) | None => None end.
Proof.
  intros B. unfold hex_byte. cbn [String.append unhex].
  assert (H1 : digit_value (hex_digit (b / 16)) = Some (b / 16)).
  { apply digit_value_hex_digit. split.
    - apply Z.div_pos; lia.
    - apply Z.div_lt_upper_bound; lia. }
  assert (H2 : digit_value (hex_digit (b mod 16)) = Some (b mod 16)).
  { apply digit_value_hex_digit. apply Z.mod_pos_bound. lia. }
  rewrite H1, H2. destruct (unhex rest); [|reflexivity].
  rewrite <- (Z.div_mod b 16) by lia. reflexivity.
Qed.

Lemma hex_bytes_cons (b : Z) (data : bytes) :
  hex_bytes (b :: data) = String.append (hex_byte b) (hex_bytes data).
Proof. reflexivity. Qed.

(** A dump can be read back: the line is the label, a colon and a space,
    two lower-case digits for each byte and a line feed, and the digits
    stand for the bytes dumped. *)
Theorem print_hex_simple_round_trip (label : String.string) (data : bytes) :
  Forall (fun b => 0 <= b < 256) data ->
  print_hex_simple label data =
    String.append label
      (String.append ": "%string (String.append (hex_bytes data) endl)) /\
  String.length (hex_bytes data) = (2 * List.length data)%nat /\
  unhex (hex_bytes data) = Some data.
Proof.
  intros F. split; [reflexivity|].
  induction F as [|b data B F [IH1 IH2]]; [split; reflexivity|].
  rewrite hex_bytes_cons. split.
  - unfold hex_byte. cbn [String.append String.length List.length].
    rewrite IH1. lia.
  - rewrite unhex_hex_byte by exact B. rewrite IH2. reflexivity.
Qed.

Lemma print_hex_simple_round_trip_witness :
  print_hex_simple "kcl"%string [0; 10; 255] =
    String.append "kcl"%string
      (String.append ": "%string (String.append (hex_bytes [0; 10; 255]) endl)) /\
  String.length (hex_bytes [0; 10; 255]) = (2 * List.length [0; 10; 255])%nat /\
  unhex (hex_bytes [0; 10; 255]) = Some [0; 10; 255].
Proof.
  apply (print_hex_simple_round_trip "kcl"%string [0; 10; 255]).
  repeat constructor; lia.
Defined.

End HexDumpFacts.
